(** * Vkav signal-processing pipeline ([src/Proccess.cpp])

    A shallow embedding of [Proccess::ProccessImpl]: the constructor, the five
    stages of [proccessSignal] and the static FFT helpers; and of the buffer
    handling of [AudioSampler::AudioSamplerImpl] ([Audio.cpp]), which fills
    the frames the pipeline works on.

    The C++ code computes on [float].  The embedding is written once, over an
    interface [FloatOps] of the arithmetic the code uses, and is read under
    two semantics:

    - [b32_ops]: IEEE-754 binary32 ([SpecFloat] with precision 24 and
      maximal exponent 128), with the libm transcendentals as a parameter.
      Used where a statement is about NaN and infinities: the constructor
      and [kernelSmooth], which compute in [float] throughout.
    - [exact_ops]: the real numbers, every operation exact, rounding left
      out.  Used where a statement is a mathematical identity or an order
      property; the stages that pass through [double] ([windowFunction],
      the twiddle factors) are read under this semantics only.

    Part I holds the definitions, Part II the lemmas and theorems. *)

From Stdlib Require Import ZArith List Bool Lia Permutation.
From Stdlib Require Import Reals Lra.
From Stdlib Require Import Floats.SpecFloat.
Import ListNotations.

#[local] Set Warnings "-abstract-large-number".

(** * Part I: definitions *)

(** ** The arithmetic interface *)

Class FloatOps (F : Type) : Type := {
  f_of_Z : Z -> F;          (* conversion of an integer to float *)
  f_to_int : F -> Z;        (* the cast (int)x: truncation toward zero *)
  fadd : F -> F -> F;
  fsub : F -> F -> F;
  fmul : F -> F -> F;
  fdiv : F -> F -> F;
  fneg : F -> F;
  fsqrt : F -> F;
  fexp : F -> F;
  fln : F -> F;
  flog10 : F -> F;
  fsin : F -> F;
  fcos : F -> F;
  f_pi : F;                 (* M_PI *)
  f_isnan : F -> bool       (* std::isnan *)
}.

(** A decimal literal of the source, [0.125f] as [lit 1 8], [0.05f] as
    [lit 5 100]: numerator and denominator are exactly representable, so the
    correctly rounded quotient is the literal's value. *)
Definition lit {F} `{FloatOps F} (a b : Z) : F := fdiv (f_of_Z a) (f_of_Z b).

(** ** IEEE-754 binary32 *)

Definition float32 : Type := spec_float.

Definition b32_of_Z (z : Z) : float32 := binary_normalize 24 128 z 0 false.

Definition b32_to_int (x : float32) : Z :=
  match x with
  | S754_finite s m e =>
      let mag := if (0 <=? e)%Z then (Zpos m * 2 ^ e)%Z else (Zpos m / 2 ^ (- e))%Z in
      if s then (- mag)%Z else mag
  | _ => 0%Z   (* undefined behaviour in C++ for NaN and infinities *)
  end.

Definition b32_isnan (x : float32) : bool :=
  match x with S754_nan => true | _ => false end.

Definition b32_finite (x : float32) : bool :=
  match x with S754_zero _ | S754_finite _ _ _ => true | _ => false end.

(** The libm functions the code calls; [sqrtf] is not among them, IEEE-754
    fixes its result. *)
Record Libm : Type := {
  lm_expf : float32 -> float32;
  lm_logf : float32 -> float32;
  lm_log10f : float32 -> float32;
  lm_sinf : float32 -> float32;
  lm_cosf : float32 -> float32;
  lm_pi : float32
}.

Definition b32_ops (lm : Libm) : FloatOps float32 := {|
  f_of_Z := b32_of_Z;
  f_to_int := b32_to_int;
  fadd := SFadd 24 128;
  fsub := SFsub 24 128;
  fmul := SFmul 24 128;
  fdiv := SFdiv 24 128;
  fneg := SFopp;
  fsqrt := SFsqrt 24 128;
  fexp := lm_expf lm;
  fln := lm_logf lm;
  flog10 := lm_log10f lm;
  fsin := lm_sinf lm;
  fcos := lm_cosf lm;
  f_pi := lm_pi lm;
  f_isnan := b32_isnan
|}.

(** ** Exact real arithmetic *)

Definition Rtrunc (x : R) : Z :=
  if Rle_dec 0 x then Int_part x else (- Int_part (- x))%Z.

Definition Rlog10 (x : R) : R := (ln x / ln 10)%R.

#[global] Instance exact_ops : FloatOps R := {|
  f_of_Z := IZR;
  f_to_int := Rtrunc;
  fadd := Rplus;
  fsub := Rminus;
  fmul := Rmult;
  fdiv := Rdiv;
  fneg := Ropp;
  fsqrt := sqrt;
  fexp := exp;
  fln := ln;
  flog10 := Rlog10;
  fsin := sin;
  fcos := cos;
  f_pi := PI;
  f_isnan := fun _ => false
|}.

(** ** Arrays and loops *)

(** [a[i] = v] on an array held as a list; an index past the end (undefined
    behaviour in C++) leaves the list as it is. *)
Fixpoint upd {A} (l : list A) (i : nat) (v : A) : list A :=
  match l, i with
  | [], _ => []
  | _ :: t, O => v :: t
  | h :: t, S i' => h :: upd t i' v
  end.

(** [for (i = 0; i < n; ++i) body], threading the state. *)
Definition for_range {S} (n : nat) (body : nat -> S -> S) (s : S) : S :=
  fold_left (fun st i => body i st) (seq 0 n) s.

(** [for (j = lo; j < hi; ++j) body], threading the state. *)
Definition for_from_to {S} (lo hi : Z) (body : Z -> S -> S) (s : S) : S :=
  fold_left (fun st k => body (lo + Z.of_nat k)%Z st) (seq 0 (Z.to_nat (hi - lo))) s.

Definition size_t_mod : Z := (2 ^ 64)%Z.
Definition uint32_mod : Z := (2 ^ 32)%Z.

(** ** Complex numbers ([std::complex<float>]) *)

Record complex (F : Type) : Type := Cplx { re : F; im : F }.
Arguments Cplx {F} _ _.
Arguments re {F} _.
Arguments im {F} _.

Section ComplexOps.
Context {F : Type} `{FloatOps F}.

Definition f0 : F := f_of_Z 0.
Definition c0 : complex F := Cplx f0 f0.
Definition cadd (a b : complex F) : complex F :=
  Cplx (fadd (re a) (re b)) (fadd (im a) (im b)).
Definition csub (a b : complex F) : complex F :=
  Cplx (fsub (re a) (re b)) (fsub (im a) (im b)).
Definition cmul (a b : complex F) : complex F :=
  Cplx (fsub (fmul (re a) (re b)) (fmul (im a) (im b)))
       (fadd (fmul (re a) (im b)) (fmul (im a) (re b))).
(* float * complex and complex * float *)
Definition cscale (k : F) (a : complex F) : complex F :=
  Cplx (fmul k (re a)) (fmul k (im a)).
Definition conj (a : complex F) : complex F := Cplx (re a) (fneg (im a)).
(* std::abs *)
Definition cabs (a : complex F) : F :=
  fsqrt (fadd (fmul (re a) (re a)) (fmul (im a) (im a))).
(* std::exp *)
Definition cexp (a : complex F) : complex F :=
  Cplx (fmul (fexp (re a)) (fcos (im a))) (fmul (fexp (re a)) (fsin (im a))).
(* the implicit conversion of a real to a complex *)
Definition cof (x : F) : complex F := Cplx x f0.
Definition c1 : complex F := cof (f_of_Z 1).

End ComplexOps.

(** ** Static member functions: the FFT *)

(** Sizes and indices of the transform are naturals: the code assumes
    [size < 2^16], and no index or shift comes near the wrap of [size_t]. *)

(** [reverseBits(val, n)]: [reversed <<= 1; reversed += (val & (1 << i)) != 0]
    for [i] in [0, n). *)
Definition reverseBits (val n : nat) : nat :=
  for_range n
    (fun i reversed =>
       Nat.shiftl reversed 1
       + (if Nat.eqb (Nat.land val (Nat.shiftl 1 i)) 0 then 0 else 1))
    0.

(** The [#else] branch of [bitReverseShuffle]: [numBits] from the masks
    0x00FF, 0x0F0F, 0x3333 and 0x5555.  The [uint8_t] never wraps: at most
    8 + 4 + 2 + 1 = 15 is subtracted from 15. *)
Definition numBits_of (size : nat) : nat :=
  let numBits := 15 in
  let numBits := if Nat.eqb (Nat.land size 0x00FF) 0 then numBits else numBits - 8 in
  let numBits := if Nat.eqb (Nat.land size 0x0F0F) 0 then numBits else numBits - 4 in
  let numBits := if Nat.eqb (Nat.land size 0x3333) 0 then numBits else numBits - 2 in
  let numBits := if Nat.eqb (Nat.land size 0x5555) 0 then numBits else numBits - 1 in
  numBits.

(** [std::swap(first[i], first[j])] *)
Definition swap {A} (d : A) (a : list A) (i j : nat) : list A :=
  upd (upd a i (nth j a d)) j (nth i a d).

Definition bitReverseShuffle {A} (d : A) (first : list A) (size : nat) : list A :=
  let numBits := numBits_of size in
  for_range size
    (fun i a =>
       let j := reverseBits i numBits in
       if i <? j then swap d a i j else a)
    first.

Section FFT.
Context {F : Type} `{FloatOps F}.

(** One pass of the innermost loop body of [fft]. *)
Definition butterfly (m k j : nat) (w : complex F) (first : list (complex F))
  : list (complex F) :=
  let t := cmul w (nth (k + j + m / 2) first c0) in
  let u := nth (k + j) first c0 in
  upd (upd first (k + j) (cadd u t)) (k + j + m / 2) (csub u t).

(** [for (j = 0; 2 * j < m; ++j, w *= wm)], from [w = 1]: the loop runs for
    [j] in [0, ceil(m/2)). *)
Definition fft_block (m k : nat) (wm : complex F) (first : list (complex F))
  : list (complex F) :=
  snd (for_range ((m + 1) / 2)
         (fun j '(w, a) => (cmul w wm, butterfly m k j w a))
         (c1, first)).

(** [wm = exp(complex(0, -2.0 * M_PI / m))] *)
Definition twiddle (m : nat) : complex F :=
  cexp (Cplx f0 (fdiv (fmul (fneg (f_of_Z 2)) f_pi) (f_of_Z (Z.of_nat m)))).

(** [for (k = 0; k < size; k += m)]: [k] runs over the multiples of [m]
    below [size], [ceil(size/m)] of them. *)
Definition fft_stage (size m : nat) (first : list (complex F)) : list (complex F) :=
  for_range ((size + m - 1) / m)
    (fun b a => fft_block m (b * m) (twiddle m) a)
    first.

(** [for (m = 2; m <= size; m <<= 1)]: [m] runs over [2^1 .. 2^(log2 size)]. *)
Definition fft (first : list (complex F)) (size : nat) : list (complex F) :=
  fold_left (fun a s => fft_stage size (2 ^ s) a)
            (seq 1 (Nat.log2 size))
            (bitReverseShuffle c0 first size).

End FFT.

(** ** Data *)

(** [ProccessSettings] and [AudioData] are declared in [Proccess.hpp] and
    [Data.hpp]; the records list the members [Proccess.cpp] uses, with
    [smoothingLevel] and [amplitude] of type [float]. *)

Module ProccessSettings.
Record t (F : Type) : Type := mk {
  channels : Z;          (* unsigned char *)
  inputSize : Z;         (* size_t *)
  outputSize : Z;        (* size_t *)
  amplitude : F;
  smoothingLevel : F
}.
Arguments mk {F}.
Arguments channels {F}.
Arguments inputSize {F}.
Arguments outputSize {F}.
Arguments amplitude {F}.
Arguments smoothingLevel {F}.
End ProccessSettings.

Module AudioData.
Record t (F : Type) : Type := mk {
  buffer : list F;       (* float*: the interleaved samples *)
  lBuffer : list F;
  rBuffer : list F;
  lVolume : F;
  rVolume : F
}.
Arguments mk {F}.
Arguments buffer {F}.
Arguments lBuffer {F}.
Arguments rBuffer {F}.
Arguments lVolume {F}.
Arguments rVolume {F}.
End AudioData.

Record ProccessImpl (F : Type) : Type := mkImpl {
  lBuffer : list F;
  rBuffer : list F;
  inputSize : Z;
  channels : Z;
  amplitude : F;
  wfCoeff : F;
  smoothedSize : Z;
  smoothingFactor : F
}.
Arguments mkImpl {F}.
Arguments lBuffer {F}.
Arguments rBuffer {F}.
Arguments inputSize {F}.
Arguments channels {F}.
Arguments amplitude {F}.
Arguments wfCoeff {F}.
Arguments smoothedSize {F}.
Arguments smoothingFactor {F}.

(** ** [Proccess::ProccessImpl] *)

Section Pipeline.
Context {F : Type} `{FloatOps F}.

(** The constructor's value of [smoothingFactor]:
    [inputSize * inputSize * 0.125f /
     (smoothingLevel * smoothedSize * smoothingLevel * smoothedSize)],
    the product of the two [size_t] taken first. *)
Definition smoothingFactor_of (settings : ProccessSettings.t F) : F :=
  let inputSize := ProccessSettings.inputSize settings in
  let smoothedSize := ProccessSettings.outputSize settings in
  let smoothingLevel := ProccessSettings.smoothingLevel settings in
  fdiv (fmul (f_of_Z ((inputSize * inputSize) mod size_t_mod)) (lit 1 8))
       (fmul (fmul (fmul smoothingLevel (f_of_Z smoothedSize)) smoothingLevel)
             (f_of_Z smoothedSize)).

(** The constructor.  [new float[capacity]] leaves the contents
    indeterminate; the lists are filled with zeros. *)
Definition ProccessImpl_new (settings : ProccessSettings.t F) : ProccessImpl F :=
  let capacity :=
    Z.max (ProccessSettings.inputSize settings / 2) (ProccessSettings.outputSize settings) in
  let inputSize := ProccessSettings.inputSize settings in
  let smoothedSize := ProccessSettings.outputSize settings in
  {| lBuffer := repeat f0 (Z.to_nat capacity);
     rBuffer := repeat f0 (Z.to_nat capacity);
     inputSize := inputSize;
     channels := ProccessSettings.channels settings;
     amplitude := ProccessSettings.amplitude settings;
     wfCoeff := fdiv f_pi (f_of_Z ((inputSize - 1) mod size_t_mod));
     smoothedSize := smoothedSize;
     smoothingFactor := smoothingFactor_of settings |}.

(** [audioData.buffer] seen as [std::complex<float>*] and back. *)
Fixpoint as_complex (b : list F) : list (complex F) :=
  match b with
  | x :: y :: t => Cplx x y :: as_complex t
  | _ => []
  end.

Definition as_floats (c : list (complex F)) (old : list F) : list F :=
  flat_map (fun z => [re z; im z]) c ++ skipn (2 * length c) old.

(** [pow(sinf(wfCoeff * n), 2)] *)
Definition window (p : ProccessImpl F) (n : nat) : F :=
  let s := fsin (fmul (wfCoeff p) (f_of_Z (Z.of_nat n))) in fmul s s.

Definition windowFunction (p : ProccessImpl F) (audioData : AudioData.t F)
  : AudioData.t F :=
  let n := Z.to_nat (inputSize p) in
  let buf := AudioData.buffer audioData in
  let buf' :=
    if (channels p =? 1)%Z then
      for_range n (fun n a => upd a n (fmul (nth n a f0) (window p n))) buf
    else
      as_floats
        (for_range n (fun n a => upd a n (cscale (window p n) (nth n a c0)))
                   (as_complex buf))
        buf in
  AudioData.mk buf' (AudioData.lBuffer audioData) (AudioData.rBuffer audioData)
               (AudioData.lVolume audioData) (AudioData.rVolume audioData).

(** The loop of the mono branch of [magnitudes], over [r] in [1, inputSize/2). *)
Definition magnitudes_mono (p : ProccessImpl F) (input : list (complex F))
  (lr : list F * list F) : list F * list F :=
  let half := Z.to_nat (inputSize p / 2) in
  for_range (half - 1)
    (fun k '(l, r) =>
       let r_ := S k in
       let Fv := cscale (lit 1 2) (cadd (nth r_ input c0) (conj (nth (half - r_) input c0))) in
       let G := cmul (Cplx f0 (lit 1 2))
                     (csub (conj (nth (half - r_) input c0)) (nth r_ input c0)) in
       let w := cexp (Cplx f0
                  (fdiv (fmul (fmul (fneg (f_of_Z 2)) f_pi) (f_of_Z (Z.of_nat r_)))
                        (f_of_Z (inputSize p)))) in
       let X := cadd Fv (cmul w G) in
       let l' := upd l r_ (cabs X) in
       (l', upd r r_ (nth r_ l' f0)))
    lr.

(** The loop of the stereo branch, over [i] in [1, inputSize/2). *)
Definition magnitudes_stereo (p : ProccessImpl F) (input : list (complex F))
  (lr : list F * list F) : list F * list F :=
  let n := Z.to_nat (inputSize p) in
  for_range (Z.to_nat (inputSize p / 2) - 1)
    (fun k '(l, r) =>
       let i := S k in
       let val := cscale (lit 1 2) (cadd (nth i input c0) (conj (nth (n - i) input c0))) in
       let l' := upd l i (cabs val) in
       let val := cmul (Cplx f0 (lit 1 2))
                       (csub (conj (nth (n - i) input c0)) (nth i input c0)) in
       (l', upd r i (cabs val)))
    lr.

Definition magnitudes (p : ProccessImpl F) (audioData : AudioData.t F)
  : AudioData.t F :=
  let input := as_complex (AudioData.buffer audioData) in
  let lr := (AudioData.lBuffer audioData, AudioData.rBuffer audioData) in
  let '(input', (l, r)) :=
    if (channels p =? 1)%Z then
      let input' := fft input (Z.to_nat (inputSize p / 2)) in
      (input', magnitudes_mono p input' lr)
    else
      let input' := fft input (Z.to_nat (inputSize p)) in
      (input', magnitudes_stereo p input' lr) in
  let l := upd l 0 (nth 1 r f0) in
  let r := upd r 0 (nth 1 l f0) in
  AudioData.mk (as_floats input' (AudioData.buffer audioData)) l r
               (AudioData.lVolume audioData) (AudioData.rVolume audioData).

(** [0.08f * amplitude * log10f(2.f * n / inputSize + 1.05f)] *)
Definition equalise_weight (p : ProccessImpl F) (n : nat) : F :=
  fmul (fmul (lit 8 100) (amplitude p))
       (flog10 (fadd (fdiv (fmul (f_of_Z 2) (f_of_Z (Z.of_nat n))) (f_of_Z (inputSize p)))
                     (lit 105 100))).

Definition equalise (p : ProccessImpl F) (audioData : AudioData.t F) : AudioData.t F :=
  let '(l, r) :=
    for_range (Z.to_nat (inputSize p / 2))
      (fun n '(l, r) =>
         let weight := equalise_weight p n in
         (upd l n (fmul (nth n l f0) weight), upd r n (fmul (nth n r f0) weight)))
      (AudioData.lBuffer audioData, AudioData.rBuffer audioData) in
  AudioData.mk (AudioData.buffer audioData) l r
               (AudioData.lVolume audioData) (AudioData.rVolume audioData).

(** [std::accumulate(first, first + n, 0.f)] *)
Definition accumulate (a : list F) (n : nat) : F :=
  fold_left fadd (firstn n a) f0.

Definition calculateVolume (p : ProccessImpl F) (audioData : AudioData.t F)
  : AudioData.t F :=
  let half := Z.to_nat (inputSize p / 2) in
  AudioData.mk (AudioData.buffer audioData)
    (AudioData.lBuffer audioData) (AudioData.rBuffer audioData)
    (fdiv (accumulate (AudioData.lBuffer audioData) half) (f_of_Z (inputSize p)))
    (fdiv (accumulate (AudioData.rBuffer audioData) half) (f_of_Z (inputSize p))).

End Pipeline.

Section Smoothing.
Context {F : Type} `{FloatOps F}.

(** [const float oldSize = inputSize / 2] *)
Definition oldSize (p : ProccessImpl F) : F := f_of_Z (inputSize p / 2).

(** [sqrtf(-logf(0.05f) / smoothingFactor) * oldSize / smoothedSize] *)
Definition radius (p : ProccessImpl F) : F :=
  fdiv (fmul (fsqrt (fdiv (fneg (fln (lit 5 100))) (smoothingFactor p))) (oldSize p))
       (f_of_Z (smoothedSize p)).

(** [i * oldSize / smoothedSize] *)
Definition centre (p : ProccessImpl F) (i : nat) : F :=
  fdiv (fmul (f_of_Z (Z.of_nat i)) (oldSize p)) (f_of_Z (smoothedSize p)).

(** [uint32_t min = std::max((int)0, (int)(i * oldSize / smoothedSize - radius))] *)
Definition kernel_min (p : ProccessImpl F) (i : nat) : Z :=
  (Z.max 0 (f_to_int (fsub (centre p i) (radius p)))) mod uint32_mod.

(** [uint32_t max = std::min((int)oldSize, (int)(i * oldSize / smoothedSize + radius))] *)
Definition kernel_max (p : ProccessImpl F) (i : nat) : Z :=
  (Z.min (f_to_int (oldSize p)) (f_to_int (fadd (centre p i) (radius p)))) mod uint32_mod.

(** [distance = i - j * smoothedSize / oldSize; weight = expf(-distance * distance * smoothingFactor)] *)
Definition kernel_weight (p : ProccessImpl F) (i : nat) (j : Z) : F :=
  let distance :=
    fsub (f_of_Z (Z.of_nat i))
         (fdiv (f_of_Z ((j * smoothedSize p) mod size_t_mod)) (oldSize p)) in
  fexp (fmul (fmul (fneg distance) distance) (smoothingFactor p)).

(** The inner loop for output index [i]: the two weighted sums, kept in
    [lBuffer[i]] and [rBuffer[i]] by the code, and [sum]. *)
Definition kernel_sums (p : ProccessImpl F) (src_l src_r : list F) (i : nat)
  : F * F * F :=
  for_from_to (kernel_min p i) (kernel_max p i)
    (fun j '(l, r, sum) =>
       let weight := kernel_weight p i j in
       (fadd l (fmul (nth (Z.to_nat j) src_l f0) weight),
        fadd r (fmul (nth (Z.to_nat j) src_r f0) weight),
        fadd sum weight))
    (f0, f0, f0).

(** [kernelSmooth]: fills the object's own buffers, then swaps them with the
    caller's. *)
Definition kernelSmooth (p : ProccessImpl F) (audioData : AudioData.t F)
  : ProccessImpl F * AudioData.t F :=
  let src_l := AudioData.lBuffer audioData in
  let src_r := AudioData.rBuffer audioData in
  let '(l, r) :=
    for_range (Z.to_nat (smoothedSize p))
      (fun i '(l, r) =>
         let '(vl, vr, sum) := kernel_sums p src_l src_r i in
         (upd l i (fdiv vl sum), upd r i (fdiv vr sum)))
      (lBuffer p, rBuffer p) in
  (mkImpl src_l src_r (inputSize p) (channels p) (amplitude p) (wfCoeff p)
          (smoothedSize p) (smoothingFactor p),
   AudioData.mk (AudioData.buffer audioData) l r
                (AudioData.lVolume audioData) (AudioData.rVolume audioData)).

Definition smooth (p : ProccessImpl F) (audioData : AudioData.t F)
  : ProccessImpl F * AudioData.t F :=
  kernelSmooth p audioData.

Definition proccessSignal (p : ProccessImpl F) (audioData : AudioData.t F)
  : ProccessImpl F * AudioData.t F :=
  let audioData := windowFunction p audioData in
  let audioData := magnitudes p audioData in
  let audioData := equalise p audioData in
  let audioData := calculateVolume p audioData in
  if negb (f_isnan (smoothingFactor p)) then smooth p audioData
  else (p, audioData).

End Smoothing.

(** ** Concrete inputs *)

Definition settings_b32 (inSz outSz : Z) (chan : Z) (amp lvl : float32)
  : ProccessSettings.t float32 :=
  ProccessSettings.mk chan inSz outSz amp lvl.

Definition b32_one : float32 := b32_of_Z 1.
Definition b32_zero : float32 := S754_zero false.

(** The input sizes 2, 4, ..., 65536 and the output sizes 1, ..., 4096. *)
Definition pow2_input_sizes : list Z := map (fun k => (2 ^ Z.of_nat k)%Z) (seq 1 16).
Definition output_sizes : list Z := map Z.of_nat (seq 1 4096).

Definition is_plus_infinity (x : float32) : bool :=
  match x with S754_infinity false => true | _ => false end.

(** A libm instance for closed examples: [logf(0.05f)] is the correctly
    rounded value -0x1.7f7428p+1 (about -2.9957323), the other entries are
    the identity and are not called where the instance is used. *)
Definition libm_table : Libm := {|
  lm_expf := fun x => x;
  lm_logf := fun _ => S754_finite true 12565012 (-22);
  lm_log10f := fun x => x;
  lm_sinf := fun x => x;
  lm_cosf := fun x => x;
  lm_pi := S754_finite false 13176795 (-22)
|}.

Definition b32_quarter : float32 := SFdiv 24 128 (b32_of_Z 1) (b32_of_Z 4).

(** The correctly rounded [logf(0.05f)] and its two neighbours: what a libm
    accurate to one unit in the last place can return. *)
Definition logf_005_candidates : list float32 :=
  [S754_finite true 12565011 (-22);
   S754_finite true 12565012 (-22);
   S754_finite true 12565013 (-22)].

(** [inputSize = 1024], [outputSize = 64], two channels, [amplitude = 1],
    [smoothingLevel = 0.25]. *)
Definition impl_quarter : ProccessImpl float32 :=
  @ProccessImpl_new _ (b32_ops libm_table) (settings_b32 1024 64 2 b32_one b32_quarter).

(** A frame whose two spectra hold the same value in all 512 bins. *)
Definition flat_frame (c : float32) : AudioData.t float32 :=
  AudioData.mk [] (repeat c 512) (repeat c 512) b32_zero b32_zero.

(** [x] is finite and not negative. *)
Definition b32_finite_nonneg (x : float32) : bool :=
  match x with
  | S754_zero _ | S754_finite false _ _ => true
  | _ => false
  end.

(** ** Reference definitions for the statements *)

(** [x] is the absolute value of some complex number. *)
Definition is_cabs {F} `{FloatOps F} (x : F) : Prop := exists z : complex F, x = cabs z.

(** The sum of a list of reals. *)
Definition Rsum (l : list R) : R := fold_right Rplus 0%R l.

(** The frame with both spectra multiplied by [c]. *)
Definition scale_spectrum (c : R) (ad : AudioData.t R) : AudioData.t R :=
  AudioData.mk (AudioData.buffer ad)
    (map (Rmult c) (AudioData.lBuffer ad)) (map (Rmult c) (AudioData.rBuffer ad))
    (AudioData.lVolume ad) (AudioData.rVolume ad).

(** Every entry of [l] below index [n] is non-negative. *)
Definition nonneg_below (n : nat) (l : list R) : Prop :=
  forall k, k < n -> (0 <= nth k l 0)%R.

(** The sum of [f j] over the integers [j] of [lo, hi). *)
Definition Rsum_from_to (lo hi : Z) (f : Z -> R) : R :=
  Rsum (map (fun k => f (lo + Z.of_nat k)%Z) (seq 0 (Z.to_nat (hi - lo)))).

Section SmootherReference.
Open Scope R_scope.
Variable p : ProccessImpl R.

(** [scale = (inputSize/2) / outputSize] *)
Definition spec_scale : R := IZR (inputSize p / 2) / IZR (smoothedSize p).

(** [radius = sqrt(-ln(0.05) / smoothingFactor) * (inputSize/2) / outputSize] *)
Definition spec_radius : R :=
  sqrt (- ln (5 / 100) / smoothingFactor p) * IZR (inputSize p / 2) / IZR (smoothedSize p).

(** [exp(-distance^2 * smoothingFactor)] with
    [distance = i - j * outputSize / (inputSize/2)] *)
Definition spec_weight (i : nat) (j : Z) : R :=
  let distance := INR i - IZR j * IZR (smoothedSize p) / IZR (inputSize p / 2) in
  exp (- (distance * distance) * smoothingFactor p).

(** The window as the claim words it: the source indices [j] of
    [0, inputSize/2) with [i * scale - radius <= j < i * scale + radius]. *)
Definition in_claimed_window (i : nat) (j : Z) : bool :=
  if Rle_dec (INR i * spec_scale - spec_radius) (IZR j) then
    if Rlt_dec (IZR j) (INR i * spec_scale + spec_radius) then true else false
  else false.

Definition claimed_smooth (src : list R) (i : nat) : R :=
  let half := (inputSize p / 2)%Z in
  Rsum_from_to 0 half
    (fun j => if in_claimed_window i j
              then nth (Z.to_nat j) src 0 * spec_weight i j else 0)
  / Rsum_from_to 0 half
      (fun j => if in_claimed_window i j then spec_weight i j else 0).

(** The window the code uses: both bounds truncated to integers, then
    clipped. *)
Definition truncated_lo (i : nat) : Z :=
  Z.max 0 (Rtrunc (INR i * spec_scale - spec_radius)).

Definition truncated_hi (i : nat) : Z :=
  Z.min (inputSize p / 2) (Rtrunc (INR i * spec_scale + spec_radius)).

Definition truncated_smooth (src : list R) (i : nat) : R :=
  Rsum_from_to (truncated_lo i) (truncated_hi i)
    (fun j => nth (Z.to_nat j) src 0 * spec_weight i j)
  / Rsum_from_to (truncated_lo i) (truncated_hi i) (spec_weight i).

(** The sizes fit the 32-bit counters and casts of [kernelSmooth]. *)
Definition sizes_in_range : Prop :=
  (0 <= inputSize p < 2 ^ 32)%Z /\ (0 < smoothedSize p < 2 ^ 32)%Z.

End SmootherReference.

Definition settings_exact (inSz outSz chan : Z) (amp lvl : R) : ProccessSettings.t R :=
  ProccessSettings.mk chan inSz outSz amp lvl.

(** [inputSize = 1024], [outputSize = 64], two channels, [amplitude = 1],
    [smoothingLevel = 1/4], in exact arithmetic. *)
Definition impl_exact_quarter : ProccessImpl R :=
  ProccessImpl_new (settings_exact 1024 64 2 1 (1 / 4)).

(** A spectrum of [n] bins that is 1 at bin [k] and 0 elsewhere. *)
Definition impulse_at (k n : nat) : list R :=
  map (fun j => if Nat.eqb j k then 1%R else 0%R) (seq 0 n).

Definition frame_exact (l r : list R) : AudioData.t R :=
  AudioData.mk [] l r 0%R 0%R.

(** [inputSize = 8], [outputSize = 4], one channel, in exact arithmetic. *)
Definition impl_exact_mono : ProccessImpl R :=
  ProccessImpl_new (settings_exact 8 4 1 1 1).

(** A frame of eight zero samples with spectrum arrays of four entries. *)
Definition frame_mono : AudioData.t R :=
  AudioData.mk (repeat 0%R 8) (repeat 0%R 4) (repeat 0%R 4) 0%R 0%R.

(** ** Reference definitions for the transform, over the exact complex numbers *)

Definition cneg (a : complex R) : complex R := Cplx (- re a)%R (- im a)%R.

Fixpoint cpow (z : complex R) (n : nat) : complex R :=
  match n with
  | O => c1
  | S n' => cmul z (cpow z n')
  end.

(** [f 0 + f 1 + ... + f (n - 1)] *)
Fixpoint Csum (n : nat) (f : nat -> complex R) : complex R :=
  match n with
  | O => c0
  | S n' => cadd (Csum n' f) (f n')
  end.

(** The discrete Fourier transform of the first [N] entries of [x]:
    [X[j] = sum over t < N of x[t] * exp(-2 pi i j t / N)]. *)
Definition dft (x : list (complex R)) (N : nat) (j : nat) : complex R :=
  Csum N (fun t =>
    cmul (nth t x c0) (cexp (Cplx 0%R (- 2 * PI * INR j * INR t / INR N)%R))).

(** The inverse by the conjugate-and-rescale trick:
    [conj(fft(conj(X))) / N]. *)
Definition ifft_conj (X : list (complex R)) (N : nat) : list (complex R) :=
  map (fun z => cscale (/ INR N)%R (conj z)) (fft (map conj X) N).

(** What slot [b * 2^s + j] holds after [s] stages on [2^k] samples: the
    transform of length [2^s] of the samples whose index has the low
    [k - s] bits of [b] reversed. *)
Definition partial_dft (x : list (complex R)) (k s b j : nat) : complex R :=
  Csum (2 ^ s) (fun t =>
    cmul (nth (reverseBits b (k - s) + t * 2 ^ (k - s)) x c0)
         (cpow (twiddle (2 ^ s)) (j * t))).

(** Four samples: a unit impulse at index 0. *)
Definition impulse4 : list (complex R) := [c1; c0; c0; c0].

(** ** Proof automation *)

(** The length of a buffer allocated by the constructor, at a concrete
    configuration. *)
Ltac constructor_buffer_length :=
  unfold impl_exact_quarter, ProccessImpl_new; cbn [lBuffer rBuffer];
  rewrite repeat_length; simpl; lia.

(** ** [AudioSampler::AudioSamplerImpl] ([Audio.cpp]) *)

(** The members the two critical sections use.  The chunks of
    [ppAudioBuffer] and [pSampleBuffer] are arrays allocated one by one, so
    a swap of two of the pointers is a swap of two lists.  The thread, the
    mutex and the PulseAudio connection are left out: [copyData] and the
    body of the loop of [run] hold the mutex and run one at a time. *)
Module AudioSampler.

Record AudioSamplerImpl (F : Type) : Type := mk {
  stopped : bool;
  modified : bool;
  ppAudioBuffer : list (list F);
  pSampleBuffer : list F;
  channels : Z;       (* settings.channels *)
  sampleSize : Z;     (* settings.sampleSize *)
  bufferSize : Z      (* settings.bufferSize *)
}.
Arguments mk {F}.
Arguments stopped {F}.
Arguments modified {F}.
Arguments ppAudioBuffer {F}.
Arguments pSampleBuffer {F}.
Arguments channels {F}.
Arguments sampleSize {F}.
Arguments bufferSize {F}.

Section Sampler.
Context {F : Type} `{FloatOps F}.

(** [ppAudioBuffer[i/settings.sampleSize][i%settings.sampleSize]]; a
    [sampleSize] of zero is a division by zero in C++. *)
Definition sample (s : AudioSamplerImpl F) (i : nat) : F :=
  nth (Z.to_nat (Z.of_nat i mod sampleSize s))
      (nth (Z.to_nat (Z.of_nat i / sampleSize s)) (ppAudioBuffer s) [])
      f0.

(** [copyData]: the loop over [i] in [0, settings.bufferSize) with its
    [switch], then [modified = false]. *)
Definition copyData (s : AudioSamplerImpl F) (audioData : AudioData.t F)
  : AudioSamplerImpl F * AudioData.t F :=
  let '(stopped', buffer) :=
    for_range (Z.to_nat (bufferSize s))
      (fun i '(st, b) =>
         if (channels s =? 1)%Z then
           let b := upd b (2 * i) (sample s i) in
           (st, upd b (2 * i + 1) (nth (2 * i) b f0))
         else if (channels s =? 2)%Z then
           (st, upd b i (sample s i))
         else (true, b))
      (stopped s, AudioData.buffer audioData) in
  (mk stopped' false (ppAudioBuffer s) (pSampleBuffer s)
      (channels s) (sampleSize s) (bufferSize s),
   AudioData.mk buffer (AudioData.lBuffer audioData) (AudioData.rBuffer audioData)
                (AudioData.lVolume audioData) (AudioData.rVolume audioData)).

(** The critical section of [run]:
    [for (i = 0; i < bufferSize/sampleSize-1; ++i) swap(pp[i], pp[i+1])],
    then [swap(pp[bufferSize/sampleSize-1], pSampleBuffer)].  The bound and
    the last index are unsigned. *)
Definition rotate (s : AudioSamplerImpl F) : AudioSamplerImpl F :=
  let last := Z.to_nat ((bufferSize s / sampleSize s - 1) mod size_t_mod) in
  let pp := for_range last (fun i a => swap [] a i (i + 1)) (ppAudioBuffer s) in
  mk (stopped s) (modified s)
     (upd pp last (pSampleBuffer s)) (nth last pp [])
     (channels s) (sampleSize s) (bufferSize s).

(** One pass of the body of the loop of [run].  [ok] tells whether
    [pa_simple_read] succeeded and [data] is what [pSampleBuffer] holds
    after the call.  The counter of updates per second, which reads the
    clock, is left out. *)
Definition run_step (ok : bool) (data : list F) (s : AudioSamplerImpl F)
  : AudioSamplerImpl F :=
  if ok then
    let s' :=
      rotate (mk (stopped s) (modified s) (ppAudioBuffer s) data
                 (channels s) (sampleSize s) (bufferSize s)) in
    mk (stopped s') true (ppAudioBuffer s') (pSampleBuffer s')
       (channels s') (sampleSize s') (bufferSize s')
  else
    mk true (modified s) (ppAudioBuffer s) data
       (channels s) (sampleSize s) (bufferSize s).

End Sampler.

End AudioSampler.

(** ** Reference definitions for the extra statements *)

(** The chunks are [n] arrays of [size] entries each. *)
Definition chunks_of {A} (n size : nat) (pp : list (list A)) : Prop :=
  length pp = n /\ Forall (fun c => length c = size) pp.

(** Every sample written twice: a mono signal as interleaved stereo. *)
Definition duplicate {A} (l : list A) : list A := flat_map (fun x => [x; x]) l.

(** The two channels of an interleaved stereo buffer and the samples of a
    mono buffer, as complex signals with imaginary part zero. *)
Definition left_channel (b : list R) : list (complex R) :=
  map (fun z => cof (re z)) (as_complex b).
Definition right_channel (b : list R) : list (complex R) :=
  map (fun z => cof (im z)) (as_complex b).
Definition real_signal (b : list R) : list (complex R) := map cof b.

(** [N] samples of the complex exponential of frequency [q]:
    [exp(2 pi i q t / N)]. *)
Definition tone (N q : nat) : list (complex R) :=
  map (fun t => cexp (Cplx 0%R (2 * PI * INR q * INR t / INR N)%R)) (seq 0 N).

(** The entrywise sum of two signals and the multiple of a signal. *)
Definition signal_add (x y : list (complex R)) : list (complex R) :=
  map (fun xy => cadd (fst xy) (snd xy)) (combine x y).
Definition signal_scale (c : complex R) (x : list (complex R)) : list (complex R) :=
  map (cmul c) x.

(** The Hann window of length [N] at sample [n]:
    [(1 - cos(2 pi n / (N - 1))) / 2]. *)
Definition hann (N : Z) (n : nat) : R :=
  ((1 - cos (2 * PI * INR n / IZR (N - 1))) / 2)%R.

(** [sqrt(-2 ln 0.05)], about 2.4477: the radius of the smoothing window in
    units of [smoothingLevel]. *)
Definition radius_per_level : R := sqrt (- 2 * ln (5 / 100))%R.

(** An interleaved stereo buffer of [N] frames: the left channel holds the
    cosine of frequency [q], [cos(2 pi q t / N)], the right channel is
    silent. *)
Definition stereo_cosine (N q : nat) : list R :=
  flat_map (fun t => [cos (2 * PI * INR q * INR t / INR N); 0]%R) (seq 0 N).

(** [inputSize = 4], [outputSize = 2], two channels, in exact arithmetic,
    and a frame of four stereo frames for it. *)
Definition impl_exact_stereo : ProccessImpl R :=
  ProccessImpl_new (settings_exact 4 2 2 1 1).

Definition frame_stereo : AudioData.t R :=
  AudioData.mk [1; 2; 3; 4; 5; 6; 7; 8]%R (repeat 0%R 2) (repeat 0%R 2) 0%R 0%R.

(** [inputSize = 8], [outputSize = 4], two channels, [amplitude = 1],
    [smoothingLevel = 1], in exact arithmetic: a radius above 1. *)
Definition settings_wide : ProccessSettings.t R := settings_exact 8 4 2 1 1.
Definition impl_exact_wide : ProccessImpl R := ProccessImpl_new settings_wide.

(** The energy of the first [N] samples of a signal, [sum of x[t] * conj(x[t])]:
    a complex number whose real part is the sum of the squared absolute
    values and whose imaginary part is zero. *)
Definition energy (x : list (complex R)) (N : nat) : complex R :=
  Csum N (fun t => cmul (nth t x c0) (conj (nth t x c0))).

(** Successful passes of the loop of [run], one for each block of samples
    read, in the order of reading. *)
Definition run_steps {F} `{FloatOps F} (reads : list (list F))
  (s : AudioSampler.AudioSamplerImpl F) : AudioSampler.AudioSamplerImpl F :=
  fold_left (fun s data => AudioSampler.run_step true data s) reads s.

(** The object [p] with another [amplitude]. *)
Definition with_amplitude {F} (a : F) (p : ProccessImpl F) : ProccessImpl F :=
  mkImpl (lBuffer p) (rBuffer p) (inputSize p) (channels p) a (wfCoeff p)
         (smoothedSize p) (smoothingFactor p).

(** The number of complex values [magnitudes] hands to [fft]. *)
Definition fft_size {F} (p : ProccessImpl F) : nat :=
  if (channels p =? 1)%Z then Z.to_nat (inputSize p / 2) else Z.to_nat (inputSize p).
(** * Part II: lemmas and theorems *)

(** * Arrays and loops: basic facts *)

Lemma upd_length {A} (l : list A) i v : length (upd l i v) = length l.
Proof.
  revert i; induction l as [|h t IH]; intros [|i]; simpl; auto.
Qed.

Lemma nth_upd_same {A} (l : list A) i v d :
  i < length l -> nth i (upd l i v) d = v.
Proof.
  revert i; induction l as [|h t IH]; intros [|i] Hi; simpl in *; try lia; auto.
  apply IH; lia.
Qed.

Lemma nth_upd_other {A} (l : list A) i j v d :
  i <> j -> nth j (upd l i v) d = nth j l d.
Proof.
  revert i j; induction l as [|h t IH]; intros [|i] [|j] Hij; simpl; auto; try lia.
Qed.

Lemma nth_map_in_range {A B} (f : A -> B) (l : list A) (j : nat) (d : B) (d' : A) :
  j < length l -> nth j (map f l) d = f (nth j l d').
Proof.
  revert j; induction l as [|h t IH]; intros [|j] Hj; simpl in *; try lia; auto.
  apply IH; lia.
Qed.

Lemma for_range_S {S} n (body : nat -> S -> S) s :
  for_range (Datatypes.S n) body s = body n (for_range n body s).
Proof.
  unfold for_range. rewrite seq_S, fold_left_app. reflexivity.
Qed.

Lemma for_range_0 {S} (body : nat -> S -> S) s : for_range 0 body s = s.
Proof. reflexivity. Qed.

Lemma for_from_to_empty {S} lo hi (body : Z -> S -> S) s :
  (hi <= lo)%Z -> for_from_to lo hi body s = s.
Proof.
  intros Hle. unfold for_from_to.
  replace (Z.to_nat (hi - lo)) with 0 by lia. reflexivity.
Qed.

(** A loop that stores into slot [i] of two arrays a value computed from
    the slot's old content writes exactly the first [n] slots. *)
Lemma for_range_upd2 {A} (g h : nat -> A -> A) d n (l r : list A) :
  let res :=
    for_range n (fun i '(l, r) => (upd l i (g i (nth i l d)), upd r i (h i (nth i r d))))
              (l, r) in
  length (fst res) = length l /\ length (snd res) = length r /\
  (forall i, i < n -> i < length l -> nth i (fst res) d = g i (nth i l d)) /\
  (forall i, i < n -> i < length r -> nth i (snd res) d = h i (nth i r d)) /\
  (forall i, n <= i -> nth i (fst res) d = nth i l d) /\
  (forall i, n <= i -> nth i (snd res) d = nth i r d).
Proof.
  induction n as [|n IH]; simpl.
  - repeat split; intros; try lia; reflexivity.
  - rewrite for_range_S.
    destruct (for_range n _ (l, r)) as [l' r'] eqn:E. simpl in *.
    destruct IH as (Hl & Hr & Hgl & Hgr & Hkl & Hkr).
    rewrite !upd_length. repeat split; auto.
    + intros i Hi Hlen. destruct (Nat.eq_dec i n) as [->|Hne].
      * rewrite nth_upd_same by lia. rewrite Hkl by lia. reflexivity.
      * rewrite nth_upd_other by lia. apply Hgl; lia.
    + intros i Hi Hlen. destruct (Nat.eq_dec i n) as [->|Hne].
      * rewrite nth_upd_same by lia. rewrite Hkr by lia. reflexivity.
      * rewrite nth_upd_other by lia. apply Hgr; lia.
    + intros i Hi. rewrite nth_upd_other by lia. apply Hkl; lia.
    + intros i Hi. rewrite nth_upd_other by lia. apply Hkr; lia.
Qed.

Lemma for_range_ext {S} n (body body' : nat -> S -> S) s :
  (forall i st, i < n -> body i st = body' i st) ->
  for_range n body s = for_range n body' s.
Proof.
  intros Hext. induction n as [|n IH]; [reflexivity|].
  rewrite !for_range_S, IH by (intros; apply Hext; lia).
  apply Hext; lia.
Qed.

(** * The smoother's loop, in any arithmetic *)

Section SmoothingFacts.
Context {F : Type} `{FloatOps F}.

(** Slot [i] of the smoothed arrays holds the quotient of the window's
    weighted sum by its weight sum. *)
Lemma kernelSmooth_nth (p : ProccessImpl F) (ad : AudioData.t F) (i : nat) :
  i < Z.to_nat (smoothedSize p) ->
  i < length (lBuffer p) -> i < length (rBuffer p) ->
  let sums := kernel_sums p (AudioData.lBuffer ad) (AudioData.rBuffer ad) i in
  let out := snd (kernelSmooth p ad) in
  nth i (AudioData.lBuffer out) f0 = fdiv (fst (fst sums)) (snd sums) /\
  nth i (AudioData.rBuffer out) f0 = fdiv (snd (fst sums)) (snd sums).
Proof.
  intros Hi Hl Hr sums out. subst sums out. unfold kernelSmooth.
  set (src_l := AudioData.lBuffer ad). set (src_r := AudioData.rBuffer ad).
  pose (g := fun (i : nat) (_ : F) =>
               fdiv (fst (fst (kernel_sums p src_l src_r i))) (snd (kernel_sums p src_l src_r i))).
  pose (h := fun (i : nat) (_ : F) =>
               fdiv (snd (fst (kernel_sums p src_l src_r i))) (snd (kernel_sums p src_l src_r i))).
  rewrite (for_range_ext _ _
             (fun i '(l, r) => (upd l i (g i (nth i l f0)), upd r i (h i (nth i r f0))))).
  2:{ intros k [l r] _. unfold g, h.
      destruct (kernel_sums p src_l src_r k) as [[vl vr] sum]. reflexivity. }
  pose proof (for_range_upd2 g h f0 (Z.to_nat (smoothedSize p)) (lBuffer p) (rBuffer p))
    as (_ & _ & Hgl & Hgr & _ & _).
  destruct (for_range _ _ (lBuffer p, rBuffer p)) as [l r]. simpl in *.
  split; [apply Hgl | apply Hgr]; assumption.
Qed.

Lemma kernelSmooth_length (p : ProccessImpl F) (ad : AudioData.t F) :
  let out := snd (kernelSmooth p ad) in
  length (AudioData.lBuffer out) = length (lBuffer p) /\
  length (AudioData.rBuffer out) = length (rBuffer p).
Proof.
  unfold kernelSmooth.
  set (src_l := AudioData.lBuffer ad). set (src_r := AudioData.rBuffer ad).
  pose (g := fun (i : nat) (_ : F) =>
               fdiv (fst (fst (kernel_sums p src_l src_r i))) (snd (kernel_sums p src_l src_r i))).
  pose (h := fun (i : nat) (_ : F) =>
               fdiv (snd (fst (kernel_sums p src_l src_r i))) (snd (kernel_sums p src_l src_r i))).
  rewrite (for_range_ext _ _
             (fun i '(l, r) => (upd l i (g i (nth i l f0)), upd r i (h i (nth i r f0))))).
  2:{ intros k [l r] _. unfold g, h.
      destruct (kernel_sums p src_l src_r k) as [[vl vr] sum]. reflexivity. }
  pose proof (for_range_upd2 g h f0 (Z.to_nat (smoothedSize p)) (lBuffer p) (rBuffer p))
    as (Hl & Hr & _).
  destruct (for_range _ _ (lBuffer p, rBuffer p)) as [l r]. simpl in *. auto.
Qed.

(** An empty window leaves the three accumulators at zero. *)
Lemma kernel_sums_empty (p : ProccessImpl F) (src_l src_r : list F) (i : nat) :
  (kernel_max p i <= kernel_min p i)%Z ->
  kernel_sums p src_l src_r i = (f0, f0, f0).
Proof.
  intros Hle. unfold kernel_sums. apply for_from_to_empty. exact Hle.
Qed.

End SmoothingFacts.

(** * The equalizer's loop, in any arithmetic *)

Section EqualiseFacts.
Context {F : Type} `{FloatOps F}.

Lemma equalise_spec (p : ProccessImpl F) (ad : AudioData.t F) :
  let half := Z.to_nat (inputSize p / 2) in
  let out := equalise p ad in
  length (AudioData.lBuffer out) = length (AudioData.lBuffer ad) /\
  length (AudioData.rBuffer out) = length (AudioData.rBuffer ad) /\
  (forall n, n < half -> n < length (AudioData.lBuffer ad) ->
     nth n (AudioData.lBuffer out) f0
     = fmul (nth n (AudioData.lBuffer ad) f0) (equalise_weight p n)) /\
  (forall n, n < half -> n < length (AudioData.rBuffer ad) ->
     nth n (AudioData.rBuffer out) f0
     = fmul (nth n (AudioData.rBuffer ad) f0) (equalise_weight p n)) /\
  (forall n, half <= n ->
     nth n (AudioData.lBuffer out) f0 = nth n (AudioData.lBuffer ad) f0) /\
  (forall n, half <= n ->
     nth n (AudioData.rBuffer out) f0 = nth n (AudioData.rBuffer ad) f0).
Proof.
  intros half out. subst out. unfold equalise. fold half.
  pose proof (for_range_upd2
                (fun n x => fmul x (equalise_weight p n))
                (fun n x => fmul x (equalise_weight p n))
                f0 half (AudioData.lBuffer ad) (AudioData.rBuffer ad)) as Hloop.
  cbv zeta in Hloop.
  destruct (for_range half _ (AudioData.lBuffer ad, AudioData.rBuffer ad)) as [l r].
  exact Hloop.
Qed.

End EqualiseFacts.

(** * The demultiplexer's loops, in any arithmetic *)

Section MagnitudesFacts.
Context {F : Type} `{FloatOps F}.

(** A loop that stores [vl k] into slot [k + 1] of the first array and a
    value computed from the updated first array into slot [k + 1] of the
    second. *)
Lemma for_range_shift2 (vl : nat -> F) (vr : nat -> list F -> F) n (l r : list F) :
  let res :=
    for_range n
      (fun k '(l, r) => let l' := upd l (S k) (vl k) in (l', upd r (S k) (vr k l')))
      (l, r) in
  length (fst res) = length l /\ length (snd res) = length r /\
  (forall k, k < n -> S k < length l -> nth (S k) (fst res) f0 = vl k) /\
  (forall k, k < n -> S k < length r ->
     exists lk, length lk = length l /\
                (S k < length l -> nth (S k) lk f0 = vl k) /\
                nth (S k) (snd res) f0 = vr k lk) /\
  (forall j, j = 0 \/ n < j ->
     nth j (fst res) f0 = nth j l f0 /\ nth j (snd res) f0 = nth j r f0).
Proof.
  induction n as [|n IH]; cbv zeta.
  - rewrite for_range_0. simpl. repeat split; intros; try lia; reflexivity.
  - rewrite for_range_S.
    cbv zeta in IH.
    destruct (for_range n _ (l, r)) as [l' r'] eqn:E. simpl in *.
    destruct IH as (Hl & Hr & Hvl & Hvr & Hkeep).
    rewrite !upd_length. repeat split; auto.
    + intros k Hk Hlen. destruct (Nat.eq_dec k n) as [->|Hne].
      * apply nth_upd_same. lia.
      * rewrite nth_upd_other by lia. apply Hvl; lia.
    + intros k Hk Hlen. destruct (Nat.eq_dec k n) as [->|Hne].
      * exists (upd l' (S n) (vl n)). rewrite upd_length. split; [exact Hl|].
        split; [intros; apply nth_upd_same; lia|].
        apply nth_upd_same. lia.
      * destruct (Hvr k) as (lk & Hlk & Hlkv & Hrv); [lia|lia|].
        exists lk. rewrite nth_upd_other by lia. auto.
    + rewrite nth_upd_other by lia. apply Hkeep. lia.
    + rewrite nth_upd_other by lia. apply Hkeep. lia.
Qed.

Lemma magnitudes_mono_spec (p : ProccessImpl F) (input : list (complex F)) (l r : list F) :
  let half := Z.to_nat (inputSize p / 2) in
  let res := magnitudes_mono p input (l, r) in
  half <= length l -> half <= length r ->
  length (fst res) = length l /\ length (snd res) = length r /\
  (forall k, 1 <= k < half ->
     is_cabs (nth k (fst res) f0) /\ nth k (snd res) f0 = nth k (fst res) f0).
Proof.
  intros half res Hl Hr. subst res. unfold magnitudes_mono. fold half.
  match goal with
  | |- context [for_range _ ?body _] =>
      pose proof (for_range_shift2
        (fun k =>
           let r_ := S k in
           cabs (cadd (cscale (lit 1 2)
                         (cadd (nth r_ input c0) (conj (nth (half - r_) input c0))))
                      (cmul (cexp (Cplx f0
                               (fdiv (fmul (fmul (fneg (f_of_Z 2)) f_pi)
                                           (f_of_Z (Z.of_nat r_)))
                                     (f_of_Z (inputSize p)))))
                            (cmul (Cplx f0 (lit 1 2))
                                  (csub (conj (nth (half - r_) input c0))
                                        (nth r_ input c0))))))
        (fun k l' => nth (S k) l' f0)
        (half - 1) l r) as Hloop
  end.
  cbv zeta in Hloop.
  destruct (for_range (half - 1) _ (l, r)) as [l' r'].
  destruct Hloop as (Hll & Hlr & Hvl & Hvr & _). simpl in *.
  split; [exact Hll|]. split; [exact Hlr|].
  intros k Hk. destruct k as [|k]; [lia|].
  specialize (Hvl k ltac:(lia) ltac:(lia)).
  destruct (Hvr k ltac:(lia) ltac:(lia)) as (lk & _ & Hlk & Hrk).
  split.
  - rewrite Hvl. eexists. reflexivity.
  - rewrite Hrk, Hlk, Hvl by lia. reflexivity.
Qed.

Lemma magnitudes_stereo_spec (p : ProccessImpl F) (input : list (complex F)) (l r : list F) :
  let half := Z.to_nat (inputSize p / 2) in
  let res := magnitudes_stereo p input (l, r) in
  half <= length l -> half <= length r ->
  length (fst res) = length l /\ length (snd res) = length r /\
  (forall k, 1 <= k < half ->
     is_cabs (nth k (fst res) f0) /\ is_cabs (nth k (snd res) f0)).
Proof.
  intros half res Hl Hr. subst res. unfold magnitudes_stereo. fold half.
  set (n := Z.to_nat (inputSize p)).
  pose proof (for_range_shift2
    (fun k =>
       cabs (cscale (lit 1 2) (cadd (nth (S k) input c0) (conj (nth (n - S k) input c0)))))
    (fun k _ =>
       cabs (cmul (Cplx f0 (lit 1 2))
                  (csub (conj (nth (n - S k) input c0)) (nth (S k) input c0))))
    (half - 1) l r) as Hloop.
  cbv zeta in Hloop.
  destruct (for_range (half - 1) _ (l, r)) as [l' r'].
  destruct Hloop as (Hll & Hlr & Hvl & Hvr & _). simpl in *.
  split; [exact Hll|]. split; [exact Hlr|].
  intros k Hk. destruct k as [|k]; [lia|].
  specialize (Hvl k ltac:(lia) ltac:(lia)).
  destruct (Hvr k ltac:(lia) ltac:(lia)) as (lk & _ & _ & Hrk).
  split.
  - rewrite Hvl. eexists. reflexivity.
  - rewrite Hrk. eexists. reflexivity.
Qed.

Lemma magnitudes_spec (p : ProccessImpl F) (ad : AudioData.t F) :
  let half := Z.to_nat (inputSize p / 2) in
  let out := magnitudes p ad in
  half <= length (AudioData.lBuffer ad) -> half <= length (AudioData.rBuffer ad) ->
  exists l r,
    AudioData.lBuffer out = upd l 0 (nth 1 r f0) /\
    AudioData.rBuffer out = upd r 0 (nth 1 (upd l 0 (nth 1 r f0)) f0) /\
    length l = length (AudioData.lBuffer ad) /\
    length r = length (AudioData.rBuffer ad) /\
    (forall k, 1 <= k < half -> is_cabs (nth k l f0) /\ is_cabs (nth k r f0)) /\
    ((channels p =? 1)%Z = true -> forall k, 1 <= k < half -> nth k r f0 = nth k l f0).
Proof.
  intros half out Hl Hr. subst out. unfold magnitudes.
  destruct (channels p =? 1)%Z.
  - pose proof (magnitudes_mono_spec p
                  (fft (as_complex (AudioData.buffer ad)) (Z.to_nat (inputSize p / 2)))
                  (AudioData.lBuffer ad) (AudioData.rBuffer ad) Hl Hr) as Hm.
    cbv zeta in Hm.
    destruct (magnitudes_mono p _ _) as [l r]. simpl in *.
    destruct Hm as (Hll & Hlr & Hk).
    exists l, r. repeat split; auto.
    + apply Hk; assumption.
    + destruct (Hk k) as [Hc He]; [assumption|]. rewrite He. exact Hc.
    + intros _ k Hkr. apply Hk. exact Hkr.
  - pose proof (magnitudes_stereo_spec p
                  (fft (as_complex (AudioData.buffer ad)) (Z.to_nat (inputSize p)))
                  (AudioData.lBuffer ad) (AudioData.rBuffer ad) Hl Hr) as Hm.
    cbv zeta in Hm.
    destruct (magnitudes_stereo p _ _) as [l r]. simpl in *.
    destruct Hm as (Hll & Hlr & Hk).
    exists l, r. repeat split; auto; try (apply Hk; assumption).
    discriminate.
Qed.

(** Bin 0 of each channel is a copy of bin 1 of the other one. *)
Lemma magnitudes_bin0 (p : ProccessImpl F) (ad : AudioData.t F) :
  let half := Z.to_nat (inputSize p / 2) in
  let out := magnitudes p ad in
  half <= length (AudioData.lBuffer ad) -> half <= length (AudioData.rBuffer ad) ->
  2 <= length (AudioData.lBuffer ad) -> 2 <= length (AudioData.rBuffer ad) ->
  nth 0 (AudioData.lBuffer out) f0 = nth 1 (AudioData.rBuffer out) f0 /\
  nth 0 (AudioData.rBuffer out) f0 = nth 1 (AudioData.lBuffer out) f0.
Proof.
  intros half out Hl Hr Hl2 Hr2.
  destruct (magnitudes_spec p ad Hl Hr) as (l & r & El & Er & Hll & Hlr & _).
  fold out in El, Er. rewrite El, Er.
  rewrite !nth_upd_same by lia. rewrite !nth_upd_other by lia. auto.
Qed.

(** In mono the two channels agree on [1, inputSize/2), hence also at 0. *)
Lemma magnitudes_mono_equal (p : ProccessImpl F) (ad : AudioData.t F) :
  let half := Z.to_nat (inputSize p / 2) in
  let out := magnitudes p ad in
  half <= length (AudioData.lBuffer ad) -> half <= length (AudioData.rBuffer ad) ->
  channels p = 1%Z ->
  forall k, 1 <= k < half ->
    nth k (AudioData.lBuffer out) f0 = nth k (AudioData.rBuffer out) f0.
Proof.
  intros half out Hl Hr Hch k Hk.
  destruct (magnitudes_spec p ad Hl Hr) as (l & r & El & Er & Hll & Hlr & _ & Heq).
  fold out in El, Er. rewrite El, Er.
  rewrite !nth_upd_other by lia. symmetry. apply Heq; [|exact Hk].
  rewrite Hch. reflexivity.
Qed.

End MagnitudesFacts.

(** * IEEE-754 binary32: the degenerate smoothing configurations *)

Lemma level_zero_runs_smooth
  (lm : Libm) (chan : Z) (amp : float32) (ad : AudioData.t float32) :
  let ops := b32_ops lm in
  let p := @ProccessImpl_new _ ops (settings_b32 1024 64 chan amp b32_zero) in
  smoothingFactor p = S754_infinity false /\
  b32_isnan (smoothingFactor p) = false /\
  @proccessSignal _ ops p ad =
  @smooth _ ops p
    (@calculateVolume _ ops p
       (@equalise _ ops p (@magnitudes _ ops p (@windowFunction _ ops p ad)))).
Proof.
  intros ops p.
  assert (Hsf : smoothingFactor p = S754_infinity false) by (vm_compute; reflexivity).
  split; [exact Hsf|]. split; [rewrite Hsf; reflexivity|].
  unfold proccessSignal.
  replace (f_isnan (smoothingFactor p)) with false by (rewrite Hsf; reflexivity).
  reflexivity.
Qed.

Lemma empty_window_nan
  (lm : Libm) (p : ProccessImpl float32) (ad : AudioData.t float32) (i : nat) :
  i < Z.to_nat (smoothedSize p) ->
  i < length (lBuffer p) -> i < length (rBuffer p) ->
  (@kernel_max _ (b32_ops lm) p i <= @kernel_min _ (b32_ops lm) p i)%Z ->
  let out := snd (@kernelSmooth _ (b32_ops lm) p ad) in
  nth i (AudioData.lBuffer out) b32_zero = S754_nan /\
  nth i (AudioData.rBuffer out) b32_zero = S754_nan.
Proof.
  intros Hi Hl Hr Hempty out.
  destruct (@kernelSmooth_nth _ (b32_ops lm) p ad i Hi Hl Hr) as [El Er].
  rewrite (@kernel_sums_empty _ (b32_ops lm)) in El, Er by exact Hempty.
  split; [exact El | exact Er].
Qed.

(** The same value, [+infinity], for every input size 2, 4, ..., 65536 and
    every output size from 1 to 4096. *)
Lemma level_zero_factor_grid (lm : Libm) (inSz outSz : Z) :
  In inSz pow2_input_sizes -> In outSz output_sizes ->
  smoothingFactor
    (@ProccessImpl_new _ (b32_ops lm) (settings_b32 inSz outSz 2 b32_one b32_zero))
  = S754_infinity false.
Proof.
  intros Hin Hout.
  assert (Hall :
    forallb (fun a => forallb (fun b =>
       is_plus_infinity
         (@smoothingFactor_of _ (b32_ops lm) (settings_b32 a b 2 b32_one b32_zero)))
       output_sizes) pow2_input_sizes = true) by (vm_compute; reflexivity).
  rewrite forallb_forall in Hall. specialize (Hall inSz Hin).
  rewrite forallb_forall in Hall. specialize (Hall outSz Hout).
  cbn [smoothingFactor ProccessImpl_new].
  destruct (smoothingFactor_of _) as [s|[|]| |s m e]; try discriminate Hall.
  reflexivity.
Qed.

(** With [smoothingLevel = 0] the radius is zero whatever finite value libm
    returns for [logf(0.05f)], and every window is empty. *)
Lemma radius_level_zero (lm : Libm) (chan : Z) (amp : float32) :
  let ops := b32_ops lm in
  let p := @ProccessImpl_new _ ops (settings_b32 1024 64 chan amp b32_zero) in
  b32_finite (lm_logf lm (@lit _ ops 5 100)) = true ->
  exists s, @radius _ ops p = S754_zero s.
Proof.
  intros ops p Hfin.
  unfold radius.
  change (@fln _ ops (lit 5 100)) with (lm_logf lm (@lit _ ops 5 100)).
  assert (Hsf : smoothingFactor p = S754_infinity false) by (vm_compute; reflexivity).
  rewrite Hsf.
  destruct (lm_logf lm (@lit _ ops 5 100)) as [s|s| |s m e]; try discriminate Hfin.
  - exists (xorb (xorb (negb s) false) false). destruct s; vm_compute; reflexivity.
  - exists (xorb (xorb (negb s) false) false). destruct s; vm_compute; reflexivity.
Qed.

Lemma level_zero_windows_empty (lm : Libm) (chan : Z) (amp : float32) (i : nat) :
  let ops := b32_ops lm in
  let p := @ProccessImpl_new _ ops (settings_b32 1024 64 chan amp b32_zero) in
  b32_finite (lm_logf lm (@lit _ ops 5 100)) = true ->
  i < 64 ->
  (@kernel_max _ ops p i <= @kernel_min _ ops p i)%Z.
Proof.
  intros ops p Hfin Hi.
  destruct (radius_level_zero lm chan amp Hfin) as [s Hs]. fold ops p in Hs.
  assert (Hall : forallb (fun i => (@kernel_max _ ops p i <=? @kernel_min _ ops p i)%Z)
                         (seq 0 64) = true).
  { unfold kernel_max, kernel_min. rewrite Hs.
    destruct s; vm_compute; reflexivity. }
  rewrite forallb_forall in Hall.
  apply Z.leb_le, Hall, in_seq. lia.
Qed.

(** Hence the configuration of C1 fills the first 64 slots of both output
    arrays with NaN, whatever the frame. *)
Lemma level_zero_output_nan
  (lm : Libm) (chan : Z) (amp : float32) (ad : AudioData.t float32) (i : nat) :
  let ops := b32_ops lm in
  let p := @ProccessImpl_new _ ops (settings_b32 1024 64 chan amp b32_zero) in
  b32_finite (lm_logf lm (@lit _ ops 5 100)) = true ->
  i < 64 ->
  let out := snd (@proccessSignal _ ops p ad) in
  nth i (AudioData.lBuffer out) b32_zero = S754_nan /\
  nth i (AudioData.rBuffer out) b32_zero = S754_nan.
Proof.
  intros ops p Hfin Hi out.
  pose proof (level_zero_runs_smooth lm chan amp ad) as (_ & _ & E).
  cbv zeta in E. fold ops in E. fold p in E.
  unfold out. rewrite E. unfold smooth.
  apply empty_window_nan.
  - change (Z.to_nat (smoothedSize p)) with 64. exact Hi.
  - change (length (lBuffer p)) with (length (repeat (@f0 _ ops) 512)).
    rewrite repeat_length. lia.
  - change (length (rBuffer p)) with (length (repeat (@f0 _ ops) 512)).
    rewrite repeat_length. lia.
  - apply level_zero_windows_empty; assumption.
Qed.

(** With [smoothingLevel = 0.25] the radius is below 1 and the window of
    output index 0 is empty, for every libm accurate to one unit in the last
    place at [logf(0.05f)] and for every frame. *)
Lemma level_quarter_index0_nan (lm : Libm) (ad : AudioData.t float32) :
  let ops := b32_ops lm in
  let p := @ProccessImpl_new _ ops (settings_b32 1024 64 2 b32_one b32_quarter) in
  In (lm_logf lm (@lit _ ops 5 100)) logf_005_candidates ->
  let out := snd (@kernelSmooth _ ops p ad) in
  nth 0 (AudioData.lBuffer out) b32_zero = S754_nan /\
  nth 0 (AudioData.rBuffer out) b32_zero = S754_nan.
Proof.
  intros ops p Hlog out. apply empty_window_nan.
  - change (Z.to_nat (smoothedSize p)) with 64. lia.
  - change (length (lBuffer p)) with (length (repeat (@f0 _ ops) 512)).
    rewrite repeat_length. lia.
  - change (length (rBuffer p)) with (length (repeat (@f0 _ ops) 512)).
    rewrite repeat_length. lia.
  - apply Z.leb_le. unfold kernel_max, kernel_min, radius.
    subst ops. cbn [fln b32_ops] in Hlog |- *.
    destruct Hlog as [E|[E|[E|[]]]]; rewrite <- E; vm_compute; reflexivity.
Qed.

(** C1, evaluated on the code.  With [inputSize = 1024], [outputSize = 64]
    and [smoothingLevel = 0], for every libm, channel count, amplitude and
    audio frame: the constructor's [smoothingFactor] is
    [131072 / 0 = +infinity], which is not NaN; [proccessSignal] therefore
    does call [smooth] after the four earlier stages; and, when libm's
    [logf(0.05f)] is finite, the first 64 entries of both output arrays are
    NaN. *)
Theorem smoothingLevel_zero_runs_smooth
  (lm : Libm) (chan : Z) (amp : float32) (ad : AudioData.t float32) :
  let ops := b32_ops lm in
  let p := @ProccessImpl_new _ ops (settings_b32 1024 64 chan amp b32_zero) in
  smoothingFactor p = S754_infinity false /\
  b32_isnan (smoothingFactor p) = false /\
  @proccessSignal _ ops p ad =
  @smooth _ ops p
    (@calculateVolume _ ops p
       (@equalise _ ops p (@magnitudes _ ops p (@windowFunction _ ops p ad)))) /\
  (b32_finite (lm_logf lm (@lit _ ops 5 100)) = true ->
   forall i, i < 64 ->
     nth i (AudioData.lBuffer (snd (@proccessSignal _ ops p ad))) b32_zero = S754_nan /\
     nth i (AudioData.rBuffer (snd (@proccessSignal _ ops p ad))) b32_zero = S754_nan).
Proof.
  intros ops p.
  destruct (level_zero_runs_smooth lm chan amp ad) as (Hinf & Hnan & Hrun).
  repeat split; try assumption;
    apply (level_zero_output_nan lm chan amp ad i); assumption.
Qed.

(** C2, evaluated on the code.  [kernelSmooth] divides by the weight sum
    with no guard: at an output index whose window is empty the three
    accumulators are still zero and both output arrays receive [0/0 = NaN]. *)
Theorem kernelSmooth_empty_window_nan
  (lm : Libm) (p : ProccessImpl float32) (ad : AudioData.t float32) (i : nat) :
  i < Z.to_nat (smoothedSize p) ->
  i < length (lBuffer p) -> i < length (rBuffer p) ->
  (@kernel_max _ (b32_ops lm) p i <= @kernel_min _ (b32_ops lm) p i)%Z ->
  let out := snd (@kernelSmooth _ (b32_ops lm) p ad) in
  nth i (AudioData.lBuffer out) b32_zero = S754_nan /\
  nth i (AudioData.rBuffer out) b32_zero = S754_nan.
Proof.
  exact (empty_window_nan lm p ad i).
Qed.


(** * Exact arithmetic: the equalizer and the volume *)

Section ExactEqualise.
Open Scope R_scope.

Lemma exact_f0 : @f0 R exact_ops = 0.
Proof. reflexivity. Qed.

Lemma equalise_weight_exact (p : ProccessImpl R) (n : nat) :
  equalise_weight p n =
  8 / 100 * amplitude p * (ln (2 * INR n / IZR (inputSize p) + 105 / 100) / ln 10).
Proof.
  unfold equalise_weight, lit. cbn [fmul fdiv fadd flog10 f_of_Z exact_ops].
  unfold Rlog10. rewrite <- INR_IZR_INZ. reflexivity.
Qed.

Lemma ln_10_pos : 0 < ln 10.
Proof. rewrite <- ln_1. apply ln_increasing; lra. Qed.

Lemma log_argument_ge (N : Z) (n : nat) :
  (0 < N)%Z -> 105 / 100 <= 2 * INR n / IZR N + 105 / 100.
Proof.
  intros HN. apply IZR_lt in HN. pose proof (pos_INR n) as Hn.
  assert (0 <= 2 * INR n / IZR N); [|lra].
  apply Rmult_le_pos; [lra|]. left. apply Rinv_0_lt_compat. exact HN.
Qed.

Lemma log_argument_increasing (N : Z) (n n' : nat) :
  (0 < N)%Z -> (n < n')%nat ->
  2 * INR n / IZR N + 105 / 100 < 2 * INR n' / IZR N + 105 / 100.
Proof.
  intros HN Hlt. apply IZR_lt in HN. apply lt_INR in Hlt.
  apply Rplus_lt_compat_r. apply Rmult_lt_compat_r.
  - apply Rinv_0_lt_compat. exact HN.
  - lra.
Qed.

Lemma equalise_weight_pos (p : ProccessImpl R) (n : nat) :
  0 < amplitude p -> (0 < inputSize p)%Z -> 0 < equalise_weight p n.
Proof.
  intros Ha HN. rewrite equalise_weight_exact.
  pose proof (log_argument_ge (inputSize p) n HN) as Harg.
  assert (0 < ln (2 * INR n / IZR (inputSize p) + 105 / 100)).
  { rewrite <- ln_1. apply ln_increasing; lra. }
  pose proof ln_10_pos.
  apply Rmult_lt_0_compat; [lra|].
  apply Rdiv_lt_0_compat; assumption.
Qed.

Lemma equalise_weight_nonneg (p : ProccessImpl R) (n : nat) :
  0 <= amplitude p -> (0 < inputSize p)%Z -> 0 <= equalise_weight p n.
Proof.
  intros [Ha|Ha] HN.
  - left. apply equalise_weight_pos; assumption.
  - rewrite equalise_weight_exact, <- Ha. right. ring.
Qed.

Lemma equalise_weight_lt (p : ProccessImpl R) (n n' : nat) :
  0 < amplitude p -> (0 < inputSize p)%Z -> (n < n')%nat ->
  equalise_weight p n < equalise_weight p n'.
Proof.
  intros Ha HN Hlt. rewrite !equalise_weight_exact.
  pose proof (log_argument_ge (inputSize p) n HN) as Harg.
  pose proof (log_argument_increasing (inputSize p) n n' HN Hlt) as Hinc.
  pose proof ln_10_pos as H10.
  apply Rmult_lt_compat_l; [lra|].
  apply Rmult_lt_compat_r; [apply Rinv_0_lt_compat; exact H10|].
  apply ln_increasing; lra.
Qed.

End ExactEqualise.

(** C6. In exact arithmetic, for [amplitude > 0] and [inputSize > 0]:
    the equalizer's weight at bin [n] is
    [0.08 * amplitude * log10(2n/inputSize + 1.05)], the argument of the
    logarithm is at least 1.05, the weight is positive, and it is strictly
    increasing in [n] over [0, inputSize/2). *)
Theorem equalise_weight_strictly_increasing (p : ProccessImpl R) (n n' : nat) :
  (0 < amplitude p)%R -> (0 < inputSize p)%Z ->
  n < n' -> n' < Z.to_nat (inputSize p / 2) ->
  (equalise_weight p n =
   8 / 100 * amplitude p * (ln (2 * INR n / IZR (inputSize p) + 105 / 100) / ln 10))%R /\
  (105 / 100 <= 2 * INR n / IZR (inputSize p) + 105 / 100)%R /\
  (0 < equalise_weight p n)%R /\
  (equalise_weight p n < equalise_weight p n')%R.
Proof.
  intros Ha HN Hlt _.
  split; [apply equalise_weight_exact|].
  split; [apply log_argument_ge; exact HN|].
  split; [apply equalise_weight_pos; assumption|].
  apply equalise_weight_lt; assumption.
Qed.

Section ExactVolume.
Open Scope R_scope.

Lemma fold_left_Rplus (l : list R) (a : R) : fold_left Rplus l a = a + Rsum l.
Proof.
  revert a; induction l as [|x l IH]; intros a; simpl.
  - ring.
  - rewrite IH. ring.
Qed.

Lemma accumulate_exact (a : list R) (n : nat) : accumulate a n = Rsum (firstn n a).
Proof.
  unfold accumulate. rewrite fold_left_Rplus, exact_f0. ring.
Qed.

Lemma Rsum_map_scale (c : R) (l : list R) : Rsum (map (Rmult c) l) = c * Rsum l.
Proof.
  induction l as [|x l IH]; simpl; [ring|]. rewrite IH. ring.
Qed.

Lemma Rsum_firstn_nonneg (n : nat) (l : list R) :
  nonneg_below n l -> 0 <= Rsum (firstn n l).
Proof.
  revert l; induction n as [|n IH]; intros [|x l] Hnn; simpl; try lra.
  assert (0 <= x) by (apply (Hnn 0%nat); lia).
  assert (0 <= Rsum (firstn n l)).
  { apply IH. intros k Hk. apply (Hnn (S k)). lia. }
  lra.
Qed.

Lemma lVolume_exact (p : ProccessImpl R) (ad : AudioData.t R) :
  AudioData.lVolume (calculateVolume p ad)
  = Rsum (firstn (Z.to_nat (inputSize p / 2)) (AudioData.lBuffer ad)) / IZR (inputSize p).
Proof. unfold calculateVolume. simpl. rewrite accumulate_exact. reflexivity. Qed.

Lemma rVolume_exact (p : ProccessImpl R) (ad : AudioData.t R) :
  AudioData.rVolume (calculateVolume p ad)
  = Rsum (firstn (Z.to_nat (inputSize p / 2)) (AudioData.rBuffer ad)) / IZR (inputSize p).
Proof. unfold calculateVolume. simpl. rewrite accumulate_exact. reflexivity. Qed.

Lemma mean_nonneg (n : nat) (l : list R) (N : Z) :
  (0 < N)%Z -> nonneg_below n l -> 0 <= Rsum (firstn n l) / IZR N.
Proof.
  intros HN Hnn. apply IZR_lt in HN.
  apply Rmult_le_pos; [apply Rsum_firstn_nonneg; exact Hnn|].
  left. apply Rinv_0_lt_compat. exact HN.
Qed.

Lemma mean_scale (c : R) (n : nat) (l : list R) (N : Z) :
  Rsum (firstn n (map (Rmult c) l)) / IZR N = c * (Rsum (firstn n l) / IZR N).
Proof.
  rewrite firstn_map, Rsum_map_scale. unfold Rdiv. ring.
Qed.

End ExactVolume.

(** C7. In exact arithmetic, for [inputSize > 0]: each volume is the sum of
    the channel's entries at indices [0, inputSize/2) divided by [inputSize];
    it is non-negative when those entries are; and multiplying both spectra
    by [c] multiplies both volumes by [c]. *)
Theorem calculateVolume_sum_over_inputSize
  (p : ProccessImpl R) (ad : AudioData.t R) (c : R) :
  (0 < inputSize p)%Z ->
  let half := Z.to_nat (inputSize p / 2) in
  let out := calculateVolume p ad in
  let scaled := calculateVolume p (scale_spectrum c ad) in
  (AudioData.lVolume out
   = Rsum (firstn half (AudioData.lBuffer ad)) / IZR (inputSize p))%R /\
  (AudioData.rVolume out
   = Rsum (firstn half (AudioData.rBuffer ad)) / IZR (inputSize p))%R /\
  (nonneg_below half (AudioData.lBuffer ad) -> (0 <= AudioData.lVolume out)%R) /\
  (nonneg_below half (AudioData.rBuffer ad) -> (0 <= AudioData.rVolume out)%R) /\
  (AudioData.lVolume scaled = c * AudioData.lVolume out)%R /\
  (AudioData.rVolume scaled = c * AudioData.rVolume out)%R.
Proof.
  intros HN half out scaled. subst out scaled.
  rewrite !lVolume_exact, !rVolume_exact. fold half.
  split; [reflexivity|]. split; [reflexivity|].
  split; [apply mean_nonneg; exact HN|].
  split; [apply mean_nonneg; exact HN|].
  split; apply mean_scale.
Qed.

(** * The demultiplexer's bin 0 *)


(** * Exact arithmetic: the spectra stay non-negative *)

Section ExactNonneg.
Open Scope R_scope.

Lemma is_cabs_nonneg (x : R) : is_cabs x -> 0 <= x.
Proof. intros [z ->]. unfold cabs. cbn [fsqrt exact_ops]. apply sqrt_pos. Qed.

Lemma magnitudes_nonneg (p : ProccessImpl R) (ad : AudioData.t R) :
  let half := Z.to_nat (inputSize p / 2) in
  let out := magnitudes p ad in
  (2 <= half)%nat ->
  (half <= length (AudioData.lBuffer ad))%nat ->
  (half <= length (AudioData.rBuffer ad))%nat ->
  length (AudioData.lBuffer out) = length (AudioData.lBuffer ad) /\
  length (AudioData.rBuffer out) = length (AudioData.rBuffer ad) /\
  nonneg_below half (AudioData.lBuffer out) /\
  nonneg_below half (AudioData.rBuffer out).
Proof.
  intros half out Hhalf Hl Hr.
  destruct (magnitudes_spec p ad Hl Hr) as (l & r & El & Er & Hll & Hlr & Hk & _).
  fold out in El, Er. fold half in Hk. rewrite El, Er, !upd_length.
  split; [exact Hll|]. split; [exact Hlr|].
  assert (Hl1 : 0 <= nth 1 l 0) by (apply is_cabs_nonneg, (Hk 1%nat); lia).
  assert (Hr1 : 0 <= nth 1 r 0) by (apply is_cabs_nonneg, (Hk 1%nat); lia).
  split; intros k Hlt; destruct k as [|k].
  - rewrite nth_upd_same by lia. exact Hr1.
  - rewrite nth_upd_other by lia. apply is_cabs_nonneg, Hk. lia.
  - rewrite nth_upd_same by lia. rewrite nth_upd_other by lia. exact Hl1.
  - rewrite nth_upd_other by lia. apply is_cabs_nonneg, Hk. lia.
Qed.

Lemma equalise_nonneg (p : ProccessImpl R) (ad : AudioData.t R) :
  let half := Z.to_nat (inputSize p / 2) in
  let out := equalise p ad in
  0 <= amplitude p -> (0 < inputSize p)%Z ->
  (half <= length (AudioData.lBuffer ad))%nat ->
  (half <= length (AudioData.rBuffer ad))%nat ->
  nonneg_below half (AudioData.lBuffer ad) ->
  nonneg_below half (AudioData.rBuffer ad) ->
  nonneg_below half (AudioData.lBuffer out) /\
  nonneg_below half (AudioData.rBuffer out).
Proof.
  intros half out Ha HN Hl Hr Hnl Hnr.
  destruct (equalise_spec p ad) as (_ & _ & Hel & Her & _). fold half out in Hel, Her.
  split; intros k Hk.
  - change 0 with (@f0 R exact_ops) at 2. rewrite Hel by lia.
    apply Rmult_le_pos; [apply Hnl; exact Hk | apply equalise_weight_nonneg; assumption].
  - change 0 with (@f0 R exact_ops) at 2. rewrite Her by lia.
    apply Rmult_le_pos; [apply Hnr; exact Hk | apply equalise_weight_nonneg; assumption].
Qed.

End ExactNonneg.


(** * Exact arithmetic: the kernel smoother *)

Section ExactTrunc.
Open Scope R_scope.

Lemma Rtrunc_unique (x : R) (k : Z) :
  0 <= x -> IZR k <= x < IZR k + 1 -> Rtrunc x = k.
Proof.
  intros Hx [Hlo Hhi]. unfold Rtrunc.
  destruct (Rle_dec 0 x) as [_|Hn]; [|contradiction].
  symmetry. apply Int_part_spec. lra.
Qed.

Lemma Rtrunc_IZR (k : Z) : (0 <= k)%Z -> Rtrunc (IZR k) = k.
Proof.
  intros Hk. apply Rtrunc_unique; [apply IZR_le; exact Hk | lra].
Qed.

Lemma Rtrunc_nonneg (x : R) :
  0 <= x -> (0 <= Rtrunc x)%Z /\ IZR (Rtrunc x) <= x < IZR (Rtrunc x) + 1.
Proof.
  intros Hx. unfold Rtrunc.
  destruct (Rle_dec 0 x) as [_|Hn]; [|contradiction].
  destruct (base_Int_part x) as [Hle Hgt].
  split; [|lra].
  apply le_IZR. destruct (Z_lt_le_dec (Int_part x) 0) as [Hneg|Hpos].
  - apply IZR_lt in Hneg.
    assert (IZR (Int_part x) <= -1).
    { replace (-1) with (IZR (-1)) by reflexivity. apply IZR_le.
      apply lt_IZR in Hneg. lia. }
    lra.
  - apply IZR_le. exact Hpos.
Qed.

Lemma Rtrunc_neg (x : R) : x < 0 -> (Rtrunc x <= 0)%Z.
Proof.
  intros Hx. unfold Rtrunc.
  destruct (Rle_dec 0 x) as [Hp|_]; [lra|].
  destruct (base_Int_part (- x)) as [Hle Hgt].
  assert (H1 : -1 < IZR (Int_part (- x))) by lra.
  replace (-1) with (IZR (-1)) in H1 by reflexivity.
  apply lt_IZR in H1. lia.
Qed.

Lemma Rtrunc_le (x : R) (k : Z) : (0 <= k)%Z -> x <= IZR k -> (Rtrunc x <= k)%Z.
Proof.
  intros Hk Hx. destruct (Rle_or_lt 0 x) as [Hp|Hn].
  - destruct (Rtrunc_nonneg x Hp) as [_ [Hlo _]].
    apply le_IZR. lra.
  - pose proof (Rtrunc_neg x Hn). lia.
Qed.

End ExactTrunc.

Section ExactKernel.
Open Scope R_scope.

Lemma Rsum_from_to_empty (lo hi : Z) (f : Z -> R) :
  (hi <= lo)%Z -> Rsum_from_to lo hi f = 0.
Proof.
  intros Hle. unfold Rsum_from_to.
  replace (Z.to_nat (hi - lo)) with 0%nat by lia. reflexivity.
Qed.

Lemma Rsum_from_to_ext (lo hi : Z) (f g : Z -> R) :
  (forall j, (lo <= j < hi)%Z -> f j = g j) ->
  Rsum_from_to lo hi f = Rsum_from_to lo hi g.
Proof.
  intros Hext. unfold Rsum_from_to. f_equal.
  apply map_ext_in. intros k Hk. apply in_seq in Hk. apply Hext. lia.
Qed.

Lemma Rsum_from_to_scale (lo hi : Z) (c : R) (f : Z -> R) :
  Rsum_from_to lo hi (fun j => c * f j) = c * Rsum_from_to lo hi f.
Proof.
  unfold Rsum_from_to, Rsum.
  induction (seq 0 (Z.to_nat (hi - lo))) as [|k l IH]; simpl.
  - ring.
  - rewrite IH. ring.
Qed.

Lemma Rsum_from_to_pos (lo hi : Z) (f : Z -> R) :
  (lo < hi)%Z -> (forall j, 0 < f j) -> 0 < Rsum_from_to lo hi f.
Proof.
  intros Hlt Hpos. unfold Rsum_from_to, Rsum.
  destruct (Z.to_nat (hi - lo)) as [|n] eqn:E; [lia|].
  assert (Hnn : forall l, 0 <= fold_right Rplus 0 (map (fun k => f (lo + Z.of_nat k)%Z) l)).
  { induction l as [|k l IH]; simpl; [lra|].
    pose proof (Hpos (lo + Z.of_nat k)%Z). lra. }
  cbn [seq map fold_right]. specialize (Hnn (seq 1 n)).
  pose proof (Hpos (lo + Z.of_nat 0)%Z). lra.
Qed.

(** The three accumulators of the inner loop are the three sums. *)
Lemma for_from_to_sums (lo hi : Z) (a b w : Z -> R) (l0 r0 s0 : R) :
  for_from_to lo hi
    (fun j '(l, r, s) => (l + a j, r + b j, s + w j)) (l0, r0, s0)
  = (l0 + Rsum_from_to lo hi a, r0 + Rsum_from_to lo hi b, s0 + Rsum_from_to lo hi w).
Proof.
  unfold for_from_to, Rsum_from_to.
  generalize (seq 0 (Z.to_nat (hi - lo))) as ks.
  intros ks; revert l0 r0 s0; induction ks as [|k ks IH]; intros l0 r0 s0; simpl.
  - f_equal; [f_equal|]; ring.
  - rewrite IH. unfold Rsum. f_equal; [f_equal|]; ring.
Qed.

End ExactKernel.

Section ExactSmooth.
Open Scope R_scope.
Variable p : ProccessImpl R.
Hypothesis Hsizes : sizes_in_range p.

#[local] Abbreviation half := (inputSize p / 2)%Z.

Lemma half_bounds : (0 <= half < 2 ^ 31)%Z.
Proof.
  destruct Hsizes as [[Hlo Hhi] _]. unfold half. split.
  - apply Z.div_pos; lia.
  - apply Z.div_lt_upper_bound; lia.
Qed.

Lemma smoothedSize_pos : 0 < IZR (smoothedSize p).
Proof. destruct Hsizes as [_ [Hlo _]]. apply IZR_lt. exact Hlo. Qed.

Lemma radius_exact : radius p = spec_radius p.
Proof. reflexivity. Qed.

Lemma centre_exact (i : nat) : centre p i = INR i * spec_scale p.
Proof.
  unfold centre, spec_scale, oldSize. cbn [fmul fdiv f_of_Z exact_ops].
  rewrite <- INR_IZR_INZ. unfold Rdiv. ring.
Qed.

Lemma spec_radius_nonneg : 0 <= spec_radius p.
Proof.
  unfold spec_radius. pose proof half_bounds as [Hh _]. apply IZR_le in Hh.
  pose proof smoothedSize_pos as HS. fold half.
  apply Rmult_le_pos; [apply Rmult_le_pos; [apply sqrt_pos | exact Hh]|].
  left. apply Rinv_0_lt_compat. exact HS.
Qed.

Lemma spec_centre_bounds (i : nat) :
  (Z.of_nat i < smoothedSize p)%Z ->
  0 <= INR i * spec_scale p <= IZR half.
Proof.
  intros Hi. unfold spec_scale. fold half.
  pose proof half_bounds as [Hh _]. apply IZR_le in Hh.
  pose proof smoothedSize_pos as HS.
  apply IZR_lt in Hi. rewrite <- INR_IZR_INZ in Hi. pose proof (pos_INR i) as Hi0.
  assert (Hinv : 0 < / IZR (smoothedSize p)) by (apply Rinv_0_lt_compat; exact HS).
  assert (Hq : 0 <= INR i / IZR (smoothedSize p) <= 1).
  { split.
    - apply Rmult_le_pos; lra.
    - apply Rmult_le_reg_r with (IZR (smoothedSize p)); [exact HS|].
      unfold Rdiv. rewrite Rmult_assoc, Rinv_l by lra. lra. }
  replace (INR i * (IZR half / IZR (smoothedSize p)))
    with (IZR half * (INR i / IZR (smoothedSize p))) by (unfold Rdiv; ring).
  split; [apply Rmult_le_pos; lra|].
  rewrite <- (Rmult_1_r (IZR half)) at 2.
  apply Rmult_le_compat_l; lra.
Qed.

Lemma truncated_bounds (i : nat) :
  (Z.of_nat i < smoothedSize p)%Z ->
  (0 <= truncated_lo p i <= half)%Z /\ (0 <= truncated_hi p i <= half)%Z.
Proof.
  intros Hi. pose proof half_bounds as [Hh _].
  pose proof (spec_centre_bounds i Hi) as [Hc0 Hc1].
  pose proof spec_radius_nonneg as Hr.
  unfold truncated_lo, truncated_hi. fold half.
  assert (Hlo : (Rtrunc (INR i * spec_scale p - spec_radius p) <= half)%Z).
  { apply Rtrunc_le; [exact Hh | lra]. }
  assert (Hhi : (0 <= Rtrunc (INR i * spec_scale p + spec_radius p))%Z).
  { apply Rtrunc_nonneg. lra. }
  lia.
Qed.

Lemma kernel_min_exact (i : nat) :
  (Z.of_nat i < smoothedSize p)%Z -> kernel_min p i = truncated_lo p i.
Proof.
  intros Hi. unfold kernel_min. rewrite radius_exact, centre_exact.
  cbn [fsub f_to_int exact_ops].
  pose proof (truncated_bounds i Hi) as [Hb _]. pose proof half_bounds.
  unfold truncated_lo in *. apply Z.mod_small. unfold uint32_mod. lia.
Qed.

Lemma kernel_max_exact (i : nat) :
  (Z.of_nat i < smoothedSize p)%Z -> kernel_max p i = truncated_hi p i.
Proof.
  intros Hi. unfold kernel_max. rewrite radius_exact, centre_exact.
  unfold oldSize. cbn [fadd f_to_int f_of_Z exact_ops].
  pose proof half_bounds as [Hh Hh'].
  fold half. rewrite (Rtrunc_IZR half Hh).
  pose proof (truncated_bounds i Hi) as [_ Hb].
  unfold truncated_hi in *. fold half in Hb. apply Z.mod_small. unfold uint32_mod. lia.
Qed.

Lemma kernel_weight_exact (i : nat) (j : Z) :
  (0 <= j < half)%Z -> kernel_weight p i j = spec_weight p i j.
Proof.
  intros Hj. unfold kernel_weight, spec_weight, oldSize.
  cbn [fsub fdiv fmul fneg fexp f_of_Z exact_ops].
  destruct Hsizes as [_ [HS0 HS1]]. pose proof half_bounds as [_ Hh].
  rewrite Z.mod_small.
  2:{ unfold size_t_mod. split; [apply Z.mul_nonneg_nonneg; lia|].
      apply Z.lt_trans with (2 ^ 31 * 2 ^ 32)%Z; [|reflexivity].
      apply Z.mul_lt_mono_nonneg; lia. }
  rewrite mult_IZR, <- INR_IZR_INZ. f_equal. fold half. ring.
Qed.

Lemma kernel_sums_exact (src_l src_r : list R) (i : nat) :
  (Z.of_nat i < smoothedSize p)%Z ->
  kernel_sums p src_l src_r i
  = (Rsum_from_to (truncated_lo p i) (truncated_hi p i)
       (fun j => nth (Z.to_nat j) src_l 0 * spec_weight p i j),
     Rsum_from_to (truncated_lo p i) (truncated_hi p i)
       (fun j => nth (Z.to_nat j) src_r 0 * spec_weight p i j),
     Rsum_from_to (truncated_lo p i) (truncated_hi p i) (spec_weight p i)).
Proof.
  intros Hi. unfold kernel_sums.
  rewrite (kernel_min_exact i Hi), (kernel_max_exact i Hi).
  pose proof (truncated_bounds i Hi) as [Hlo Hhi].
  transitivity
    (for_from_to (truncated_lo p i) (truncated_hi p i)
       (fun j '(l, r, s) =>
          (l + nth (Z.to_nat j) src_l 0 * spec_weight p i j,
           r + nth (Z.to_nat j) src_r 0 * spec_weight p i j,
           s + spec_weight p i j))
       (0, 0, 0)).
  - unfold for_from_to. change (@f0 R exact_ops) with 0.
    generalize (0, 0, 0) as acc.
    assert (Hin : forall k, In k (seq 0 (Z.to_nat (truncated_hi p i - truncated_lo p i))) ->
                  (0 <= truncated_lo p i + Z.of_nat k < half)%Z).
    { intros k Hk. apply in_seq in Hk. lia. }
    revert Hin.
    generalize (seq 0 (Z.to_nat (truncated_hi p i - truncated_lo p i))) as ks.
    induction ks as [|k ks IH]; intros Hin acc; [reflexivity|].
    cbn [fold_left]. rewrite <- IH by (intros; apply Hin; right; assumption).
    f_equal. destruct acc as [[l r] s]. cbv beta iota zeta.
    rewrite kernel_weight_exact by (apply Hin; left; reflexivity).
    reflexivity.
  - rewrite for_from_to_sums. f_equal; [f_equal|]; ring.
Qed.

(** Each smoothed value is the weighted sum over the truncated window
    divided by the window's weight sum. *)
Lemma kernelSmooth_exact (ad : AudioData.t R) (i : nat) :
  (i < Z.to_nat (smoothedSize p))%nat ->
  (i < length (lBuffer p))%nat -> (i < length (rBuffer p))%nat ->
  let out := snd (kernelSmooth p ad) in
  nth i (AudioData.lBuffer out) 0 = truncated_smooth p (AudioData.lBuffer ad) i /\
  nth i (AudioData.rBuffer out) 0 = truncated_smooth p (AudioData.rBuffer ad) i.
Proof.
  intros Hi Hl Hr out.
  destruct (kernelSmooth_nth p ad i Hi Hl Hr) as [El Er].
  rewrite kernel_sums_exact in El, Er by lia.
  cbn [fst snd fdiv exact_ops] in El, Er.
  change (@f0 R exact_ops) with 0 in El, Er.
  split; [exact El | exact Er].
Qed.

End ExactSmooth.

Section ExactFlat.
Open Scope R_scope.

Lemma spec_weight_pos (p : ProccessImpl R) (i : nat) (j : Z) : 0 < spec_weight p i j.
Proof. unfold spec_weight. apply exp_pos. Qed.

Lemma truncated_smooth_flat (p : ProccessImpl R) (src : list R) (c : R) (i : nat) :
  (forall j, (truncated_lo p i <= j < truncated_hi p i)%Z -> nth (Z.to_nat j) src 0 = c) ->
  Rsum_from_to (truncated_lo p i) (truncated_hi p i) (spec_weight p i) <> 0 ->
  truncated_smooth p src i = c.
Proof.
  intros Hflat Hne. unfold truncated_smooth.
  rewrite (Rsum_from_to_ext _ _ _ (fun j => c * spec_weight p i j)).
  2:{ intros j Hj. rewrite (Hflat j Hj). reflexivity. }
  rewrite Rsum_from_to_scale. field. exact Hne.
Qed.

End ExactFlat.



(** * The configuration with [smoothingLevel = 1/4], in exact arithmetic *)

Section QuarterExact.
Open Scope R_scope.

Lemma quarter_sizes : sizes_in_range impl_exact_quarter.
Proof. unfold sizes_in_range. simpl. lia. Qed.

Lemma quarter_factor : smoothingFactor impl_exact_quarter = 512.
Proof.
  unfold impl_exact_quarter, ProccessImpl_new, smoothingFactor_of, settings_exact, lit.
  cbn [smoothingFactor ProccessSettings.inputSize ProccessSettings.outputSize
       ProccessSettings.smoothingLevel fmul fdiv f_of_Z exact_ops].
  replace ((1024 * 1024) mod size_t_mod)%Z with 1048576%Z by reflexivity.
  lra.
Qed.

Lemma neg_ln_005_bounds : 0 < - ln (5 / 100) < 8.
Proof.
  replace (5 / 100) with (/ 20) by lra.
  rewrite ln_Rinv by lra. rewrite Ropp_involutive.
  split.
  - rewrite <- ln_1. apply ln_increasing; lra.
  - rewrite <- (ln_exp 8). apply ln_increasing; [lra|].
    replace 8 with (4 + 4) by lra. rewrite exp_plus.
    pose proof (exp_ineq1 4 ltac:(lra)) as H4. nra.
Qed.

Lemma quarter_radius : 0 < spec_radius impl_exact_quarter < 1.
Proof.
  unfold spec_radius. rewrite quarter_factor.
  change (inputSize impl_exact_quarter / 2)%Z with 512%Z.
  change (smoothedSize impl_exact_quarter) with 64%Z.
  pose proof neg_ln_005_bounds as [Hlo Hhi].
  set (q := - ln (5 / 100) / 512).
  assert (Hq : 0 < q < 1 / 64) by (unfold q; lra).
  assert (H8 : sqrt (1 / 64) = 1 / 8) by (apply sqrt_lem_1; lra).
  assert (Hs0 : 0 < sqrt q) by (apply sqrt_lt_R0; lra).
  assert (Hs1 : sqrt q < sqrt (1 / 64)) by (apply sqrt_lt_1; lra).
  lra.
Qed.

Lemma quarter_scale : spec_scale impl_exact_quarter = 8.
Proof.
  unfold spec_scale.
  change (inputSize impl_exact_quarter / 2)%Z with 512%Z.
  change (smoothedSize impl_exact_quarter) with 64%Z. lra.
Qed.

(** For output index 1 the centre is 8 and the radius lies in (0, 1): the
    code's window is [{7}], the window of the claim is [{8}]. *)
Lemma quarter_lo_1 : truncated_lo impl_exact_quarter 1 = 7%Z.
Proof.
  unfold truncated_lo. rewrite quarter_scale. pose proof quarter_radius as [H0 H1].
  rewrite (Rtrunc_unique _ 7); simpl; try lra. reflexivity.
Qed.

Lemma quarter_hi_1 : truncated_hi impl_exact_quarter 1 = 8%Z.
Proof.
  unfold truncated_hi. rewrite quarter_scale. pose proof quarter_radius as [H0 H1].
  rewrite (Rtrunc_unique _ 8); simpl; try lra. reflexivity.
Qed.

Lemma quarter_claimed_window_1 (j : Z) :
  in_claimed_window impl_exact_quarter 1 j = (j =? 8)%Z.
Proof.
  unfold in_claimed_window. rewrite quarter_scale. pose proof quarter_radius as [H0 H1].
  simpl INR.
  destruct (Z.eqb_spec j 8) as [->|Hne].
  - destruct (Rle_dec _ _) as [_|Hn]; [|exfalso; apply Hn; lra].
    destruct (Rlt_dec _ _) as [_|Hn]; [reflexivity|exfalso; apply Hn; lra].
  - destruct (Z_lt_le_dec j 8) as [Hlt|Hge].
    + assert (IZR j <= 7) by (apply (IZR_le j 7); lia).
      destruct (Rle_dec _ _) as [Hy|_]; [exfalso; lra|reflexivity].
    + assert (9 <= IZR j) by (apply (IZR_le 9 j); lia).
      destruct (Rle_dec _ _) as [_|_]; [|reflexivity].
      destruct (Rlt_dec _ _) as [Hy|_]; [exfalso; lra|reflexivity].
Qed.

Lemma nth_impulse_at (k n j : nat) :
  (j < n)%nat -> nth j (impulse_at k n) 0 = if Nat.eqb j k then 1 else 0.
Proof.
  intros Hj. unfold impulse_at.
  rewrite (nth_map_in_range _ _ _ _ 0%nat) by (rewrite length_seq; exact Hj).
  rewrite seq_nth by exact Hj. reflexivity.
Qed.

(** A sum whose terms vanish except at one index. *)
Lemma Rsum_from_to_single (lo hi k : Z) (f : Z -> R) :
  (lo <= k < hi)%Z ->
  (forall j, (lo <= j < hi)%Z -> j <> k -> f j = 0) ->
  Rsum_from_to lo hi f = f k.
Proof.
  intros Hk Hz. unfold Rsum_from_to, Rsum.
  assert (Hgen : forall n s,
             (forall m, (s <= m < s + n)%nat -> (lo <= lo + Z.of_nat m < hi)%Z) ->
             fold_right Rplus 0 (map (fun m => f (lo + Z.of_nat m)%Z) (seq s n))
             = if (Z.of_nat s <=? k - lo)%Z && (k - lo <? Z.of_nat (s + n))%Z
               then f k else 0).
  { induction n as [|n IH]; intros s Hin.
    - simpl. destruct (Z.leb_spec (Z.of_nat s) (k - lo));
        destruct (Z.ltb_spec (k - lo) (Z.of_nat (s + 0))); simpl; try reflexivity; lia.
    - cbn [seq map fold_right]. rewrite IH by (intros; apply Hin; lia).
      destruct (Z.eq_dec (lo + Z.of_nat s) k) as [E|E].
      + rewrite E.
        destruct (Z.leb_spec (Z.of_nat (S s)) (k - lo)); [lia|].
        destruct (Z.leb_spec (Z.of_nat s) (k - lo)); [|lia].
        destruct (Z.ltb_spec (k - lo) (Z.of_nat (s + S n))); [|lia].
        simpl. ring.
      + rewrite (Hz (lo + Z.of_nat s)%Z) by (try apply Hin; try exact E; lia).
        destruct (Z.leb_spec (Z.of_nat (S s)) (k - lo));
          destruct (Z.leb_spec (Z.of_nat s) (k - lo));
          destruct (Z.ltb_spec (k - lo) (Z.of_nat (S s + n)));
          destruct (Z.ltb_spec (k - lo) (Z.of_nat (s + S n)));
          simpl; try ring; lia. }
  rewrite Hgen by (intros; lia).
  destruct (Z.leb_spec (Z.of_nat 0) (k - lo)); [|lia].
  destruct (Z.ltb_spec (k - lo) (Z.of_nat (0 + Z.to_nat (hi - lo)))); [|lia].
  reflexivity.
Qed.

Lemma quarter_weight_centre : spec_weight impl_exact_quarter 1 8 = 1.
Proof.
  unfold spec_weight.
  change (inputSize impl_exact_quarter / 2)%Z with 512%Z.
  change (smoothedSize impl_exact_quarter) with 64%Z.
  simpl INR.
  replace (- ((1 - 8 * 64 / 512) * (1 - 8 * 64 / 512)) * smoothingFactor impl_exact_quarter)
    with 0 by (rewrite quarter_factor; lra).
  apply exp_0.
Qed.

End QuarterExact.



(** * The bit-reversal permutation *)

Section BitReverse.

Lemma land_single_bit (v n : nat) :
  Nat.land v (Nat.shiftl 1 n) = if Nat.testbit v n then 2 ^ n else 0.
Proof.
  rewrite Nat.shiftl_1_l. apply Nat.bits_inj. intros m.
  rewrite Nat.land_spec, Nat.pow2_bits_eqb.
  destruct (Nat.testbit v n) eqn:E.
  - rewrite Nat.pow2_bits_eqb.
    destruct (Nat.eqb_spec n m) as [<-|_]; [rewrite E|rewrite andb_false_r]; reflexivity.
  - rewrite Nat.bits_0.
    destruct (Nat.eqb_spec n m) as [<-|_]; [rewrite E|rewrite andb_false_r]; reflexivity.
Qed.

Lemma reverseBits_step (v n : nat) :
  (if Nat.eqb (Nat.land v (Nat.shiftl 1 n)) 0 then 0 else 1) = Nat.b2n (Nat.testbit v n).
Proof.
  rewrite land_single_bit. destruct (Nat.testbit v n); [|reflexivity].
  destruct (Nat.eqb_spec (2 ^ n) 0) as [E|_]; [|reflexivity].
  pose proof (Nat.pow_nonzero 2 n). lia.
Qed.

Lemma reverseBits_0 (v : nat) : reverseBits v 0 = 0.
Proof. reflexivity. Qed.

(** The last pass of the loop: the bits gathered so far move up, bit [n]
    of [v] enters at the bottom. *)
Lemma reverseBits_S (v n : nat) :
  reverseBits v (S n) = 2 * reverseBits v n + Nat.b2n (Nat.testbit v n).
Proof.
  unfold reverseBits. rewrite for_range_S, reverseBits_step, Nat.shiftl_mul_pow2.
  simpl. lia.
Qed.

(** The same loop read from its first pass: bit 0 of [v] ends at the top. *)
Lemma reverseBits_low (v n : nat) :
  reverseBits v (S n) = (v mod 2) * 2 ^ n + reverseBits (v / 2) n.
Proof.
  induction n as [|n IH].
  - rewrite reverseBits_S, !reverseBits_0, Nat.bit0_mod. simpl. lia.
  - rewrite reverseBits_S, IH, (reverseBits_S (v / 2) n), Nat.div2_bits.
    rewrite Nat.pow_succ_r'. lia.
Qed.

Lemma reverseBits_lt (v n : nat) : reverseBits v n < 2 ^ n.
Proof.
  induction n as [|n IH].
  - rewrite reverseBits_0. simpl. lia.
  - rewrite reverseBits_S, Nat.pow_succ_r'.
    destruct (Nat.testbit v n); simpl Nat.b2n; lia.
Qed.

Lemma reverseBits_testbit (v n b : nat) :
  b < n -> Nat.testbit (reverseBits v n) b = Nat.testbit v (n - 1 - b).
Proof.
  revert b; induction n as [|n IH]; intros b Hb; [lia|].
  rewrite reverseBits_S. destruct b as [|b].
  - rewrite Nat.testbit_0_r. f_equal. lia.
  - rewrite Nat.testbit_succ_r, IH by lia. f_equal. lia.
Qed.

(** Bits of [v] at positions [n] and above play no part. *)
Lemma reverseBits_high (a r n : nat) :
  reverseBits (a * 2 ^ n + r) n = reverseBits r n.
Proof.
  revert a r; induction n as [|n IH]; intros a r; [reflexivity|].
  rewrite !reverseBits_low.
  assert (E : a * 2 ^ S n + r = r + (a * 2 ^ n) * 2)
    by (rewrite Nat.pow_succ_r'; lia).
  rewrite E, Nat.Div0.mod_add, Nat.div_add by lia.
  rewrite (Nat.add_comm (r / 2)), IH. reflexivity.
Qed.

Lemma reverseBits_involutive (v n : nat) :
  v < 2 ^ n -> reverseBits (reverseBits v n) n = v.
Proof.
  revert v; induction n as [|n IH]; intros v Hv.
  - simpl in Hv. rewrite !reverseBits_0. lia.
  - rewrite Nat.pow_succ_r' in Hv.
    assert (Hhalf : v / 2 < 2 ^ n) by (apply Nat.Div0.div_lt_upper_bound; lia).
    pose proof (reverseBits_lt (v / 2) n) as Hr.
    rewrite (reverseBits_low v n), reverseBits_S.
    rewrite reverseBits_high, (IH _ Hhalf).
    assert (Hbit : Nat.b2n (Nat.testbit (v mod 2 * 2 ^ n + reverseBits (v / 2) n) n)
                   = v mod 2).
    { rewrite Nat.testbit_eqb, Nat.div_add_l by (apply Nat.pow_nonzero; lia).
      rewrite (Nat.div_small _ _ Hr), Nat.add_0_r, Nat.Div0.mod_mod.
      pose proof (Nat.mod_upper_bound v 2 ltac:(lia)).
      destruct (v mod 2) as [|[|?]]; simpl; lia. }
    rewrite Hbit. pose proof (Nat.div_mod_eq v 2). lia.
Qed.

Lemma reverseBits_even (b n : nat) : reverseBits (2 * b) (S n) = reverseBits b n.
Proof.
  rewrite reverseBits_low.
  replace (2 * b) with (0 + b * 2) by lia.
  rewrite Nat.Div0.mod_add, Nat.div_add by lia. simpl. reflexivity.
Qed.

Lemma reverseBits_odd (b n : nat) :
  reverseBits (2 * b + 1) (S n) = 2 ^ n + reverseBits b n.
Proof.
  rewrite reverseBits_low.
  replace (2 * b + 1) with (1 + b * 2) by lia.
  rewrite Nat.Div0.mod_add, Nat.div_add by lia. simpl. lia.
Qed.

(** The mask cascade finds the exponent of every power of two below 2^16. *)
Lemma numBits_of_pow2 (k : nat) : k < 16 -> numBits_of (2 ^ k) = k.
Proof.
  intros Hk.
  do 16 (destruct k as [|k]; [vm_compute; reflexivity|]).
  lia.
Qed.

End BitReverse.

Section Shuffle.
Context {A : Type} (d : A).

Lemma swap_length (a : list A) (i j : nat) : length (swap d a i j) = length a.
Proof. unfold swap. rewrite !upd_length. reflexivity. Qed.

Lemma nth_swap (a : list A) (i j q : nat) :
  i < length a -> j < length a ->
  nth q (swap d a i j) d
  = if Nat.eqb q j then nth i a d else if Nat.eqb q i then nth j a d else nth q a d.
Proof.
  intros Hi Hj. unfold swap.
  destruct (Nat.eqb_spec q j) as [->|Hqj].
  - apply nth_upd_same. rewrite upd_length. exact Hj.
  - rewrite nth_upd_other by lia.
    destruct (Nat.eqb_spec q i) as [->|Hqi].
    + apply nth_upd_same. exact Hi.
    + apply nth_upd_other. lia.
Qed.

(** After the passes for [i < n], slot [q] holds the element that started
    at the reversed index as soon as [q] or its partner has been visited. *)
Lemma shuffle_passes (k n : nat) (first : list A) :
  n <= 2 ^ k -> 2 ^ k <= length first ->
  let a :=
    for_range n
      (fun i a => let j := reverseBits i k in if i <? j then swap d a i j else a)
      first in
  length a = length first /\
  (forall q, q < 2 ^ k ->
     nth q a d = if (q <? n) || (reverseBits q k <? n)
                 then nth (reverseBits q k) first d else nth q first d) /\
  (forall q, 2 ^ k <= q -> nth q a d = nth q first d).
Proof.
  intros Hn Hlen. induction n as [|n IH]; cbv zeta.
  - rewrite for_range_0. split; [reflexivity|]. split; [|reflexivity].
    intros q Hq. reflexivity.
  - rewrite for_range_S. cbv zeta in IH.
    destruct (IH ltac:(lia)) as (Hl & Hin & Hout). clear IH.
    set (a := for_range n _ first) in *.
    pose proof (reverseBits_lt n k) as Hj.
    pose proof (reverseBits_involutive n k ltac:(lia)) as Hjj.
    set (j := reverseBits n k) in *.
    assert (Hcase :
      forall q, q < 2 ^ k ->
        nth q (if n <? j then swap d a n j else a) d
        = if (q <? S n) || (reverseBits q k <? S n)
          then nth (reverseBits q k) first d else nth q first d).
    { intros q Hq.
      pose proof (reverseBits_involutive q k Hq) as Hqq.
      pose proof (Hin q Hq) as Hq_a.
      pose proof (Hin n ltac:(lia)) as Hn_a. fold j in Hn_a.
      pose proof (Hin j Hj) as Hj_a. rewrite Hjj in Hj_a.
      assert (Hpartner : reverseBits q k = n -> q = j)
        by (intros E; unfold j; rewrite <- E; symmetry; exact Hqq).
      destruct (Nat.ltb_spec n j) as [Hlt|Hge].
      - rewrite nth_swap by lia.
        destruct (Nat.eqb_spec q j) as [->|Hqj].
        + rewrite Hn_a, Hjj.
          destruct (Nat.ltb_spec n n); [lia|].
          destruct (Nat.ltb_spec j n); [lia|].
          destruct (Nat.ltb_spec j (S n)); [lia|].
          destruct (Nat.ltb_spec n (S n)); [|lia]. reflexivity.
        + destruct (Nat.eqb_spec q n) as [->|Hqn].
          * rewrite Hj_a. fold j.
            destruct (Nat.ltb_spec j n); [lia|].
            destruct (Nat.ltb_spec n n); [lia|].
            destruct (Nat.ltb_spec n (S n)); [|lia]. reflexivity.
          * rewrite Hq_a.
            assert (reverseBits q k <> n) by (intros E; apply Hqj, Hpartner, E).
            destruct (Nat.ltb_spec q n); destruct (Nat.ltb_spec q (S n)); try lia;
              destruct (Nat.ltb_spec (reverseBits q k) n);
              destruct (Nat.ltb_spec (reverseBits q k) (S n)); try lia; reflexivity.
      - rewrite Hq_a.
        destruct (Nat.eq_dec q n) as [->|Hqn].
        + fold j.
          destruct (Nat.ltb_spec n n); [lia|].
          destruct (Nat.ltb_spec n (S n)); [|lia].
          destruct (Nat.ltb_spec j n) as [_|Hjn]; [reflexivity|].
          assert (j = n) by lia. simpl. congruence.
        + destruct (Nat.eq_dec (reverseBits q k) n) as [E|E].
          * pose proof (Hpartner E). subst q.
            destruct (Nat.ltb_spec j n); [|lia].
            destruct (Nat.ltb_spec j (S n)); [|lia]. reflexivity.
          * destruct (Nat.ltb_spec q n); destruct (Nat.ltb_spec q (S n)); try lia;
              destruct (Nat.ltb_spec (reverseBits q k) n);
              destruct (Nat.ltb_spec (reverseBits q k) (S n)); try lia; reflexivity. }
    split; [|split].
    + destruct (n <? j); [rewrite swap_length|]; exact Hl.
    + exact Hcase.
    + intros q Hq. destruct (Nat.ltb_spec n j) as [Hlt|Hge]; [|apply Hout; exact Hq].
      rewrite nth_swap by lia.
      destruct (Nat.eqb_spec q j); [lia|].
      destruct (Nat.eqb_spec q n); [lia|]. apply Hout; exact Hq.
Qed.

(** [bitReverseShuffle] on an array of [2^k] elements, [k < 16]. *)
Lemma bitReverseShuffle_nth (k : nat) (first : list A) :
  k < 16 -> 2 ^ k <= length first ->
  let out := bitReverseShuffle d first (2 ^ k) in
  length out = length first /\
  (forall q, q < 2 ^ k -> nth q out d = nth (reverseBits q k) first d) /\
  (forall q, 2 ^ k <= q -> nth q out d = nth q first d).
Proof.
  intros Hk Hlen out. subst out. unfold bitReverseShuffle.
  rewrite (numBits_of_pow2 k Hk).
  destruct (shuffle_passes k (2 ^ k) first (Nat.le_refl _) Hlen) as (Hl & Hin & Hout).
  cbv zeta in Hl, Hin, Hout |- *.
  split; [exact Hl|]. split; [|exact Hout].
  intros q Hq. rewrite (Hin q Hq).
  destruct (Nat.ltb_spec q (2 ^ k)); [reflexivity|lia].
Qed.

Lemma bitReverseShuffle_Permutation (k : nat) (first : list A) :
  k < 16 -> length first = 2 ^ k ->
  Permutation (bitReverseShuffle d first (2 ^ k)) first.
Proof.
  intros Hk Hlen.
  destruct (bitReverseShuffle_nth k first Hk ltac:(lia)) as (Hl & Hin & _).
  set (out := bitReverseShuffle d first (2 ^ k)) in *.
  pose (f := fun q => if q <? 2 ^ k then reverseBits q k else q).
  assert (Hout : out = map (fun q => nth q first d) (map f (seq 0 (2 ^ k)))).
  { apply (nth_ext _ _ d d).
    - rewrite !length_map, length_seq. lia.
    - intros q Hq. rewrite Hl, Hlen in Hq.
      rewrite (nth_map_in_range _ _ _ _ 0) by (rewrite length_map, length_seq; exact Hq).
      rewrite (nth_map_in_range _ _ _ _ 0) by (rewrite length_seq; exact Hq).
      rewrite seq_nth by exact Hq. unfold f. simpl.
      destruct (Nat.ltb_spec q (2 ^ k)); [|lia]. apply Hin. exact Hq. }
  assert (Hfirst : first = map (fun q => nth q first d) (seq 0 (2 ^ k))).
  { apply (nth_ext _ _ d d).
    - rewrite length_map, length_seq. exact Hlen.
    - intros q Hq. rewrite Hlen in Hq.
      rewrite (nth_map_in_range _ _ _ _ 0) by (rewrite length_seq; exact Hq).
      rewrite seq_nth by exact Hq. reflexivity. }
  rewrite Hout.
  apply Permutation_trans with (map (fun q => nth q first d) (seq 0 (2 ^ k))).
  2:{ rewrite <- Hfirst. apply Permutation_refl. }
  apply Permutation_map. apply nat_bijection_Permutation.
  - intros x Hx. unfold f. destruct (Nat.ltb_spec x (2 ^ k)); [|lia].
    apply reverseBits_lt.
  - intros x y. unfold f.
    destruct (Nat.ltb_spec x (2 ^ k)) as [Hx|Hx];
      destruct (Nat.ltb_spec y (2 ^ k)) as [Hy|Hy]; intros E.
    + rewrite <- (reverseBits_involutive x k Hx), <- (reverseBits_involutive y k Hy), E.
      reflexivity.
    + pose proof (reverseBits_lt x k). lia.
    + pose proof (reverseBits_lt y k). lia.
    + exact E.
Qed.

End Shuffle.

(** C10. For every power of two [size = 2^k] with [k < 16] (so
    [1 <= size < 2^16]): the mask cascade of the fallback path gives
    [numBits = k = log2(size)]; [reverseBits(i, numBits)] is the reversal of
    the low [k] bits of [i]; and on an array of [size] elements
    [bitReverseShuffle] puts at every index [i] the element that was at the
    bit-reversed index, which makes the result a permutation of the array. *)
Theorem bitReverseShuffle_bit_reversal
  {A : Type} (d : A) (k : nat) (first : list A) :
  k < 16 -> length first = 2 ^ k ->
  let size := 2 ^ k in
  let out := bitReverseShuffle d first size in
  numBits_of size = k /\ Nat.log2 size = k /\
  (forall i, i < size ->
     reverseBits i (numBits_of size) < size /\
     (forall b, b < k ->
        Nat.testbit (reverseBits i (numBits_of size)) b = Nat.testbit i (k - 1 - b)) /\
     nth i out d = nth (reverseBits i (numBits_of size)) first d) /\
  length out = size /\
  Permutation out first.
Proof.
  intros Hk Hlen size out.
  pose proof (numBits_of_pow2 k Hk) as Hnb. fold size in Hnb.
  destruct (bitReverseShuffle_nth d k first Hk ltac:(lia)) as (Hl & Hin & _).
  fold size out in Hl, Hin.
  split; [exact Hnb|].
  split; [apply Nat.log2_pow2; lia|].
  split; [|split].
  - intros i Hi. rewrite Hnb.
    split; [apply reverseBits_lt|].
    split; [intros b Hb; apply reverseBits_testbit; exact Hb|].
    apply Hin. exact Hi.
  - rewrite Hl. exact Hlen.
  - apply bitReverseShuffle_Permutation; assumption.
Qed.

Lemma bitReverseShuffle_bit_reversal_witness :
  bitReverseShuffle 0 [10; 11; 12; 13; 14; 15; 16; 17] 8 = [10; 14; 12; 16; 11; 15; 13; 17] /\
  Permutation (bitReverseShuffle 0 [10; 11; 12; 13; 14; 15; 16; 17] 8)
              [10; 11; 12; 13; 14; 15; 16; 17].
Proof.
  split; [vm_compute; reflexivity|].
  apply (bitReverseShuffle_bit_reversal 0 3 [10; 11; 12; 13; 14; 15; 16; 17]).
  - lia.
  - reflexivity.
Defined.

(** * Exact arithmetic: the transform *)

Section ComplexField.
Open Scope R_scope.

Lemma complex_ring :
  ring_theory (@c0 R exact_ops) (@c1 R exact_ops) cadd cmul csub cneg eq.
Proof.
  constructor; intros;
    repeat match goal with z : complex R |- _ => destruct z end;
    unfold cadd, cmul, csub, cneg, c0, c1, cof, f0;
    cbn [re im fadd fsub fmul f_of_Z exact_ops]; f_equal; ring.
Qed.

End ComplexField.

Add Ring complex_ring_inst : complex_ring.

Section UnitCircle.
Open Scope R_scope.

(** The point of the unit circle at angle [t]. *)
Lemma cexp_imaginary (t : R) : cexp (Cplx 0 t) = Cplx (cos t) (sin t).
Proof.
  unfold cexp. cbn [re im fmul fexp fcos fsin exact_ops].
  rewrite exp_0. f_equal; ring.
Qed.

Lemma unit_add (s t : R) :
  Cplx (cos (s + t)) (sin (s + t)) = cmul (Cplx (cos s) (sin s)) (Cplx (cos t) (sin t)).
Proof.
  unfold cmul. cbn [re im fadd fsub fmul exact_ops].
  rewrite cos_plus, sin_plus. f_equal; ring.
Qed.

Lemma unit_0 : Cplx (cos 0) (sin 0) = c1.
Proof. rewrite cos_0, sin_0. reflexivity. Qed.

(** De Moivre. *)
Lemma unit_pow (t : R) (n : nat) :
  cpow (Cplx (cos t) (sin t)) n = Cplx (cos (INR n * t)) (sin (INR n * t)).
Proof.
  induction n as [|n IH].
  - simpl cpow. replace (INR 0 * t) with 0 by (simpl; ring). symmetry. apply unit_0.
  - cbn [cpow]. rewrite IH, <- unit_add. rewrite S_INR.
    replace (t + INR n * t) with ((INR n + 1) * t) by ring. reflexivity.
Qed.

Lemma twiddle_exact (m : nat) :
  twiddle m = Cplx (cos (- 2 * PI / INR m)) (sin (- 2 * PI / INR m)).
Proof.
  unfold twiddle. cbn [fdiv fmul fneg f_of_Z f_pi exact_ops].
  change (@f0 R exact_ops) with 0. rewrite cexp_imaginary, <- INR_IZR_INZ.
  replace (- 2 * PI / INR m) with (- (2) * PI / INR m) by (unfold Rdiv; ring).
  reflexivity.
Qed.

Lemma twiddle_pow (m n : nat) :
  cpow (twiddle m) n
  = Cplx (cos (INR n * (- 2 * PI / INR m))) (sin (INR n * (- 2 * PI / INR m))).
Proof. rewrite twiddle_exact. apply unit_pow. Qed.

Lemma twiddle_square (h : nat) :
  (0 < h)%nat -> cmul (twiddle (2 * h)) (twiddle (2 * h)) = twiddle h.
Proof.
  intros Hh. rewrite !twiddle_exact, <- unit_add.
  assert (Hh' : INR h <> 0) by (apply not_0_INR; lia).
  replace (- 2 * PI / INR (2 * h) + - 2 * PI / INR (2 * h)) with (- 2 * PI / INR h).
  - reflexivity.
  - rewrite mult_INR. simpl INR. field. exact Hh'.
Qed.

Lemma twiddle_full (m : nat) : (0 < m)%nat -> cpow (twiddle m) m = c1.
Proof.
  intros Hm. rewrite twiddle_pow.
  assert (Hm' : INR m <> 0) by (apply not_0_INR; lia).
  replace (INR m * (- 2 * PI / INR m)) with (- (2 * PI)) by (field; exact Hm').
  rewrite cos_neg, sin_neg, cos_2PI, sin_2PI.
  unfold c1, cof, f0. cbn [f_of_Z exact_ops]. f_equal. ring.
Qed.

Lemma twiddle_half (h : nat) : (0 < h)%nat -> cpow (twiddle (2 * h)) h = cneg c1.
Proof.
  intros Hh. rewrite twiddle_pow.
  assert (Hh' : INR h <> 0) by (apply not_0_INR; lia).
  replace (INR h * (- 2 * PI / INR (2 * h))) with (- PI)
    by (rewrite mult_INR; simpl INR; field; exact Hh').
  rewrite cos_neg, sin_neg, cos_PI, sin_PI.
  unfold cneg, c1, cof, f0. cbn [re im f_of_Z exact_ops]. f_equal; ring.
Qed.

End UnitCircle.

Section Powers.

Lemma cpow_add (z : complex R) (a b : nat) :
  cpow z (a + b) = cmul (cpow z a) (cpow z b).
Proof.
  induction a as [|a IH]; cbn [cpow Nat.add].
  - ring.
  - rewrite IH. ring.
Qed.

Lemma cpow_mul (z : complex R) (a b : nat) :
  cpow z (a * b) = cpow (cpow z a) b.
Proof.
  induction b as [|b IH].
  - rewrite Nat.mul_0_r. reflexivity.
  - replace (a * S b) with (a + a * b) by lia.
    rewrite cpow_add, IH. reflexivity.
Qed.

Lemma cpow_c1 (n : nat) : cpow c1 n = c1.
Proof.
  induction n as [|n IH]; cbn [cpow]; [reflexivity|]. rewrite IH. ring.
Qed.

Lemma cpow_cmul (y z : complex R) (n : nat) :
  cpow (cmul y z) n = cmul (cpow y n) (cpow z n).
Proof.
  induction n as [|n IH]; cbn [cpow]; [ring|]. rewrite IH. ring.
Qed.

End Powers.

Section Butterflies.

Lemma half_of_double (h : nat) : (2 * h) / 2 = h.
Proof. rewrite Nat.mul_comm. apply Nat.div_mul. lia. Qed.

Lemma trips_of_double (h : nat) : (2 * h + 1) / 2 = h.
Proof.
  symmetry. apply (Nat.div_unique _ _ _ 1); lia.
Qed.

(** The first [n] passes of the innermost loop on the block at [k]. *)
Lemma fft_block_passes (h k n : nat) (wm : complex R) (a : list (complex R)) :
  0 < h -> n <= h -> k + 2 * h <= length a ->
  let st :=
    for_range n (fun j '(w, a) => (cmul w wm, butterfly (2 * h) k j w a)) (c1, a) in
  fst st = cpow wm n /\
  length (snd st) = length a /\
  (forall j, j < n ->
     nth (k + j) (snd st) c0
     = cadd (nth (k + j) a c0) (cmul (cpow wm j) (nth (k + j + h) a c0)) /\
     nth (k + j + h) (snd st) c0
     = csub (nth (k + j) a c0) (cmul (cpow wm j) (nth (k + j + h) a c0))) /\
  (forall q, ~ (k <= q < k + n) -> ~ (k + h <= q < k + h + n) ->
     nth q (snd st) c0 = nth q a c0).
Proof.
  intros Hh Hn Hlen. induction n as [|n IH]; cbv zeta.
  - rewrite for_range_0. simpl. repeat split; intros; try lia; reflexivity.
  - rewrite for_range_S. cbv zeta in IH.
    destruct (IH ltac:(lia)) as (Hw & Hl & Hin & Hout). clear IH.
    destruct (for_range n _ (c1, a)) as [w an]. simpl in Hw, Hl, Hin, Hout.
    cbn [fst snd]. unfold butterfly. rewrite half_of_double.
    rewrite (Hout (k + n)) by lia. rewrite (Hout (k + n + h)) by lia.
    rewrite !upd_length.
    split; [subst w; cbn [cpow]; ring|].
    split; [exact Hl|].
    split.
    + intros j Hj. destruct (Nat.eq_dec j n) as [->|Hne].
      * rewrite nth_upd_other by lia. rewrite nth_upd_same by lia.
        rewrite nth_upd_same by (rewrite upd_length; lia).
        subst w. split; reflexivity.
      * rewrite !nth_upd_other by lia. apply Hin. lia.
    + intros q Hq1 Hq2. rewrite !nth_upd_other by lia. apply Hout; lia.
Qed.

(** One block of a stage: the butterflies of [fft_block], pair by pair. *)
Lemma fft_block_spec (h k : nat) (wm : complex R) (a : list (complex R)) :
  0 < h -> k + 2 * h <= length a ->
  let a' := fft_block (2 * h) k wm a in
  length a' = length a /\
  (forall j, j < h ->
     nth (k + j) a' c0
     = cadd (nth (k + j) a c0) (cmul (cpow wm j) (nth (k + j + h) a c0)) /\
     nth (k + j + h) a' c0
     = csub (nth (k + j) a c0) (cmul (cpow wm j) (nth (k + j + h) a c0))) /\
  (forall q, q < k \/ k + 2 * h <= q -> nth q a' c0 = nth q a c0).
Proof.
  intros Hh Hlen a'. subst a'. unfold fft_block. rewrite trips_of_double.
  destruct (fft_block_passes h k h wm a Hh (Nat.le_refl _) Hlen) as (_ & Hl & Hin & Hout).
  split; [exact Hl|]. split; [exact Hin|].
  intros q Hq. apply Hout; lia.
Qed.

(** A whole stage on [nb] blocks of [2h] entries each. *)
Lemma fft_stage_passes (h nb n : nat) (wm : complex R) (a : list (complex R)) :
  0 < h -> n <= nb -> length a = nb * (2 * h) ->
  let a' := for_range n (fun b a => fft_block (2 * h) (b * (2 * h)) wm a) a in
  length a' = length a /\
  (forall b j, b < n -> j < h ->
     nth (b * (2 * h) + j) a' c0
     = cadd (nth (b * (2 * h) + j) a c0)
            (cmul (cpow wm j) (nth (b * (2 * h) + j + h) a c0)) /\
     nth (b * (2 * h) + j + h) a' c0
     = csub (nth (b * (2 * h) + j) a c0)
            (cmul (cpow wm j) (nth (b * (2 * h) + j + h) a c0))) /\
  (forall q, n * (2 * h) <= q -> nth q a' c0 = nth q a c0).
Proof.
  intros Hh Hn Hlen. induction n as [|n IH]; cbv zeta.
  - rewrite for_range_0. repeat split; intros; try lia; reflexivity.
  - rewrite for_range_S. cbv zeta in IH.
    destruct (IH ltac:(lia)) as (Hl & Hin & Hout). clear IH.
    set (an := for_range n _ a) in *.
    assert (Hfit : n * (2 * h) + 2 * h <= length an) by (rewrite Hl, Hlen; nia).
    destruct (fft_block_spec h (n * (2 * h)) wm an Hh Hfit) as (Hl' & Hin' & Hout').
    split; [rewrite Hl'; exact Hl|]. split.
    + intros b j Hb Hj. destruct (Nat.eq_dec b n) as [->|Hne].
      * destruct (Hin' j Hj) as [E1 E2]. rewrite E1, E2.
        rewrite !Hout by lia. split; reflexivity.
      * assert (Hbn : b < n) by lia.
        rewrite !Hout' by (left; nia). apply Hin; assumption.
    + intros q Hq. rewrite Hout' by (right; lia). apply Hout. lia.
Qed.

Lemma fft_stage_spec (h nb : nat) (a : list (complex R)) :
  0 < h -> length a = nb * (2 * h) ->
  let a' := fft_stage (nb * (2 * h)) (2 * h) a in
  length a' = length a /\
  (forall b j, b < nb -> j < h ->
     nth (b * (2 * h) + j) a' c0
     = cadd (nth (b * (2 * h) + j) a c0)
            (cmul (cpow (twiddle (2 * h)) j) (nth (b * (2 * h) + j + h) a c0)) /\
     nth (b * (2 * h) + j + h) a' c0
     = csub (nth (b * (2 * h) + j) a c0)
            (cmul (cpow (twiddle (2 * h)) j) (nth (b * (2 * h) + j + h) a c0))).
Proof.
  intros Hh Hlen a'. subst a'. unfold fft_stage.
  assert (Htrips : (nb * (2 * h) + 2 * h - 1) / (2 * h) = nb).
  { symmetry. apply (Nat.div_unique _ _ _ (2 * h - 1)); lia. }
  rewrite Htrips.
  destruct (fft_stage_passes h nb nb (twiddle (2 * h)) a Hh (Nat.le_refl _) Hlen)
    as (Hl & Hin & _).
  split; [exact Hl | exact Hin].
Qed.

End Butterflies.

Section Sums.

Lemma Csum_ext (n : nat) (f g : nat -> complex R) :
  (forall t, t < n -> f t = g t) -> Csum n f = Csum n g.
Proof.
  intros Hext. induction n as [|n IH]; [reflexivity|].
  cbn [Csum]. rewrite IH, Hext by (intros; try apply Hext; lia). reflexivity.
Qed.

Lemma Csum_add (n : nat) (f g : nat -> complex R) :
  Csum n (fun t => cadd (f t) (g t)) = cadd (Csum n f) (Csum n g).
Proof.
  induction n as [|n IH]; cbn [Csum]; [ring|]. rewrite IH. ring.
Qed.

Lemma Csum_scale (n : nat) (c : complex R) (f : nat -> complex R) :
  Csum n (fun t => cmul c (f t)) = cmul c (Csum n f).
Proof.
  induction n as [|n IH]; cbn [Csum]; [ring|]. rewrite IH. ring.
Qed.

Lemma Csum_zero (n : nat) : Csum n (fun _ => c0) = c0.
Proof.
  induction n as [|n IH]; cbn [Csum]; [reflexivity|]. rewrite IH. ring.
Qed.

Lemma Csum_app (a b : nat) (f : nat -> complex R) :
  Csum (a + b) f = cadd (Csum a f) (Csum b (fun t => f (a + t))).
Proof.
  induction b as [|b IH].
  - rewrite Nat.add_0_r. cbn [Csum]. ring.
  - rewrite Nat.add_succ_r. cbn [Csum]. rewrite IH. ring.
Qed.

Lemma Csum_even_odd (h : nat) (f : nat -> complex R) :
  Csum (2 * h) f
  = cadd (Csum h (fun u => f (2 * u))) (Csum h (fun u => f (2 * u + 1))).
Proof.
  induction h as [|h IH]; [simpl; ring|].
  replace (2 * S h) with (S (S (2 * h))) by lia.
  cbn [Csum]. rewrite IH.
  replace (S (2 * h)) with (2 * h + 1) by lia. ring.
Qed.

Lemma Csum_single (n j : nat) (f : nat -> complex R) :
  j < n -> (forall t, t < n -> t <> j -> f t = c0) -> Csum n f = f j.
Proof.
  intros Hj Hz. induction n as [|n IH]; [lia|].
  cbn [Csum]. destruct (Nat.eq_dec j n) as [->|Hne].
  - rewrite (Csum_ext n f (fun _ => c0)) by (intros; apply Hz; lia).
    rewrite Csum_zero. ring.
  - rewrite IH by (try lia; intros; apply Hz; lia).
    rewrite (Hz n) by lia. ring.
Qed.

Lemma Csum_exchange (n m : nat) (f : nat -> nat -> complex R) :
  Csum n (fun t => Csum m (fun s => f t s))
  = Csum m (fun s => Csum n (fun t => f t s)).
Proof.
  induction n as [|n IH]; cbn [Csum].
  - symmetry. apply Csum_zero.
  - rewrite IH, <- Csum_add. reflexivity.
Qed.

End Sums.

Section CooleyTukey.
Variable x : list (complex R).
Variable k : nat.

Lemma pow2_split (s : nat) : s < k -> 2 ^ (k - s) = 2 * 2 ^ (k - S s).
Proof.
  intros Hs. replace (k - s) with (S (k - S s)) by lia. apply Nat.pow_succ_r'.
Qed.

Lemma twiddle_even_power (h n : nat) :
  0 < h -> cpow (twiddle (2 * h)) (2 * n) = cpow (twiddle h) n.
Proof.
  intros Hh. rewrite cpow_mul. rewrite <- (twiddle_square h Hh).
  f_equal. cbn [cpow]. ring.
Qed.

(** One decimation-in-time step: the transform of length [2^(s+1)] from
    the two transforms of length [2^s] of the even and the odd samples. *)
Lemma partial_dft_split (s b j : nat) :
  s < k ->
  partial_dft x k (S s) b j
  = cadd (partial_dft x k s (2 * b) j)
         (cmul (cpow (twiddle (2 ^ S s)) j) (partial_dft x k s (2 * b + 1) j)).
Proof.
  intros Hs. unfold partial_dft.
  assert (Hh : 0 < 2 ^ s) by (apply Nat.neq_0_lt_0, Nat.pow_nonzero; lia).
  rewrite (Nat.pow_succ_r' 2 s), Csum_even_odd.
  replace (k - s) with (S (k - S s)) by lia.
  rewrite reverseBits_even, reverseBits_odd, Nat.pow_succ_r'.
  rewrite <- Csum_scale. f_equal; apply Csum_ext; intros u _.
  - replace (j * (2 * u)) with (2 * (j * u)) by lia.
    rewrite twiddle_even_power by exact Hh.
    f_equal. f_equal. lia.
  - replace (j * (2 * u + 1)) with (2 * (j * u) + j) by lia.
    rewrite cpow_add, twiddle_even_power by exact Hh.
    replace (reverseBits b (k - S s) + (2 * u + 1) * 2 ^ (k - S s))
      with (2 ^ (k - S s) + reverseBits b (k - S s) + u * (2 * 2 ^ (k - S s))) by lia.
    ring.
Qed.

Lemma partial_dft_period (s b j : nat) :
  partial_dft x k s b (j + 2 ^ s) = partial_dft x k s b j.
Proof.
  unfold partial_dft. apply Csum_ext. intros t _. f_equal.
  assert (Hh : 0 < 2 ^ s) by (apply Nat.neq_0_lt_0, Nat.pow_nonzero; lia).
  replace ((j + 2 ^ s) * t) with (j * t + 2 ^ s * t) by lia.
  rewrite cpow_add, (cpow_mul _ (2 ^ s) t), twiddle_full, cpow_c1 by exact Hh. ring.
Qed.

Lemma twiddle_shift_half (s j : nat) :
  cpow (twiddle (2 ^ S s)) (j + 2 ^ s) = cneg (cpow (twiddle (2 ^ S s)) j).
Proof.
  assert (Hh : 0 < 2 ^ s) by (apply Nat.neq_0_lt_0, Nat.pow_nonzero; lia).
  rewrite cpow_add, Nat.pow_succ_r', twiddle_half by exact Hh. ring.
Qed.

End CooleyTukey.

Section Stages.
Variable x : list (complex R).
Variable k : nat.
Hypothesis Hk : k < 16.
Hypothesis Hlen : length x = 2 ^ k.

(** After the shuffle and [s] stages, the array holds [2^(k-s)] transforms
    of length [2^s]. *)
Lemma fft_stages_partial (s : nat) :
  s <= k ->
  let a :=
    fold_left (fun a s => fft_stage (2 ^ k) (2 ^ s) a) (seq 1 s)
              (bitReverseShuffle c0 x (2 ^ k)) in
  length a = 2 ^ k /\
  (forall b j, b < 2 ^ (k - s) -> j < 2 ^ s ->
     nth (b * 2 ^ s + j) a c0 = partial_dft x k s b j).
Proof.
  induction s as [|s IH]; intros Hs; cbv zeta.
  - cbn [seq fold_left].
    destruct (bitReverseShuffle_nth c0 k x Hk ltac:(lia)) as (Hl & Hin & _).
    split; [rewrite Hl; exact Hlen|].
    intros b j Hb Hj. rewrite Nat.sub_0_r in Hb. simpl in Hj.
    assert (j = 0) by lia. subst j.
    replace (b * 2 ^ 0 + 0) with b by (simpl; lia).
    rewrite Hin by lia. unfold partial_dft.
    rewrite Nat.sub_0_r. cbn [Nat.pow Csum Nat.mul cpow Nat.add].
    rewrite Nat.add_0_r. ring.
  - rewrite seq_S, fold_left_app. cbn [fold_left]. cbv zeta in IH.
    destruct (IH ltac:(lia)) as (Hl & Hin). clear IH.
    set (a := fold_left _ (seq 1 s) _) in *.
    set (h := 2 ^ s) in *. set (nb := 2 ^ (k - S s)).
    assert (Hh : 0 < h) by (apply Nat.neq_0_lt_0, Nat.pow_nonzero; lia).
    assert (Hm : 2 ^ (1 + s) = 2 * h) by (apply Nat.pow_succ_r').
    assert (Hnb : 2 ^ (k - s) = 2 * nb) by (apply pow2_split; lia).
    assert (HN : 2 ^ k = nb * (2 * h)).
    { unfold nb, h. rewrite <- Nat.pow_succ_r', <- Nat.pow_add_r. f_equal. lia. }
    rewrite Hm, HN.
    destruct (fft_stage_spec h nb a Hh ltac:(lia)) as (Hl' & Hstage).
    split; [rewrite Hl', Hl; exact HN|].
    intros b j Hb Hj. change (2 ^ S s) with (2 ^ (1 + s)) in *. rewrite Hm in *.
    fold nb in Hb.
    destruct (Nat.lt_ge_cases j h) as [Hlo|Hhi].
    + destruct (Hstage b j Hb Hlo) as [E _]. rewrite E.
      replace (b * (2 * h) + j) with (2 * b * h + j) by lia.
      replace (2 * b * h + j + h) with ((2 * b + 1) * h + j) by lia.
      rewrite !Hin by lia.
      rewrite (partial_dft_split x k s b j) by lia.
      change (2 ^ S s) with (2 ^ (1 + s)). rewrite Hm. reflexivity.
    + destruct (Hstage b (j - h) Hb ltac:(lia)) as [_ E].
      replace (b * (2 * h) + j) with (b * (2 * h) + (j - h) + h) by lia.
      rewrite E.
      replace (b * (2 * h) + (j - h) + h) with ((2 * b + 1) * h + (j - h)) by lia.
      replace (b * (2 * h) + (j - h)) with (2 * b * h + (j - h)) by lia.
      rewrite !Hin by lia.
      transitivity (partial_dft x k (S s) b ((j - h) + 2 ^ s));
        [|f_equal; fold h; lia].
      rewrite (partial_dft_split x k s b _) by lia.
      rewrite !partial_dft_period, twiddle_shift_half.
      change (2 ^ S s) with (2 ^ (1 + s)). rewrite Hm. ring.
Qed.

(** The array after all [k] stages is the transform. *)
Lemma fft_nth (j : nat) :
  j < 2 ^ k -> nth j (fft x (2 ^ k)) c0 = dft x (2 ^ k) j.
Proof.
  intros Hj. unfold fft. rewrite Nat.log2_pow2 by lia.
  destruct (fft_stages_partial k (Nat.le_refl _)) as (_ & Hin).
  specialize (Hin 0 j). rewrite Nat.sub_diag in Hin.
  specialize (Hin ltac:(simpl; lia) Hj).
  change (0 * 2 ^ k + j) with j in Hin. rewrite Hin. clear Hin.
  unfold partial_dft, dft. rewrite Nat.sub_diag.
  apply Csum_ext. intros t _.
  rewrite reverseBits_0. cbn [Nat.pow Nat.add]. rewrite Nat.mul_1_r.
  f_equal. rewrite twiddle_pow, cexp_imaginary, mult_INR.
  f_equal; f_equal; unfold Rdiv; ring.
Qed.

Lemma fft_length : length (fft x (2 ^ k)) = 2 ^ k.
Proof.
  unfold fft. rewrite Nat.log2_pow2 by lia.
  destruct (fft_stages_partial k (Nat.le_refl _)) as (Hl & _). exact Hl.
Qed.

End Stages.

Section Conjugates.
Open Scope R_scope.

Lemma conj_cadd (a b : complex R) : conj (cadd a b) = cadd (conj a) (conj b).
Proof.
  destruct a, b. unfold conj, cadd. cbn [re im fadd fneg exact_ops]. f_equal; ring.
Qed.

Lemma conj_cmul (a b : complex R) : conj (cmul a b) = cmul (conj a) (conj b).
Proof.
  destruct a, b. unfold conj, cmul. cbn [re im fadd fsub fmul fneg exact_ops].
  f_equal; ring.
Qed.

Lemma conj_conj (a : complex R) : conj (conj a) = a.
Proof.
  destruct a. unfold conj. cbn [re im fneg exact_ops]. f_equal. ring.
Qed.

Lemma conj_c0 : conj c0 = c0.
Proof.
  unfold conj, c0, f0. cbn [re im fneg f_of_Z exact_ops]. f_equal. ring.
Qed.

Lemma Csum_conj (n : nat) (f : nat -> complex R) :
  conj (Csum n f) = Csum n (fun t => conj (f t)).
Proof.
  induction n as [|n IH]; cbn [Csum].
  - apply conj_c0.
  - rewrite conj_cadd, IH. reflexivity.
Qed.

(** Powers of a twiddle factor have modulus one. *)
Lemma twiddle_pow_unit (m n : nat) :
  cmul (cpow (twiddle m) n) (conj (cpow (twiddle m) n)) = c1.
Proof.
  rewrite twiddle_pow. set (t := INR n * (- 2 * PI / INR m)).
  unfold conj, cmul, c1, cof, f0. cbn [re im fadd fsub fmul fneg f_of_Z exact_ops].
  pose proof (sin2_cos2 t) as Hu. unfold Rsqr in Hu.
  f_equal; [|ring].
  replace (cos t * cos t - sin t * - sin t) with (sin t * sin t + cos t * cos t) by ring.
  exact Hu.
Qed.

End Conjugates.

Section Orthogonality.

Lemma cpow_neg1_even (n : nat) : cpow (cneg c1) (2 * n) = c1.
Proof.
  rewrite cpow_mul. replace (cpow (cneg c1) 2) with (@c1 R exact_ops)
    by (cbn [cpow]; ring).
  apply cpow_c1.
Qed.

Lemma cpow_neg1_odd (n : nat) : cpow (cneg c1) (2 * n + 1) = cneg c1.
Proof.
  rewrite cpow_add, cpow_neg1_even. cbn [cpow]. ring.
Qed.

(** The powers of a non-trivial power of the principal root sum to zero. *)
Lemma twiddle_geometric_sum (k d : nat) :
  0 < d < 2 ^ k ->
  Csum (2 ^ k) (fun t => cpow (twiddle (2 ^ k)) (d * t)) = c0.
Proof.
  revert d; induction k as [|k IH]; intros d Hd; [simpl in Hd; lia|].
  assert (Hh : 0 < 2 ^ k) by (apply Nat.neq_0_lt_0, Nat.pow_nonzero; lia).
  rewrite Nat.pow_succ_r' in *.
  replace (2 * 2 ^ k) with (2 ^ k + 2 ^ k) at 1 by lia.
  rewrite Csum_app.
  rewrite (Csum_ext _ (fun t => cpow (twiddle (2 * 2 ^ k)) (d * (2 ^ k + t)))
             (fun t => cmul (cpow (cneg c1) d) (cpow (twiddle (2 * 2 ^ k)) (d * t)))).
  2:{ intros t _. replace (d * (2 ^ k + t)) with (2 ^ k * d + d * t) by lia.
      rewrite cpow_add, cpow_mul, twiddle_half by exact Hh. reflexivity. }
  rewrite Csum_scale.
  destruct (Nat.Even_or_Odd d) as [[d' ->]|[d' ->]].
  - rewrite cpow_neg1_even.
    rewrite (Csum_ext _ _ (fun t => cpow (twiddle (2 ^ k)) (d' * t))).
    2:{ intros t _. replace (2 * d' * t) with (2 * (d' * t)) by lia.
        apply twiddle_even_power. exact Hh. }
    rewrite IH by lia. ring.
  - rewrite cpow_neg1_odd. ring.
Qed.

Lemma Csum_const_c1 (n : nat) : Csum n (fun _ => c1) = cof (INR n).
Proof.
  induction n as [|n IH]; cbn [Csum].
  - reflexivity.
  - rewrite IH, S_INR. unfold cadd, c1, cof, f0.
    cbn [re im fadd f_of_Z exact_ops]. f_equal; ring.
Qed.

Lemma twiddle_orthogonal (k s j : nat) :
  s < 2 ^ k -> j < 2 ^ k ->
  Csum (2 ^ k)
    (fun t => cmul (cpow (twiddle (2 ^ k)) (s * t)) (conj (cpow (twiddle (2 ^ k)) (j * t))))
  = if Nat.eqb s j then cof (INR (2 ^ k)) else c0.
Proof.
  intros Hs Hj. set (w := twiddle (2 ^ k)).
  destruct (Nat.eqb_spec s j) as [->|Hne].
  - rewrite (Csum_ext _ _ (fun _ => c1)) by (intros; apply twiddle_pow_unit).
    apply Csum_const_c1.
  - destruct (Nat.lt_ge_cases j s) as [Hlt|Hge].
    + rewrite (Csum_ext _ _ (fun t => cpow w ((s - j) * t))).
      * apply twiddle_geometric_sum. lia.
      * intros t _. replace (s * t) with ((s - j) * t + j * t) by nia.
        rewrite cpow_add.
        pose proof (twiddle_pow_unit (2 ^ k) (j * t)) as Hu. fold w in Hu.
        transitivity (cmul (cpow w ((s - j) * t))
                           (cmul (cpow w (j * t)) (conj (cpow w (j * t))))); [ring|].
        rewrite Hu. ring.
    + rewrite (Csum_ext _ _ (fun t => conj (cpow w ((j - s) * t)))).
      * rewrite <- Csum_conj. unfold w. rewrite twiddle_geometric_sum by lia.
        apply conj_c0.
      * intros t _. replace (j * t) with ((j - s) * t + s * t) by nia.
        rewrite cpow_add, conj_cmul.
        pose proof (twiddle_pow_unit (2 ^ k) (s * t)) as Hu. fold w in Hu.
        transitivity (cmul (conj (cpow w ((j - s) * t)))
                           (cmul (cpow w (s * t)) (conj (cpow w (s * t))))); [ring|].
        rewrite Hu. ring.
Qed.

End Orthogonality.

Section Inverse.
Open Scope R_scope.

Lemma dft_powers (x : list (complex R)) (N j : nat) :
  dft x N j = Csum N (fun t => cmul (nth t x c0) (cpow (twiddle N) (j * t))).
Proof.
  unfold dft. apply Csum_ext. intros t _. f_equal.
  rewrite twiddle_pow, cexp_imaginary, mult_INR.
  f_equal; f_equal; unfold Rdiv; ring.
Qed.

Lemma rescale_exact (z : complex R) (n : nat) :
  (0 < n)%nat -> cscale (/ INR n) (cmul z (cof (INR n))) = z.
Proof.
  intros Hn. assert (Hn' : INR n <> 0) by (apply not_0_INR; lia).
  destruct z as [a b]. unfold cscale, cmul, cof, f0.
  cbn [re im fadd fsub fmul f_of_Z exact_ops]. f_equal; field; exact Hn'.
Qed.

(** Conjugate, transform, conjugate and divide by the length: the samples
    come back. *)
Lemma ifft_conj_fft (x : list (complex R)) (k : nat) :
  (k < 16)%nat -> length x = (2 ^ k)%nat ->
  ifft_conj (fft x (2 ^ k)) (2 ^ k) = x.
Proof.
  intros Hk Hlen. set (N := (2 ^ k)%nat) in *.
  assert (HN : (0 < N)%nat) by (apply Nat.neq_0_lt_0, Nat.pow_nonzero; lia).
  pose proof (fft_length x k Hk Hlen) as HX. fold N in HX.
  set (X := fft x N) in *.
  assert (HY : length (map conj X) = N) by (rewrite length_map; exact HX).
  pose proof (fft_length (map conj X) k Hk HY) as HZ. fold N in HZ.
  unfold ifft_conj. apply (nth_ext _ _ c0 c0).
  - rewrite length_map, HZ. symmetry. exact Hlen.
  - intros j Hj. rewrite length_map, HZ in Hj.
    rewrite (nth_map_in_range _ _ _ _ c0) by (rewrite HZ; exact Hj).
    unfold N. rewrite (fft_nth (map conj X) k Hk HY j Hj). fold N.
    rewrite dft_powers, Csum_conj.
    rewrite (Csum_ext _ _
      (fun t => Csum N (fun s =>
         cmul (nth s x c0)
              (cmul (cpow (twiddle N) (s * t)) (conj (cpow (twiddle N) (j * t))))))).
    2:{ intros t Ht. rewrite conj_cmul.
        rewrite (nth_map_in_range _ _ _ _ c0) by (rewrite HX; exact Ht).
        rewrite conj_conj. unfold X, N.
        rewrite (fft_nth x k Hk Hlen t Ht). fold N. rewrite dft_powers.
        transitivity (cmul (conj (cpow (twiddle N) (j * t)))
                           (Csum N (fun s => cmul (nth s x c0) (cpow (twiddle N) (t * s)))));
          [ring|].
        rewrite <- Csum_scale. apply Csum_ext. intros s _.
        rewrite (Nat.mul_comm t s). ring. }
    rewrite Csum_exchange.
    rewrite (Csum_ext _ _
      (fun s => cmul (nth s x c0) (if Nat.eqb s j then cof (INR N) else c0))).
    2:{ intros s Hs. rewrite Csum_scale. unfold N.
        rewrite twiddle_orthogonal by assumption. reflexivity. }
    rewrite (Csum_single N j).
    + rewrite Nat.eqb_refl. apply rescale_exact. exact HN.
    + exact Hj.
    + intros t _ Hne. destruct (Nat.eqb_spec t j); [contradiction|ring].
Qed.

End Inverse.

(** C3. In exact arithmetic, for every power of two [size = 2^k] with
    [k < 16] and every array of [size] complex samples: [fft] returns an
    array of the same length whose entry [j] is the discrete Fourier
    transform [sum over t of x[t] * exp(-2 pi i j t / size)], and the
    transform followed by the conjugate-and-rescale inverse,
    [conj(fft(conj(X))) / size], gives back the samples. *)
Theorem fft_computes_dft (x : list (complex R)) (k : nat) :
  k < 16 -> length x = 2 ^ k ->
  let size := 2 ^ k in
  length (fft x size) = size /\
  (forall j, j < size -> nth j (fft x size) c0 = dft x size j) /\
  ifft_conj (fft x size) size = x.
Proof.
  intros Hk Hlen size.
  split; [apply fft_length; assumption|].
  split; [intros j Hj; apply fft_nth; assumption|].
  apply ifft_conj_fft; assumption.
Qed.

(** * The theorems at concrete inputs *)

Lemma kernelSmooth_empty_window_nan_witness :
  b32_isnan (smoothingFactor impl_quarter) = false /\
  forallb b32_finite_nonneg (AudioData.lBuffer (flat_frame b32_one)) = true /\
  forallb b32_finite_nonneg (AudioData.rBuffer (flat_frame b32_one)) = true /\
  let out := snd (@kernelSmooth _ (b32_ops libm_table) impl_quarter (flat_frame b32_one)) in
  nth 0 (AudioData.lBuffer out) b32_zero = S754_nan /\
  nth 0 (AudioData.rBuffer out) b32_zero = S754_nan.
Proof.
  split; [vm_compute; reflexivity|].
  split; [vm_compute; reflexivity|].
  split; [vm_compute; reflexivity|].
  apply (kernelSmooth_empty_window_nan libm_table impl_quarter (flat_frame b32_one) 0).
  - vm_compute; lia.
  - vm_compute; lia.
  - vm_compute; lia.
  - apply Z.leb_le. vm_compute. reflexivity.
Defined.



Lemma equalise_weight_strictly_increasing_witness :
  (0 < equalise_weight impl_exact_quarter 0)%R /\
  (equalise_weight impl_exact_quarter 0 < equalise_weight impl_exact_quarter 1)%R.
Proof.
  destruct (equalise_weight_strictly_increasing impl_exact_quarter 0 1)
    as (_ & _ & Hpos & Hlt).
  - simpl. lra.
  - simpl. lia.
  - lia.
  - simpl. lia.
  - split; assumption.
Defined.

Lemma calculateVolume_sum_over_inputSize_witness :
  let ad := frame_exact (repeat 1%R 512) (repeat 1%R 512) in
  (0 < inputSize impl_exact_quarter)%Z /\
  (AudioData.lVolume (calculateVolume impl_exact_quarter (scale_spectrum 2 ad))
   = 2 * AudioData.lVolume (calculateVolume impl_exact_quarter ad))%R.
Proof.
  intros ad.
  assert (HN : (0 < inputSize impl_exact_quarter)%Z) by (simpl; lia).
  split; [exact HN|].
  exact (proj1 (proj2 (proj2 (proj2 (proj2
    (calculateVolume_sum_over_inputSize impl_exact_quarter ad 2 HN)))))).
Defined.



Lemma fft_computes_dft_witness :
  length (fft impulse4 4) = 4 /\ ifft_conj (fft impulse4 4) 4 = impulse4.
Proof.
  destruct (fft_computes_dft impulse4 2) as (Hl & _ & Hinv).
  - lia.
  - reflexivity.
  - split; [exact Hl | exact Hinv].
Defined.

(** * The audio sampler's buffers ([Audio.cpp]) *)

Section LoopFacts.

(** A loop keeps what every pass keeps. *)
Lemma for_range_inv {S} (P : S -> Prop) n (body : nat -> S -> S) s :
  P s -> (forall i st, i < n -> P st -> P (body i st)) -> P (for_range n body s).
Proof.
  intros Hs Hstep. induction n as [|n IH]; [exact Hs|].
  rewrite for_range_S. apply Hstep; [lia|]. apply IH. intros; apply Hstep; [lia|assumption].
Qed.

(** A component of the state that no pass touches can be taken out of the
    loop. *)
Lemma for_range_snd {S T} n (body : nat -> T -> T) (s : S) (t : T) :
  for_range n (fun i '(s, t) => (s, body i t)) (s, t) = (s, for_range n body t).
Proof.
  induction n as [|n IH]; [reflexivity|].
  rewrite !for_range_S, IH. reflexivity.
Qed.

(** A loop that stores [g i] into slot [i] writes exactly the first [n]
    slots. *)
Lemma for_range_fill {A} (g : nat -> A) d n (l : list A) :
  let res := for_range n (fun i a => upd a i (g i)) l in
  length res = length l /\
  (forall i, i < n -> i < length l -> nth i res d = g i) /\
  (forall i, n <= i -> nth i res d = nth i l d).
Proof.
  induction n as [|n IH]; cbv zeta.
  - rewrite for_range_0. repeat split; intros; try lia; reflexivity.
  - rewrite for_range_S. cbv zeta in IH. destruct IH as (Hl & Hin & Hout).
    rewrite upd_length. split; [exact Hl|]. split.
    + intros i Hi Hlen. destruct (Nat.eq_dec i n) as [->|Hne].
      * apply nth_upd_same. lia.
      * rewrite nth_upd_other by lia. apply Hin; lia.
    + intros i Hi. rewrite nth_upd_other by lia. apply Hout. lia.
Qed.

(** A loop that stores into slot [i] a value computed from the slot's old
    content. *)
Lemma for_range_upd1 {A} (g : nat -> A -> A) d n (l : list A) :
  let res := for_range n (fun i a => upd a i (g i (nth i a d))) l in
  length res = length l /\
  (forall i, i < n -> i < length l -> nth i res d = g i (nth i l d)) /\
  (forall i, n <= i -> nth i res d = nth i l d).
Proof.
  induction n as [|n IH]; cbv zeta.
  - rewrite for_range_0. repeat split; intros; try lia; reflexivity.
  - rewrite for_range_S. cbv zeta in IH. destruct IH as (Hl & Hin & Hout).
    rewrite upd_length. split; [exact Hl|]. split.
    + intros i Hi Hlen. destruct (Nat.eq_dec i n) as [->|Hne].
      * rewrite nth_upd_same by lia. rewrite Hout by lia. reflexivity.
      * rewrite nth_upd_other by lia. apply Hin; lia.
    + intros i Hi. rewrite nth_upd_other by lia. apply Hout. lia.
Qed.

End LoopFacts.

Section Chunks.
Context {A : Type} (d : A).

(** [n] swaps of neighbours move the first element to slot [n] and the
    elements in between one place to the left. *)
Lemma adjacent_swaps (n : nat) (a : list A) :
  n < length a ->
  let a' := for_range n (fun i a => swap d a i (i + 1)) a in
  length a' = length a /\
  (forall q, nth q a' d
             = if q <? n then nth (q + 1) a d
               else if q =? n then nth 0 a d else nth q a d).
Proof.
  induction n as [|n IH]; intros Hn; cbv zeta.
  - rewrite for_range_0. split; [reflexivity|]. intros q.
    destruct (Nat.ltb_spec q 0); [lia|].
    destruct (Nat.eqb_spec q 0) as [->|]; reflexivity.
  - rewrite for_range_S. cbv zeta in IH. destruct IH as (Hl & Hq); [lia|].
    rewrite swap_length. split; [exact Hl|]. intros q.
    rewrite nth_swap by lia. rewrite !Hq.
    replace (n + 1 <? n) with false by (symmetry; apply Nat.ltb_ge; lia).
    replace (n + 1 =? n) with false by (symmetry; apply Nat.eqb_neq; lia).
    rewrite Nat.ltb_irrefl, Nat.eqb_refl.
    destruct (Nat.eqb_spec q (n + 1)) as [->|Hne1].
    + replace (n + 1 <? S n) with false by (symmetry; apply Nat.ltb_ge; lia).
      replace (n + 1 =? S n) with true by (symmetry; apply Nat.eqb_eq; lia).
      reflexivity.
    + destruct (Nat.eqb_spec q n) as [->|Hne].
      * replace (n <? S n) with true by (symmetry; apply Nat.ltb_lt; lia).
        reflexivity.
      * destruct (Nat.ltb_spec q n); destruct (Nat.ltb_spec q (S n)); try lia.
        -- reflexivity.
        -- destruct (Nat.eqb_spec q (S n)); [lia|reflexivity].
Qed.

Lemma nth_tl (a : list A) (q : nat) : nth q (tl a) d = nth (S q) a d.
Proof. destruct a as [|h t]; [destruct q|]; reflexivity. Qed.

(** The rotation as a whole: the head goes to the spare slot, the spare
    array comes in at the end. *)
Lemma rotate_list (a : list A) (spare : A) :
  1 <= length a ->
  let last := length a - 1 in
  let a' := for_range last (fun i a => swap d a i (i + 1)) a in
  upd a' last spare = tl a ++ [spare] /\ nth last a' d = hd d a.
Proof.
  intros Hlen last a'.
  destruct (adjacent_swaps last a ltac:(lia)) as (Hl & Hq). fold a' in Hl, Hq.
  split.
  - apply (nth_ext _ _ d d).
    + rewrite upd_length, Hl, length_app. destruct a; simpl in *; lia.
    + intros q Hlt. rewrite upd_length, Hl in Hlt.
      destruct (Nat.eq_dec q last) as [->|Hne].
      * rewrite nth_upd_same by lia.
        rewrite app_nth2 by (destruct a; simpl in *; lia).
        replace (last - length (tl a)) with 0 by (destruct a; simpl in *; lia).
        reflexivity.
      * rewrite nth_upd_other by lia. rewrite Hq.
        replace (q <? last) with true by (symmetry; apply Nat.ltb_lt; lia).
        rewrite app_nth1 by (destruct a; simpl in *; lia).
        rewrite nth_tl. f_equal. lia.
  - rewrite Hq, Nat.ltb_irrefl, Nat.eqb_refl. destruct a; reflexivity.
Qed.

(** Entry [i] of the concatenation of chunks of equal size is entry
    [i mod size] of chunk [i / size]. *)
Lemma nth_concat_chunks (size : nat) (pp : list (list A)) (i : nat) :
  0 < size -> Forall (fun c => length c = size) pp -> i < size * length pp ->
  nth i (concat pp) d = nth (i mod size) (nth (i / size) pp []) d.
Proof.
  intros Hs Hall. revert i. induction Hall as [|c pp Hc Hall IH]; intros i Hi.
  - simpl in Hi. lia.
  - cbn [concat]. destruct (Nat.lt_ge_cases i size) as [Hlt|Hge].
    + rewrite app_nth1 by lia.
      rewrite Nat.div_small, Nat.mod_small by exact Hlt. reflexivity.
    + rewrite app_nth2 by lia. rewrite Hc.
      cbn [length] in Hi. rewrite IH by lia.
      assert (Ei : i = (i - size) + 1 * size) by lia.
      rewrite Ei at 3 4. rewrite Nat.Div0.mod_add, Nat.div_add by lia.
      replace ((i - size) / size + 1) with (S ((i - size) / size)) by lia.
      reflexivity.
Qed.

Lemma length_concat_chunks (size : nat) (pp : list (list A)) :
  Forall (fun c => length c = size) pp -> length (concat pp) = size * length pp.
Proof.
  induction 1 as [|c pp Hc Hall IH]; simpl; [lia|].
  rewrite length_app, IH, Hc. lia.
Qed.

Lemma nth_duplicate (l : list A) (q : nat) :
  q < 2 * length l -> nth q (duplicate l) d = nth (q / 2) l d.
Proof.
  revert q; induction l as [|x l IH]; intros q Hq; [simpl in Hq; lia|].
  cbn [duplicate flat_map app]. destruct q as [|[|q]]; try reflexivity.
  change (nth (S (S q)) (x :: x :: flat_map (fun x => [x; x]) l) d)
    with (nth q (duplicate l) d).
  cbn [length] in Hq. rewrite IH by lia.
  replace (S (S q)) with (q + 1 * 2) by lia.
  rewrite Nat.div_add by lia. replace (q / 2 + 1) with (S (q / 2)) by lia.
  reflexivity.
Qed.

Lemma length_duplicate (l : list A) : length (duplicate l) = 2 * length l.
Proof.
  induction l as [|x l IH]; [reflexivity|].
  cbn [duplicate flat_map app length]. fold (duplicate l). rewrite IH. lia.
Qed.

Lemma nth_skipn_shift (n q : nat) (l : list A) :
  nth q (skipn n l) d = nth (n + q) l d.
Proof.
  revert l; induction n as [|n IH]; intros l; [reflexivity|].
  destruct l as [|x l]; [destruct q; reflexivity|]. apply IH.
Qed.

(** Overwriting the first [length front] slots of [l] with [front]. *)
Lemma overwrite_front (front l res : list A) :
  length front <= length l ->
  length res = length l ->
  (forall q, q < length front -> nth q res d = nth q front d) ->
  (forall q, length front <= q -> nth q res d = nth q l d) ->
  res = front ++ skipn (length front) l.
Proof.
  intros Hle Hlen Hin Hout. apply (nth_ext _ _ d d).
  - rewrite length_app, length_skipn. lia.
  - intros q Hq. destruct (Nat.lt_ge_cases q (length front)) as [Hlt|Hge].
    + rewrite app_nth1 by exact Hlt. apply Hin. exact Hlt.
    + rewrite app_nth2 by exact Hge. rewrite nth_skipn_shift, Hout by exact Hge.
      f_equal. lia.
Qed.

End Chunks.

Section SamplerFacts.
Context {F : Type} `{FloatOps F}.

(** With chunks of [sampleSize] entries, [sample s i] is entry [i] of the
    chunks laid end to end. *)
Lemma sample_concat (s : AudioSampler.AudioSamplerImpl F) (n : nat) (i : nat) :
  (0 < AudioSampler.sampleSize s)%Z ->
  chunks_of n (Z.to_nat (AudioSampler.sampleSize s)) (AudioSampler.ppAudioBuffer s) ->
  i < Z.to_nat (AudioSampler.sampleSize s) * n ->
  AudioSampler.sample s i = nth i (concat (AudioSampler.ppAudioBuffer s)) f0.
Proof.
  intros Hs [Hn Hall] Hi. unfold AudioSampler.sample.
  rewrite (nth_concat_chunks f0 (Z.to_nat (AudioSampler.sampleSize s)))
    by (try assumption; try lia; rewrite Hn; exact Hi).
  f_equal; [|f_equal].
  - rewrite <- (Z2Nat.id (AudioSampler.sampleSize s)) at 1 by lia.
    rewrite <- Nat2Z.inj_mod, Nat2Z.id. reflexivity.
  - rewrite <- (Z2Nat.id (AudioSampler.sampleSize s)) at 1 by lia.
    rewrite <- Nat2Z.inj_div, Nat2Z.id. reflexivity.
Qed.

(** The stereo loop of [copyData]. *)
Lemma copyData_stereo_loop (s : AudioSampler.AudioSamplerImpl F) (ad : AudioData.t F) :
  AudioSampler.channels s = 2%Z ->
  let n := Z.to_nat (AudioSampler.bufferSize s) in
  let out := AudioSampler.copyData s ad in
  AudioSampler.stopped (fst out) = AudioSampler.stopped s /\
  length (AudioData.buffer (snd out)) = length (AudioData.buffer ad) /\
  (forall i, i < n -> i < length (AudioData.buffer ad) ->
     nth i (AudioData.buffer (snd out)) f0 = AudioSampler.sample s i) /\
  (forall i, n <= i ->
     nth i (AudioData.buffer (snd out)) f0 = nth i (AudioData.buffer ad) f0).
Proof.
  intros Hch n out. subst out. unfold AudioSampler.copyData. fold n.
  rewrite Hch. cbn [Z.eqb Pos.eqb].
  rewrite (for_range_snd n (fun i b => upd b i (AudioSampler.sample s i))).
  cbn [fst snd AudioSampler.stopped AudioData.buffer].
  split; [reflexivity|].
  apply (for_range_fill (AudioSampler.sample s) f0 n (AudioData.buffer ad)).
Qed.

(** The mono loop of [copyData]: after [n] passes the first [2 * n] slots
    hold every sample twice. *)
Lemma copyData_mono_passes (s : AudioSampler.AudioSamplerImpl F) (b : list F) (n : nat) :
  2 * n <= length b ->
  let res :=
    for_range n
      (fun i b =>
         let b := upd b (2 * i) (AudioSampler.sample s i) in
         upd b (2 * i + 1) (nth (2 * i) b f0))
      b in
  length res = length b /\
  (forall q, q < 2 * n -> nth q res f0 = AudioSampler.sample s (q / 2)) /\
  (forall q, 2 * n <= q -> nth q res f0 = nth q b f0).
Proof.
  induction n as [|n IH]; intros Hlen; cbv zeta.
  - rewrite for_range_0. repeat split; intros; try lia; reflexivity.
  - rewrite for_range_S. cbv zeta in IH. destruct IH as (Hl & Hin & Hout); [lia|].
    set (a := for_range n _ b) in *.
    rewrite !upd_length. split; [exact Hl|].
    assert (Hsame : nth (2 * n) (upd a (2 * n) (AudioSampler.sample s n)) f0
                    = AudioSampler.sample s n) by (apply nth_upd_same; lia).
    split.
    + intros q Hq. destruct (Nat.eq_dec q (2 * n + 1)) as [->|Hne1].
      * rewrite nth_upd_same by (rewrite upd_length; lia). rewrite Hsame.
        f_equal. apply (Nat.div_unique _ _ _ 1); lia.
      * rewrite nth_upd_other by lia.
        destruct (Nat.eq_dec q (2 * n)) as [->|Hne].
        -- rewrite Hsame. f_equal. apply (Nat.div_unique _ _ _ 0); lia.
        -- rewrite nth_upd_other by lia. apply Hin. lia.
    + intros q Hq. rewrite !nth_upd_other by lia. apply Hout. lia.
Qed.

Lemma copyData_mono_loop (s : AudioSampler.AudioSamplerImpl F) (ad : AudioData.t F) :
  AudioSampler.channels s = 1%Z ->
  let n := Z.to_nat (AudioSampler.bufferSize s) in
  let out := AudioSampler.copyData s ad in
  2 * n <= length (AudioData.buffer ad) ->
  AudioSampler.stopped (fst out) = AudioSampler.stopped s /\
  length (AudioData.buffer (snd out)) = length (AudioData.buffer ad) /\
  (forall q, q < 2 * n ->
     nth q (AudioData.buffer (snd out)) f0 = AudioSampler.sample s (q / 2)) /\
  (forall q, 2 * n <= q ->
     nth q (AudioData.buffer (snd out)) f0 = nth q (AudioData.buffer ad) f0).
Proof.
  intros Hch n out Hlen. subst out. unfold AudioSampler.copyData. fold n.
  rewrite Hch. cbn [Z.eqb Pos.eqb].
  rewrite (for_range_snd n
             (fun i b =>
                let b := upd b (2 * i) (AudioSampler.sample s i) in
                upd b (2 * i + 1) (nth (2 * i) b f0))).
  cbn [fst snd AudioSampler.stopped AudioData.buffer].
  split; [reflexivity|].
  apply (copyData_mono_passes s (AudioData.buffer ad) n Hlen).
Qed.

(** A channel count other than 1 and 2: every pass sets [stopped]. *)
Lemma copyData_default_loop (s : AudioSampler.AudioSamplerImpl F) (ad : AudioData.t F) :
  AudioSampler.channels s <> 1%Z -> AudioSampler.channels s <> 2%Z ->
  AudioSampler.copyData s ad
  = (AudioSampler.mk
       (AudioSampler.stopped s || (0 <? AudioSampler.bufferSize s)%Z) false
       (AudioSampler.ppAudioBuffer s) (AudioSampler.pSampleBuffer s)
       (AudioSampler.channels s) (AudioSampler.sampleSize s) (AudioSampler.bufferSize s),
     AudioData.mk (AudioData.buffer ad) (AudioData.lBuffer ad) (AudioData.rBuffer ad)
                  (AudioData.lVolume ad) (AudioData.rVolume ad)).
Proof.
  intros H1 H2. unfold AudioSampler.copyData.
  apply Z.eqb_neq in H1, H2. rewrite H1, H2.
  assert (E : forall n st (b : list F),
             for_range n (fun (_ : nat) '(_, b) => (true, b)) (st, b)
             = (st || negb (n =? 0), b)).
  { induction n as [|n IH]; intros st b.
    - rewrite for_range_0. simpl. rewrite orb_false_r. reflexivity.
    - rewrite for_range_S, IH. simpl. rewrite orb_true_r. reflexivity. }
  rewrite E.
  replace (negb (Z.to_nat (AudioSampler.bufferSize s) =? 0))
    with (0 <? AudioSampler.bufferSize s)%Z.
  - reflexivity.
  - destruct (Z.ltb_spec 0 (AudioSampler.bufferSize s));
      destruct (Nat.eqb_spec (Z.to_nat (AudioSampler.bufferSize s)) 0);
      simpl; try reflexivity; lia.
Qed.

(** What a frame holds after a stereo [copyData]. *)
Lemma copyData_stereo_buffer
  (s : AudioSampler.AudioSamplerImpl F) (ad : AudioData.t F) (n : nat) :
  AudioSampler.channels s = 2%Z ->
  (0 < AudioSampler.sampleSize s)%Z ->
  chunks_of n (Z.to_nat (AudioSampler.sampleSize s)) (AudioSampler.ppAudioBuffer s) ->
  AudioSampler.bufferSize s = (AudioSampler.sampleSize s * Z.of_nat n)%Z ->
  Z.to_nat (AudioSampler.bufferSize s) <= length (AudioData.buffer ad) ->
  AudioData.buffer (snd (AudioSampler.copyData s ad))
  = concat (AudioSampler.ppAudioBuffer s)
    ++ skipn (Z.to_nat (AudioSampler.bufferSize s)) (AudioData.buffer ad).
Proof.
  intros Hch Hs Hpp Hb Hlen.
  destruct (copyData_stereo_loop s ad Hch) as (_ & Hl & Hin & Hout).
  assert (Hn : Z.to_nat (AudioSampler.bufferSize s)
               = Z.to_nat (AudioSampler.sampleSize s) * n).
  { rewrite Hb, Z2Nat.inj_mul, Nat2Z.id by lia. reflexivity. }
  assert (Hc : length (concat (AudioSampler.ppAudioBuffer s))
               = Z.to_nat (AudioSampler.bufferSize s)).
  { destruct Hpp as [Hcount Hall].
    rewrite (length_concat_chunks _ _ Hall), Hcount, Hn. reflexivity. }
  rewrite <- Hc. apply (overwrite_front f0).
  - rewrite Hc. exact Hlen.
  - exact Hl.
  - intros q Hq. rewrite Hc in Hq. rewrite Hin by lia.
    apply (sample_concat s n); [exact Hs | exact Hpp | lia].
  - intros q Hq. rewrite Hc in Hq. apply Hout. exact Hq.
Qed.

End SamplerFacts.

(** A successful pass of the loop of [run]. *)
Lemma run_step_fields {F : Type} `{FloatOps F}
  (s : AudioSampler.AudioSamplerImpl F) (data : list F) :
  (1 <= AudioSampler.bufferSize s / AudioSampler.sampleSize s < size_t_mod)%Z ->
  length (AudioSampler.ppAudioBuffer s)
  = Z.to_nat (AudioSampler.bufferSize s / AudioSampler.sampleSize s) ->
  let ok := AudioSampler.run_step true data s in
  (AudioSampler.ppAudioBuffer ok = tl (AudioSampler.ppAudioBuffer s) ++ [data] /\
   AudioSampler.pSampleBuffer ok = hd [] (AudioSampler.ppAudioBuffer s)) /\
  AudioSampler.channels ok = AudioSampler.channels s /\
  AudioSampler.sampleSize ok = AudioSampler.sampleSize s /\
  AudioSampler.bufferSize ok = AudioSampler.bufferSize s.
Proof.
  intros Hcount Hlen ok. subst ok.
  unfold AudioSampler.run_step, AudioSampler.rotate.
  cbn [AudioSampler.ppAudioBuffer AudioSampler.pSampleBuffer AudioSampler.modified
       AudioSampler.stopped AudioSampler.bufferSize AudioSampler.sampleSize
       AudioSampler.channels].
  rewrite Z.mod_small by lia.
  replace (Z.to_nat (AudioSampler.bufferSize s / AudioSampler.sampleSize s - 1))
    with (length (AudioSampler.ppAudioBuffer s) - 1) by lia.
  split; [|repeat split].
  apply (rotate_list [] (AudioSampler.ppAudioBuffer s) data). lia.
Qed.

(** X1. One pass of the loop of [run], for a ring of [n >= 1] chunks with
    [n = bufferSize / sampleSize]: after a successful read the chunk list is
    the old one without its first chunk and with the samples just read at the
    end, the spare sample buffer is the old first chunk, [modified] is set and
    [stopped] is as before; after a failed read the chunks are as before and
    [stopped] is set. *)
Theorem run_step_rotates_chunks {F : Type} `{FloatOps F}
  (s : AudioSampler.AudioSamplerImpl F) (data : list F) :
  (1 <= AudioSampler.bufferSize s / AudioSampler.sampleSize s < size_t_mod)%Z ->
  length (AudioSampler.ppAudioBuffer s)
  = Z.to_nat (AudioSampler.bufferSize s / AudioSampler.sampleSize s) ->
  let ok := AudioSampler.run_step true data s in
  let failed := AudioSampler.run_step false data s in
  AudioSampler.ppAudioBuffer ok = tl (AudioSampler.ppAudioBuffer s) ++ [data] /\
  AudioSampler.pSampleBuffer ok = hd [] (AudioSampler.ppAudioBuffer s) /\
  AudioSampler.modified ok = true /\
  AudioSampler.stopped ok = AudioSampler.stopped s /\
  AudioSampler.ppAudioBuffer failed = AudioSampler.ppAudioBuffer s /\
  AudioSampler.stopped failed = true.
Proof.
  intros Hcount Hlen ok failed.
  destruct (run_step_fields s data Hcount Hlen) as ((Hpp & Hsp) & _).
  fold ok in Hpp, Hsp.
  split; [exact Hpp|]. split; [exact Hsp|]. repeat split.
Qed.

Lemma run_step_rotates_chunks_witness :
  let s := AudioSampler.mk false false [[1%R; 2%R]; [3%R; 4%R]] [0%R; 0%R] 2 2 4 in
  AudioSampler.ppAudioBuffer (AudioSampler.run_step true [5%R; 6%R] s)
  = [[3%R; 4%R]; [5%R; 6%R]] /\
  AudioSampler.pSampleBuffer (AudioSampler.run_step true [5%R; 6%R] s) = [1%R; 2%R].
Proof.
  intros s.
  destruct (run_step_rotates_chunks s [5%R; 6%R]) as (Hpp & Hsp & _).
  - vm_compute. split; [discriminate | reflexivity].
  - reflexivity.
  - split; [exact Hpp | exact Hsp].
Defined.

(** X2. [copyData] with two channels, for [n] chunks of [sampleSize > 0]
    entries, [bufferSize = sampleSize * n] and a frame buffer of at least
    [bufferSize] entries: the buffer's first [bufferSize] entries become the
    chunks laid end to end, oldest first, the entries behind them and the
    spectrum arrays are untouched, [modified] is cleared and [stopped] is as
    before. *)
Theorem copyData_stereo_concatenates {F : Type} `{FloatOps F}
  (s : AudioSampler.AudioSamplerImpl F) (ad : AudioData.t F) (n : nat) :
  AudioSampler.channels s = 2%Z ->
  (0 < AudioSampler.sampleSize s)%Z ->
  chunks_of n (Z.to_nat (AudioSampler.sampleSize s)) (AudioSampler.ppAudioBuffer s) ->
  AudioSampler.bufferSize s = (AudioSampler.sampleSize s * Z.of_nat n)%Z ->
  Z.to_nat (AudioSampler.bufferSize s) <= length (AudioData.buffer ad) ->
  let out := AudioSampler.copyData s ad in
  AudioData.buffer (snd out)
  = concat (AudioSampler.ppAudioBuffer s)
    ++ skipn (Z.to_nat (AudioSampler.bufferSize s)) (AudioData.buffer ad) /\
  AudioData.lBuffer (snd out) = AudioData.lBuffer ad /\
  AudioData.rBuffer (snd out) = AudioData.rBuffer ad /\
  AudioSampler.modified (fst out) = false /\
  AudioSampler.stopped (fst out) = AudioSampler.stopped s /\
  AudioSampler.ppAudioBuffer (fst out) = AudioSampler.ppAudioBuffer s.
Proof.
  intros Hch Hs Hpp Hb Hlen out.
  split; [apply (copyData_stereo_buffer s ad n); assumption|].
  destruct (copyData_stereo_loop s ad Hch) as (Hst & _).
  subst out. unfold AudioSampler.copyData in *.
  destruct (for_range _ _ _) as [st b]. repeat split. exact Hst.
Qed.

Lemma copyData_stereo_concatenates_witness :
  let s := AudioSampler.mk false true [[1%R; 2%R]; [3%R; 4%R]] [0%R; 0%R] 2 2 4 in
  let ad := AudioData.mk [9%R; 9%R; 9%R; 9%R; 9%R] [] [] 0%R 0%R in
  AudioData.buffer (snd (AudioSampler.copyData s ad)) = [1%R; 2%R; 3%R; 4%R; 9%R] /\
  AudioSampler.modified (fst (AudioSampler.copyData s ad)) = false.
Proof.
  intros s ad.
  destruct (copyData_stereo_concatenates s ad 2) as (Hb & _ & _ & Hm & _).
  - reflexivity.
  - reflexivity.
  - split; [reflexivity | repeat constructor].
  - reflexivity.
  - simpl. lia.
  - split; [exact Hb | exact Hm].
Defined.

(** X3. [copyData] with one channel, for [n] chunks of [sampleSize > 0]
    entries, [bufferSize = sampleSize * n] and a frame buffer of at least
    [2 * bufferSize] entries: the buffer's first [2 * bufferSize] entries
    become the samples of the chunks, oldest first, each written twice in a
    row; the entries behind them are untouched, [modified] is cleared and
    [stopped] is as before. *)
Theorem copyData_mono_duplicates {F : Type} `{FloatOps F}
  (s : AudioSampler.AudioSamplerImpl F) (ad : AudioData.t F) (n : nat) :
  AudioSampler.channels s = 1%Z ->
  (0 < AudioSampler.sampleSize s)%Z ->
  chunks_of n (Z.to_nat (AudioSampler.sampleSize s)) (AudioSampler.ppAudioBuffer s) ->
  AudioSampler.bufferSize s = (AudioSampler.sampleSize s * Z.of_nat n)%Z ->
  2 * Z.to_nat (AudioSampler.bufferSize s) <= length (AudioData.buffer ad) ->
  let out := AudioSampler.copyData s ad in
  AudioData.buffer (snd out)
  = duplicate (concat (AudioSampler.ppAudioBuffer s))
    ++ skipn (2 * Z.to_nat (AudioSampler.bufferSize s)) (AudioData.buffer ad) /\
  AudioSampler.modified (fst out) = false /\
  AudioSampler.stopped (fst out) = AudioSampler.stopped s.
Proof.
  intros Hch Hs Hpp Hb Hlen out.
  destruct (copyData_mono_loop s ad Hch Hlen) as (Hst & Hl & Hin & Hout).
  fold out in Hst, Hl, Hin, Hout.
  assert (Hn : Z.to_nat (AudioSampler.bufferSize s)
               = Z.to_nat (AudioSampler.sampleSize s) * n).
  { rewrite Hb, Z2Nat.inj_mul, Nat2Z.id by lia. reflexivity. }
  assert (Hc : length (concat (AudioSampler.ppAudioBuffer s))
               = Z.to_nat (AudioSampler.bufferSize s)).
  { destruct Hpp as [Hcount Hall].
    rewrite (length_concat_chunks _ _ Hall), Hcount, Hn. reflexivity. }
  split; [|split; [|exact Hst]].
  - rewrite <- Hc. rewrite <- length_duplicate. apply (overwrite_front f0).
    + rewrite length_duplicate, Hc. exact Hlen.
    + exact Hl.
    + intros q Hq. rewrite length_duplicate, Hc in Hq.
      rewrite Hin by exact Hq. rewrite nth_duplicate by (rewrite Hc; exact Hq).
      apply (sample_concat s n); [exact Hs | exact Hpp |].
      rewrite <- Hn. apply Nat.Div0.div_lt_upper_bound. lia.
    + intros q Hq. rewrite length_duplicate, Hc in Hq. apply Hout. exact Hq.
  - subst out. unfold AudioSampler.copyData.
    destruct (for_range _ _ _) as [st b]. reflexivity.
Qed.

Lemma copyData_mono_duplicates_witness :
  let s := AudioSampler.mk false true [[1%R]; [2%R]] [0%R] 1 1 2 in
  let ad := AudioData.mk [9%R; 9%R; 9%R; 9%R; 9%R] [] [] 0%R 0%R in
  AudioData.buffer (snd (AudioSampler.copyData s ad)) = [1%R; 1%R; 2%R; 2%R; 9%R].
Proof.
  intros s ad.
  destruct (copyData_mono_duplicates s ad 2) as (Hb & _).
  - reflexivity.
  - reflexivity.
  - split; [reflexivity | repeat constructor].
  - reflexivity.
  - simpl. lia.
  - exact Hb.
Defined.

(** X4. [copyData] with a channel count other than 1 and 2 copies nothing:
    the frame is returned as it was, [modified] is cleared, and [stopped] is
    set as soon as the loop runs at all, that is when [bufferSize > 0]; with
    [bufferSize = 0] the flag stays as it was. *)
Theorem copyData_unsupported_channels_stops {F : Type} `{FloatOps F}
  (s : AudioSampler.AudioSamplerImpl F) (ad : AudioData.t F) :
  AudioSampler.channels s <> 1%Z -> AudioSampler.channels s <> 2%Z ->
  let out := AudioSampler.copyData s ad in
  AudioData.buffer (snd out) = AudioData.buffer ad /\
  AudioData.lBuffer (snd out) = AudioData.lBuffer ad /\
  AudioData.rBuffer (snd out) = AudioData.rBuffer ad /\
  AudioSampler.modified (fst out) = false /\
  AudioSampler.stopped (fst out)
  = (AudioSampler.stopped s || (0 <? AudioSampler.bufferSize s)%Z).
Proof.
  intros H1 H2 out. subst out.
  rewrite (copyData_default_loop s ad H1 H2). repeat split.
Qed.

Lemma copyData_unsupported_channels_stops_witness :
  let s := AudioSampler.mk false true [[1%R; 2%R; 3%R]] [0%R; 0%R; 0%R] 3 3 3 in
  let ad := AudioData.mk [9%R; 9%R; 9%R] [] [] 0%R 0%R in
  AudioData.buffer (snd (AudioSampler.copyData s ad)) = [9%R; 9%R; 9%R] /\
  AudioSampler.stopped (fst (AudioSampler.copyData s ad)) = true.
Proof.
  intros s ad.
  destruct (copyData_unsupported_channels_stops s ad) as (Hb & _ & _ & _ & Hst).
  - discriminate.
  - discriminate.
  - split; [exact Hb | exact Hst].
Defined.

(** X5. [run] and [copyData] together, with two channels, [n >= 1] chunks
    of [sampleSize > 0] entries and [bufferSize = sampleSize * n]: the frame
    copied after a successful read is the frame copied before it, moved
    [sampleSize] entries to the left, with the [sampleSize] samples just read
    at its end. *)
Theorem copyData_after_read_slides_window {F : Type} `{FloatOps F}
  (s : AudioSampler.AudioSamplerImpl F) (ad : AudioData.t F) (n : nat) (data : list F) :
  AudioSampler.channels s = 2%Z ->
  (0 < AudioSampler.sampleSize s)%Z ->
  1 <= n ->
  chunks_of n (Z.to_nat (AudioSampler.sampleSize s)) (AudioSampler.ppAudioBuffer s) ->
  AudioSampler.bufferSize s = (AudioSampler.sampleSize s * Z.of_nat n)%Z ->
  (AudioSampler.bufferSize s < size_t_mod)%Z ->
  length data = Z.to_nat (AudioSampler.sampleSize s) ->
  Z.to_nat (AudioSampler.bufferSize s) <= length (AudioData.buffer ad) ->
  let size := Z.to_nat (AudioSampler.bufferSize s) in
  let before := AudioData.buffer (snd (AudioSampler.copyData s ad)) in
  let after :=
    AudioData.buffer
      (snd (AudioSampler.copyData (AudioSampler.run_step true data s) ad)) in
  firstn size after
  = skipn (Z.to_nat (AudioSampler.sampleSize s)) (firstn size before) ++ data.
Proof.
  intros Hch Hs Hn Hpp Hb Hmax Hdata Hlen size before after.
  assert (Hq : (AudioSampler.bufferSize s / AudioSampler.sampleSize s = Z.of_nat n)%Z).
  { rewrite Hb, Z.mul_comm. apply Z.div_mul. lia. }
  assert (Hsz : size = Z.to_nat (AudioSampler.sampleSize s) * n).
  { unfold size. rewrite Hb, Z2Nat.inj_mul, Nat2Z.id by lia. reflexivity. }
  destruct Hpp as [Hcount Hall].
  destruct (run_step_fields s data) as ((Hpp' & _) & Hch' & Hss' & Hbs').
  { rewrite Hq. unfold size_t_mod in *.
    assert (Z.of_nat n <= AudioSampler.bufferSize s)%Z by (rewrite Hb; nia). lia. }
  { rewrite Hq, Nat2Z.id. exact Hcount. }
  set (s' := AudioSampler.run_step true data s) in *.
  assert (Hall' : Forall (fun c => length c = Z.to_nat (AudioSampler.sampleSize s))
                         (AudioSampler.ppAudioBuffer s')).
  { rewrite Hpp'. apply Forall_app. split.
    - destruct (AudioSampler.ppAudioBuffer s) as [|c pp]; [constructor|].
      inversion Hall; assumption.
    - repeat constructor. exact Hdata. }
  assert (Hcount' : length (AudioSampler.ppAudioBuffer s') = n).
  { rewrite Hpp', length_app. destruct (AudioSampler.ppAudioBuffer s); simpl in *; lia. }
  unfold after, before.
  rewrite (copyData_stereo_buffer s' ad n), (copyData_stereo_buffer s ad n);
    try (rewrite ?Hch', ?Hss', ?Hbs'; first [assumption | split; assumption]).
  rewrite Hbs'. fold size.
  assert (Hc : length (concat (AudioSampler.ppAudioBuffer s)) = size).
  { rewrite (length_concat_chunks _ _ Hall), Hcount, Hsz. reflexivity. }
  assert (Hc' : length (concat (AudioSampler.ppAudioBuffer s')) = size).
  { rewrite (length_concat_chunks _ _ Hall'), Hcount', Hsz. reflexivity. }
  rewrite !firstn_app, Hc, Hc', Nat.sub_diag, !firstn_O, !app_nil_r.
  rewrite !firstn_all2 by lia.
  rewrite Hpp', concat_app. cbn [concat]. rewrite app_nil_r. f_equal.
  destruct (AudioSampler.ppAudioBuffer s) as [|c pp]; [simpl in Hcount; lia|].
  cbn [tl concat]. inversion Hall as [|? ? Hlc Hrest]; subst.
  rewrite skipn_app, <- Hlc, Nat.sub_diag, skipn_all, skipn_O. reflexivity.
Qed.

Lemma copyData_after_read_slides_window_witness :
  let s := AudioSampler.mk false false [[1%R; 2%R]; [3%R; 4%R]] [0%R; 0%R] 2 2 4 in
  let ad := AudioData.mk [9%R; 9%R; 9%R; 9%R] [] [] 0%R 0%R in
  firstn 4 (AudioData.buffer
              (snd (AudioSampler.copyData (AudioSampler.run_step true [5%R; 6%R] s) ad)))
  = skipn 2 (firstn 4 (AudioData.buffer (snd (AudioSampler.copyData s ad))))
    ++ [5%R; 6%R].
Proof.
  intros s ad.
  apply (copyData_after_read_slides_window s ad 2 [5%R; 6%R]).
  - reflexivity.
  - reflexivity.
  - lia.
  - split; [reflexivity | repeat constructor].
  - reflexivity.
  - reflexivity.
  - reflexivity.
  - simpl. lia.
Defined.

Section Ring.
Context {F : Type} `{FloatOps F}.

(** After any number of successful reads the ring holds the latest blocks,
    oldest first. *)
Lemma run_steps_ring (reads : list (list F)) (s : AudioSampler.AudioSamplerImpl F) :
  (1 <= AudioSampler.bufferSize s / AudioSampler.sampleSize s < size_t_mod)%Z ->
  length (AudioSampler.ppAudioBuffer s)
  = Z.to_nat (AudioSampler.bufferSize s / AudioSampler.sampleSize s) ->
  AudioSampler.ppAudioBuffer (run_steps reads s)
  = skipn (length reads) (AudioSampler.ppAudioBuffer s ++ reads).
Proof.
  revert s. induction reads as [|d ds IH]; intros s Hcount Hlen.
  - cbn [run_steps fold_left length skipn]. rewrite app_nil_r. reflexivity.
  - destruct (run_step_fields s d Hcount Hlen) as ((Hpp & _) & _ & Hss & Hbs).
    unfold run_steps in *. cbn [fold_left].
    rewrite IH.
    + rewrite Hpp.
      destruct (AudioSampler.ppAudioBuffer s) as [|c pp]; [simpl in Hlen; lia|].
      cbn [tl length skipn app]. rewrite <- app_assoc. reflexivity.
    + rewrite Hss, Hbs. exact Hcount.
    + rewrite Hss, Hbs, Hpp, length_app.
      destruct (AudioSampler.ppAudioBuffer s); simpl in *; lia.
Qed.

End Ring.

(** X6. The loop of [run] over any number of successful reads, for a ring
    of [n >= 1] chunks with [n = bufferSize / sampleSize]: the chunk list is
    then the old chunks followed by the blocks read, without its first
    [number of reads] entries; once [n] blocks have been read the ring holds
    the latest [n] of them, oldest first. *)
Theorem ring_holds_latest_blocks {F : Type} `{FloatOps F}
  (reads : list (list F)) (s : AudioSampler.AudioSamplerImpl F) :
  (1 <= AudioSampler.bufferSize s / AudioSampler.sampleSize s < size_t_mod)%Z ->
  length (AudioSampler.ppAudioBuffer s)
  = Z.to_nat (AudioSampler.bufferSize s / AudioSampler.sampleSize s) ->
  AudioSampler.ppAudioBuffer (run_steps reads s)
  = skipn (length reads) (AudioSampler.ppAudioBuffer s ++ reads) /\
  (length (AudioSampler.ppAudioBuffer s) <= length reads ->
   AudioSampler.ppAudioBuffer (run_steps reads s)
   = skipn (length reads - length (AudioSampler.ppAudioBuffer s)) reads).
Proof.
  intros Hcount Hlen.
  pose proof (run_steps_ring reads s Hcount Hlen) as E.
  split; [exact E|].
  intros Hle. rewrite E, skipn_app.
  rewrite skipn_all2 by exact Hle. reflexivity.
Qed.

Lemma ring_holds_latest_blocks_witness :
  let s := AudioSampler.mk false false [[1%R]; [2%R]] [0%R] 2 1 2 in
  AudioSampler.ppAudioBuffer (run_steps [[3%R]; [4%R]; [5%R]] s) = [[4%R]; [5%R]].
Proof.
  intros s.
  destruct (ring_holds_latest_blocks [[3%R]; [4%R]; [5%R]] s) as [E _].
  - vm_compute. split; [discriminate | reflexivity].
  - reflexivity.
  - exact E.
Defined.

Section SamplerInvariants.
Context {F : Type} `{FloatOps F}.

(** No pass of the loop of [copyData] clears [stopped]. *)
Lemma copyData_keeps_stopped (s : AudioSampler.AudioSamplerImpl F) (ad : AudioData.t F) :
  AudioSampler.stopped s = true ->
  AudioSampler.stopped (fst (AudioSampler.copyData s ad)) = true.
Proof.
  intros Hst. unfold AudioSampler.copyData.
  match goal with
  | |- context [for_range ?n ?body ?init] =>
      assert (Hinv : fst (for_range n body init) = true)
  end.
  { apply (for_range_inv (fun st : bool * list F => fst st = true)); [exact Hst|].
    intros i [st b] _ Hb. cbn [fst] in *.
    destruct (AudioSampler.channels s =? 1)%Z; [exact Hb|].
    destruct (AudioSampler.channels s =? 2)%Z; [exact Hb | reflexivity]. }
  destruct (for_range _ _ _) as [st b]. exact Hinv.
Qed.

Lemma run_step_keeps_stopped
  (ok : bool) (data : list F) (s : AudioSampler.AudioSamplerImpl F) :
  AudioSampler.stopped s = true ->
  AudioSampler.stopped (AudioSampler.run_step ok data s) = true.
Proof.
  intros Hst. destruct ok; [exact Hst | reflexivity].
Qed.

Lemma run_step_keeps_shape
  (data : list F) (s : AudioSampler.AudioSamplerImpl F) (size : nat) :
  (1 <= AudioSampler.bufferSize s / AudioSampler.sampleSize s < size_t_mod)%Z ->
  chunks_of (Z.to_nat (AudioSampler.bufferSize s / AudioSampler.sampleSize s)) size
            (AudioSampler.ppAudioBuffer s) ->
  length data = size ->
  let s' := AudioSampler.run_step true data s in
  chunks_of (Z.to_nat (AudioSampler.bufferSize s' / AudioSampler.sampleSize s')) size
            (AudioSampler.ppAudioBuffer s') /\
  length (AudioSampler.pSampleBuffer s') = size.
Proof.
  intros Hcount [Hlen Hall] Hdata s'.
  destruct (run_step_fields s data Hcount Hlen) as ((Hpp & Hsp) & _ & Hss & Hbs).
  fold s' in Hpp, Hsp, Hss, Hbs. rewrite Hss, Hbs, Hpp, Hsp.
  destruct (AudioSampler.ppAudioBuffer s) as [|c pp]; [simpl in Hlen; lia|].
  inversion Hall as [|? ? Hc Hrest]; subst.
  cbn [tl hd]. split; [split|].
  - rewrite length_app. simpl in *. lia.
  - apply Forall_app. split; [exact Hrest | repeat constructor].
  - exact Hc.
Qed.

End SamplerInvariants.

(** X7. What the sampler keeps.  A successful pass of the loop of [run]
    that reads a block of the chunks' size keeps the shape of the ring:
    [bufferSize/sampleSize >= 1] chunks of that size and a spare buffer of
    that size.  And [stopped], once set, stays set: neither [copyData], with
    whatever channel count, nor a pass of the loop of [run], successful or
    not, clears it. *)
Theorem sampler_keeps_shape_and_stopped {F : Type} `{FloatOps F}
  (ok : bool) (data : list F) (s : AudioSampler.AudioSamplerImpl F)
  (ad : AudioData.t F) (size : nat) :
  (1 <= AudioSampler.bufferSize s / AudioSampler.sampleSize s < size_t_mod)%Z ->
  chunks_of (Z.to_nat (AudioSampler.bufferSize s / AudioSampler.sampleSize s)) size
            (AudioSampler.ppAudioBuffer s) ->
  length data = size ->
  let s' := AudioSampler.run_step true data s in
  chunks_of (Z.to_nat (AudioSampler.bufferSize s' / AudioSampler.sampleSize s')) size
            (AudioSampler.ppAudioBuffer s') /\
  length (AudioSampler.pSampleBuffer s') = size /\
  (AudioSampler.stopped s = true ->
   AudioSampler.stopped (AudioSampler.run_step ok data s) = true /\
   AudioSampler.stopped (fst (AudioSampler.copyData s ad)) = true).
Proof.
  intros Hcount Hshape Hdata s'.
  destruct (run_step_keeps_shape data s size Hcount Hshape Hdata) as [Hs Hp].
  split; [exact Hs|]. split; [exact Hp|].
  intros Hst. split; [apply run_step_keeps_stopped | apply copyData_keeps_stopped];
    exact Hst.
Qed.

Lemma sampler_keeps_shape_and_stopped_witness :
  let s := AudioSampler.mk true false [[1%R; 2%R]; [3%R; 4%R]] [0%R; 0%R] 2 2 4 in
  let ad := AudioData.mk [9%R; 9%R; 9%R; 9%R] [] [] 0%R 0%R in
  chunks_of 2 2 (AudioSampler.ppAudioBuffer (AudioSampler.run_step true [5%R; 6%R] s)) /\
  AudioSampler.stopped (fst (AudioSampler.copyData s ad)) = true.
Proof.
  intros s ad.
  destruct (sampler_keeps_shape_and_stopped false [5%R; 6%R] s ad 2) as (Hs & _ & Hst).
  - vm_compute. split; [discriminate | reflexivity].
  - split; [reflexivity | repeat constructor].
  - reflexivity.
  - split; [exact Hs | apply Hst; reflexivity].
Defined.

(** * The stages as array transformers, in any arithmetic *)

Section PairedArrays.
Context {F : Type} `{FloatOps F}.

Lemma list_pair_ind {A} (P : list A -> Prop) :
  P [] -> (forall x, P [x]) -> (forall x y t, P t -> P (x :: y :: t)) ->
  forall l, P l.
Proof.
  intros H0 H1 H2. fix IH 1.
  intros [|x [|y t]]; [exact H0 | apply H1 | apply H2, IH].
Qed.

Lemma half_SS (n : nat) : S (S n) / 2 = S (n / 2).
Proof.
  replace (S (S n)) with (n + 1 * 2) by lia.
  rewrite Nat.div_add by lia. lia.
Qed.

Lemma as_complex_length (b : list F) : length (as_complex b) = length b / 2.
Proof.
  induction b as [| x | x y t IH] using list_pair_ind; try reflexivity.
  cbn [as_complex length]. rewrite IH, half_SS. reflexivity.
Qed.

Lemma nth_as_complex (b : list F) (n : nat) :
  2 * n + 1 < length b ->
  nth n (as_complex b) c0 = Cplx (nth (2 * n) b f0) (nth (2 * n + 1) b f0).
Proof.
  revert n. induction b as [| x | x y t IH] using list_pair_ind; intros n Hn;
    try (simpl in Hn; lia).
  destruct n as [|n]; [reflexivity|].
  cbn [as_complex nth]. cbn [length] in Hn. rewrite IH by lia.
  replace (2 * S n) with (S (S (2 * n))) by lia.
  replace (S (S (2 * n)) + 1) with (S (S (2 * n + 1))) by lia.
  reflexivity.
Qed.

Lemma length_interleave (c : list (complex F)) :
  length (flat_map (fun z => [re z; im z]) c) = 2 * length c.
Proof.
  induction c as [|z c IH]; [reflexivity|].
  cbn [flat_map app length]. rewrite IH. lia.
Qed.

Lemma nth_interleave (c : list (complex F)) (n : nat) :
  n < length c ->
  nth (2 * n) (flat_map (fun z => [re z; im z]) c) f0 = re (nth n c c0) /\
  nth (2 * n + 1) (flat_map (fun z => [re z; im z]) c) f0 = im (nth n c c0).
Proof.
  revert n; induction c as [|z c IH]; intros n Hn; [simpl in Hn; lia|].
  destruct n as [|n]; [split; reflexivity|].
  cbn [length] in Hn. destruct (IH n ltac:(lia)) as [Hre Him].
  replace (2 * S n) with (S (S (2 * n))) by lia.
  replace (S (S (2 * n)) + 1) with (S (S (2 * n + 1))) by lia.
  cbn [flat_map app nth]. split; assumption.
Qed.

Lemma as_floats_length (c : list (complex F)) (old : list F) :
  2 * length c <= length old -> length (as_floats c old) = length old.
Proof.
  intros Hle. unfold as_floats.
  rewrite length_app, length_interleave, length_skipn. lia.
Qed.

Lemma nth_as_floats (c : list (complex F)) (old : list F) (n : nat) :
  n < length c ->
  nth (2 * n) (as_floats c old) f0 = re (nth n c c0) /\
  nth (2 * n + 1) (as_floats c old) f0 = im (nth n c c0).
Proof.
  intros Hn. unfold as_floats.
  rewrite !app_nth1 by (rewrite length_interleave; lia).
  apply nth_interleave. exact Hn.
Qed.

Lemma nth_as_floats_tail (c : list (complex F)) (old : list F) (q : nat) :
  2 * length c <= q -> nth q (as_floats c old) f0 = nth q old f0.
Proof.
  intros Hq. unfold as_floats.
  rewrite app_nth2 by (rewrite length_interleave; lia).
  rewrite length_interleave, nth_skipn_shift. f_equal. lia.
Qed.

Lemma half_le (n : nat) : 2 * (n / 2) <= n.
Proof. apply Nat.Div0.mul_div_le. Qed.

End PairedArrays.

Section WindowFacts.
Context {F : Type} `{FloatOps F}.

(** The mono branch: sample [n] is multiplied by the window's value at [n]. *)
Lemma windowFunction_mono_spec (p : ProccessImpl F) (ad : AudioData.t F) :
  channels p = 1%Z ->
  let n := Z.to_nat (inputSize p) in
  let out := AudioData.buffer (windowFunction p ad) in
  length out = length (AudioData.buffer ad) /\
  (forall i, i < n -> i < length (AudioData.buffer ad) ->
     nth i out f0 = fmul (nth i (AudioData.buffer ad) f0) (window p i)) /\
  (forall i, n <= i -> nth i out f0 = nth i (AudioData.buffer ad) f0).
Proof.
  intros Hch n out. subst out. unfold windowFunction. rewrite Hch.
  cbn [Z.eqb Pos.eqb AudioData.buffer]. fold n.
  apply (for_range_upd1 (fun i x => fmul x (window p i)) f0 n (AudioData.buffer ad)).
Qed.

(** The stereo branch: the two floats of frame [n] are multiplied by the
    window's value at [n]. *)
Lemma windowFunction_stereo_spec (p : ProccessImpl F) (ad : AudioData.t F) :
  channels p <> 1%Z ->
  let n := Z.to_nat (inputSize p) in
  let out := AudioData.buffer (windowFunction p ad) in
  2 * n <= length (AudioData.buffer ad) ->
  length out = length (AudioData.buffer ad) /\
  (forall i, i < n ->
     nth (2 * i) out f0 = fmul (window p i) (nth (2 * i) (AudioData.buffer ad) f0) /\
     nth (2 * i + 1) out f0
     = fmul (window p i) (nth (2 * i + 1) (AudioData.buffer ad) f0)) /\
  (forall q, 2 * n <= q -> nth q out f0 = nth q (AudioData.buffer ad) f0).
Proof.
  intros Hch n out Hlen. subst out. unfold windowFunction.
  apply Z.eqb_neq in Hch. rewrite Hch. cbn [AudioData.buffer]. fold n.
  set (b := AudioData.buffer ad) in *.
  destruct (for_range_upd1 (fun i z => cscale (window p i) z) c0 n (as_complex b))
    as (Hl & Hin & Hout).
  set (c' := for_range n _ (as_complex b)) in *.
  pose proof (as_complex_length b) as Hc. pose proof (half_le (length b)) as Hh.
  assert (Hn : n <= length b / 2).
  { apply Nat.div_le_lower_bound; lia. }
  split; [apply as_floats_length; lia|]. split.
  - intros i Hi.
    destruct (nth_as_floats c' b i ltac:(lia)) as [Ere Eim].
    rewrite Ere, Eim, Hin by lia.
    assert (Hi2 : 2 * i + 1 < length b) by lia.
    rewrite (nth_as_complex b i Hi2). split; reflexivity.
  - intros q Hq. destruct (Nat.lt_ge_cases q (2 * length c')) as [Hlt|Hge].
    + pose proof (Nat.div_mod_eq q 2) as Eq.
      pose proof (Nat.mod_upper_bound q 2 ltac:(lia)) as Hm.
      assert (Hq2 : q / 2 < length c') by lia.
      destruct (nth_as_floats c' b (q / 2) Hq2) as [Ere Eim].
      rewrite Hout in Ere, Eim by lia.
      rewrite (nth_as_complex b (q / 2)) in Ere, Eim by lia.
      cbn [re im] in Ere, Eim.
      destruct (Nat.eq_dec (q mod 2) 0) as [E0|E1].
      * assert (Eq' : q = 2 * (q / 2)) by lia. rewrite Eq'. exact Ere.
      * assert (Eq' : q = 2 * (q / 2) + 1) by lia. rewrite Eq'. exact Eim.
    + apply nth_as_floats_tail. exact Hge.
Qed.

Lemma windowFunction_buffer_length (p : ProccessImpl F) (ad : AudioData.t F) :
  length (AudioData.buffer (windowFunction p ad)) = length (AudioData.buffer ad).
Proof.
  unfold windowFunction. cbn [AudioData.buffer]. destruct (channels p =? 1)%Z.
  - apply (for_range_inv (fun a => length a = length (AudioData.buffer ad))).
    + reflexivity.
    + intros i a _ Ha. rewrite upd_length. exact Ha.
  - apply as_floats_length.
    rewrite (for_range_inv
               (fun a => length a = length (as_complex (AudioData.buffer ad)))).
    + rewrite as_complex_length. apply half_le.
    + reflexivity.
    + intros i a _ Ha. rewrite upd_length. exact Ha.
Qed.

End WindowFacts.

Section LengthFacts.
Context {F : Type} `{FloatOps F}.

Lemma bitReverseShuffle_length {A} (d : A) (first : list A) (size : nat) :
  length (bitReverseShuffle d first size) = length first.
Proof.
  unfold bitReverseShuffle.
  apply (for_range_inv (fun a => length a = length first)); [reflexivity|].
  intros i a _ Ha. cbv zeta. destruct (i <? _); [|exact Ha].
  unfold swap. rewrite !upd_length. exact Ha.
Qed.

Lemma fft_block_length (m k : nat) (wm : complex F) (first : list (complex F)) :
  length (fft_block m k wm first) = length first.
Proof.
  unfold fft_block.
  apply (for_range_inv (fun st => length (snd st) = length first)); [reflexivity|].
  intros j [w a] _ Ha. cbn [snd] in *. unfold butterfly. rewrite !upd_length. exact Ha.
Qed.

Lemma fft_stage_length (size m : nat) (first : list (complex F)) :
  length (fft_stage size m first) = length first.
Proof.
  unfold fft_stage.
  apply (for_range_inv (fun a => length a = length first)); [reflexivity|].
  intros b a _ Ha. rewrite fft_block_length. exact Ha.
Qed.

(** The transform never changes the length of the array, whatever the
    size it is called with. *)
Lemma fft_length_any (first : list (complex F)) (size : nat) :
  length (fft first size) = length first.
Proof.
  unfold fft. rewrite <- (bitReverseShuffle_length c0 first size).
  generalize (bitReverseShuffle c0 first size) as a.
  induction (seq 1 (Nat.log2 size)) as [|s ss IH]; intros a; [reflexivity|].
  cbn [fold_left]. rewrite IH. apply fft_stage_length.
Qed.

Lemma magnitudes_lengths (p : ProccessImpl F) (ad : AudioData.t F) :
  let out := magnitudes p ad in
  length (AudioData.buffer out) = length (AudioData.buffer ad) /\
  length (AudioData.lBuffer out) = length (AudioData.lBuffer ad) /\
  length (AudioData.rBuffer out) = length (AudioData.rBuffer ad).
Proof.
  unfold magnitudes.
  set (l0 := AudioData.lBuffer ad). set (r0 := AudioData.rBuffer ad).
  set (P := fun lr : list F * list F =>
              length (fst lr) = length l0 /\ length (snd lr) = length r0).
  assert (Hm : P (magnitudes_mono p
                    (fft (as_complex (AudioData.buffer ad)) (Z.to_nat (inputSize p / 2)))
                    (l0, r0))).
  { unfold magnitudes_mono. apply for_range_inv; [split; reflexivity|].
    intros k [l r] _ [Hl Hr]. unfold P in *. cbn [fst snd] in *.
    rewrite !upd_length. split; assumption. }
  assert (Hs : P (magnitudes_stereo p
                    (fft (as_complex (AudioData.buffer ad)) (Z.to_nat (inputSize p)))
                    (l0, r0))).
  { unfold magnitudes_stereo. apply for_range_inv; [split; reflexivity|].
    intros k [l r] _ [Hl Hr]. unfold P in *. cbn [fst snd] in *.
    rewrite !upd_length. split; assumption. }
  assert (Hb : forall size,
             length (as_floats (fft (as_complex (AudioData.buffer ad)) size)
                               (AudioData.buffer ad))
             = length (AudioData.buffer ad)).
  { intros size. apply as_floats_length.
    rewrite fft_length_any, as_complex_length. apply half_le. }
  destruct (channels p =? 1)%Z.
  - destruct (magnitudes_mono p _ _) as [l r]. destruct Hm as [Hl Hr].
    cbn [fst snd AudioData.buffer AudioData.lBuffer AudioData.rBuffer] in *.
    rewrite !upd_length. auto.
  - destruct (magnitudes_stereo p _ _) as [l r]. destruct Hs as [Hl Hr].
    cbn [fst snd AudioData.buffer AudioData.lBuffer AudioData.rBuffer] in *.
    rewrite !upd_length. auto.
Qed.

(** The slots behind the smoothed ones keep what the object's buffers
    held. *)
Lemma kernelSmooth_tail (p : ProccessImpl F) (ad : AudioData.t F) (i : nat) :
  Z.to_nat (smoothedSize p) <= i ->
  let out := snd (kernelSmooth p ad) in
  nth i (AudioData.lBuffer out) f0 = nth i (lBuffer p) f0 /\
  nth i (AudioData.rBuffer out) f0 = nth i (rBuffer p) f0.
Proof.
  intros Hi. unfold kernelSmooth.
  set (src_l := AudioData.lBuffer ad). set (src_r := AudioData.rBuffer ad).
  pose (g := fun (i : nat) (_ : F) =>
               fdiv (fst (fst (kernel_sums p src_l src_r i))) (snd (kernel_sums p src_l src_r i))).
  pose (h := fun (i : nat) (_ : F) =>
               fdiv (snd (fst (kernel_sums p src_l src_r i))) (snd (kernel_sums p src_l src_r i))).
  rewrite (for_range_ext _ _
             (fun i '(l, r) => (upd l i (g i (nth i l f0)), upd r i (h i (nth i r f0))))).
  2:{ intros k [l r] _. unfold g, h.
      destruct (kernel_sums p src_l src_r k) as [[vl vr] sum]. reflexivity. }
  pose proof (for_range_upd2 g h f0 (Z.to_nat (smoothedSize p)) (lBuffer p) (rBuffer p))
    as (_ & _ & _ & _ & Hkl & Hkr).
  destruct (for_range _ _ (lBuffer p, rBuffer p)) as [l r]. simpl in *.
  split; [apply Hkl | apply Hkr]; exact Hi.
Qed.

(** What [kernelSmooth] leaves in the object: the caller's arrays and the
    configuration it had. *)
Lemma kernelSmooth_object (p : ProccessImpl F) (ad : AudioData.t F) :
  fst (kernelSmooth p ad)
  = mkImpl (AudioData.lBuffer ad) (AudioData.rBuffer ad) (inputSize p) (channels p)
           (amplitude p) (wfCoeff p) (smoothedSize p) (smoothingFactor p).
Proof.
  unfold kernelSmooth. destruct (for_range _ _ _) as [l r]. reflexivity.
Qed.

Lemma kernelSmooth_frame (p : ProccessImpl F) (ad : AudioData.t F) :
  let out := snd (kernelSmooth p ad) in
  AudioData.buffer out = AudioData.buffer ad /\
  AudioData.lVolume out = AudioData.lVolume ad /\
  AudioData.rVolume out = AudioData.rVolume ad.
Proof.
  unfold kernelSmooth. destruct (for_range _ _ _) as [l r]. repeat split.
Qed.

Lemma equalise_buffer (p : ProccessImpl F) (ad : AudioData.t F) :
  AudioData.buffer (equalise p ad) = AudioData.buffer ad.
Proof. unfold equalise. destruct (for_range _ _ _) as [l r]. reflexivity. Qed.

(** The spectrum the smoother reads: the frame after the first three
    stages. *)
Lemma proccessSignal_unfold (p : ProccessImpl F) (ad : AudioData.t F) :
  proccessSignal p ad
  = let spectrum :=
      calculateVolume p (equalise p (magnitudes p (windowFunction p ad))) in
    if f_isnan (smoothingFactor p) then (p, spectrum) else kernelSmooth p spectrum.
Proof.
  unfold proccessSignal, smooth. cbv zeta.
  destruct (f_isnan (smoothingFactor p)); reflexivity.
Qed.

End LengthFacts.




(** * Exact arithmetic: the window *)

Section ExactWindow.
Open Scope R_scope.

Lemma window_exact (p : ProccessImpl R) (n : nat) :
  window p n = sin (wfCoeff p * INR n) * sin (wfCoeff p * INR n).
Proof.
  unfold window. cbn [fmul fsin f_of_Z exact_ops]. rewrite <- INR_IZR_INZ. reflexivity.
Qed.

Lemma window_bounds (p : ProccessImpl R) (n : nat) : 0 <= window p n <= 1.
Proof.
  rewrite window_exact. set (x := wfCoeff p * INR n).
  pose proof (sin2_cos2 x) as Hu. unfold Rsqr in Hu.
  pose proof (Rle_0_sqr (sin x)) as Hs. pose proof (Rle_0_sqr (cos x)) as Hc.
  unfold Rsqr in Hs, Hc. lra.
Qed.

Lemma wfCoeff_exact (settings : ProccessSettings.t R) :
  (1 <= ProccessSettings.inputSize settings < size_t_mod)%Z ->
  wfCoeff (ProccessImpl_new settings) = PI / IZR (ProccessSettings.inputSize settings - 1).
Proof.
  intros HN. unfold ProccessImpl_new. cbn [wfCoeff fdiv f_pi f_of_Z exact_ops].
  rewrite Z.mod_small by lia. reflexivity.
Qed.

Lemma sin_sqr_half_angle (x : R) : sin x * sin x = (1 - cos (2 * x)) / 2.
Proof. rewrite cos_2a_sin. field. Qed.

Lemma window_hann (settings : ProccessSettings.t R) (n : nat) :
  (2 <= ProccessSettings.inputSize settings < size_t_mod)%Z ->
  window (ProccessImpl_new settings) n = hann (ProccessSettings.inputSize settings) n.
Proof.
  intros HN. rewrite window_exact, wfCoeff_exact by lia.
  rewrite sin_sqr_half_angle. unfold hann. f_equal. f_equal. f_equal.
  unfold Rdiv. ring.
Qed.

Lemma window_first (p : ProccessImpl R) : window p 0 = 0.
Proof.
  rewrite window_exact. simpl INR. rewrite Rmult_0_r, sin_0. ring.
Qed.

Lemma window_last (settings : ProccessSettings.t R) :
  (2 <= ProccessSettings.inputSize settings < size_t_mod)%Z ->
  window (ProccessImpl_new settings)
         (Z.to_nat (ProccessSettings.inputSize settings - 1)) = 0.
Proof.
  intros HN. rewrite window_exact, wfCoeff_exact by lia.
  rewrite INR_IZR_INZ, Z2Nat.id by lia.
  assert (Hne : IZR (ProccessSettings.inputSize settings - 1) <> 0).
  { apply not_0_IZR. lia. }
  replace (PI / IZR (ProccessSettings.inputSize settings - 1)
           * IZR (ProccessSettings.inputSize settings - 1)) with PI by (field; exact Hne).
  rewrite sin_PI. ring.
Qed.

Lemma window_symmetric (settings : ProccessSettings.t R) (n : nat) :
  (2 <= ProccessSettings.inputSize settings < size_t_mod)%Z ->
  (n <= Z.to_nat (ProccessSettings.inputSize settings - 1))%nat ->
  window (ProccessImpl_new settings)
         (Z.to_nat (ProccessSettings.inputSize settings - 1) - n)
  = window (ProccessImpl_new settings) n.
Proof.
  intros HN Hn. rewrite !window_exact, wfCoeff_exact by lia.
  rewrite minus_INR by exact Hn.
  rewrite (INR_IZR_INZ (Z.to_nat _)), Z2Nat.id by lia.
  assert (Hne : IZR (ProccessSettings.inputSize settings - 1) <> 0).
  { apply not_0_IZR. lia. }
  replace (PI / IZR (ProccessSettings.inputSize settings - 1)
           * (IZR (ProccessSettings.inputSize settings - 1) - INR n))
    with (PI - PI / IZR (ProccessSettings.inputSize settings - 1) * INR n)
    by (field; exact Hne).
  rewrite sin_PI_x. reflexivity.
Qed.

Lemma Rabs_scale_le (w x : R) : 0 <= w <= 1 -> Rabs (w * x) <= Rabs x.
Proof.
  intros [H0 H1]. rewrite Rabs_mult, (Rabs_right w) by lra.
  pose proof (Rabs_pos x). nra.
Qed.

End ExactWindow.

(** X10. In exact arithmetic, for an object constructed with
    [2 <= inputSize < 2^64]: the factor [pow(sinf(wfCoeff * n), 2)] is the
    Hann window [(1 - cos(2 pi n / (inputSize - 1))) / 2]; it lies in [0, 1],
    is zero at the first sample and at sample [inputSize - 1], and has the
    same value at [n] and at [inputSize - 1 - n]. *)
Theorem window_is_hann (settings : ProccessSettings.t R) (n : nat) :
  (2 <= ProccessSettings.inputSize settings < size_t_mod)%Z ->
  let p := ProccessImpl_new settings in
  let last := Z.to_nat (ProccessSettings.inputSize settings - 1) in
  window p n = hann (ProccessSettings.inputSize settings) n /\
  (0 <= window p n <= 1)%R /\
  window p 0 = 0%R /\
  window p last = 0%R /\
  (n <= last -> window p (last - n) = window p n).
Proof.
  intros HN p last.
  split; [apply window_hann; exact HN|].
  split; [apply window_bounds|].
  split; [apply window_first|].
  split; [apply window_last; exact HN|].
  intros Hn. apply window_symmetric; assumption.
Qed.

Lemma window_is_hann_witness :
  window impl_exact_quarter 1 = hann 1024 1 /\
  window impl_exact_quarter 1023 = 0%R /\
  window impl_exact_quarter (1023 - 1) = window impl_exact_quarter 1.
Proof.
  destruct (window_is_hann (settings_exact 1024 64 2 1 (1 / 4)) 1)
    as (Hh & _ & _ & Hl & Hs).
  - vm_compute. split; [discriminate | reflexivity].
  - split; [exact Hh|]. split; [exact Hl|]. apply Hs. simpl. lia.
Defined.

(** X11. [windowFunction] in exact arithmetic, with [per = 1] float per
    frame in mono and [per = 2] otherwise, on a sample buffer of at least
    [per * inputSize] floats: float [q] below [per * inputSize] is multiplied
    by the window's value at its frame [q / per], so both channels of a stereo
    frame get the same factor; the floats behind are untouched; no float
    grows in absolute value; and the spectrum arrays and volumes are not
    touched. *)
Theorem windowFunction_scales_frames
  (p : ProccessImpl R) (ad : AudioData.t R) :
  let per := if (channels p =? 1)%Z then 1 else 2 in
  let n := Z.to_nat (inputSize p) in
  let out := windowFunction p ad in
  per * n <= length (AudioData.buffer ad) ->
  length (AudioData.buffer out) = length (AudioData.buffer ad) /\
  (forall q, q < per * n ->
     nth q (AudioData.buffer out) 0%R
     = (window p (q / per) * nth q (AudioData.buffer ad) 0)%R) /\
  (forall q, per * n <= q ->
     nth q (AudioData.buffer out) 0%R = nth q (AudioData.buffer ad) 0%R) /\
  (forall q, (Rabs (nth q (AudioData.buffer out) 0) <= Rabs (nth q (AudioData.buffer ad) 0))%R) /\
  AudioData.lBuffer out = AudioData.lBuffer ad /\
  AudioData.rBuffer out = AudioData.rBuffer ad /\
  AudioData.lVolume out = AudioData.lVolume ad /\
  AudioData.rVolume out = AudioData.rVolume ad.
Proof.
  intros per n out Hlen.
  assert (Hspec :
    length (AudioData.buffer out) = length (AudioData.buffer ad) /\
    (forall q, q < per * n ->
       nth q (AudioData.buffer out) 0%R
       = (window p (q / per) * nth q (AudioData.buffer ad) 0)%R) /\
    (forall q, per * n <= q ->
       nth q (AudioData.buffer out) 0%R = nth q (AudioData.buffer ad) 0%R)).
  { subst per out. destruct (Z.eqb_spec (channels p) 1) as [Hch|Hch].
    - destruct (windowFunction_mono_spec p ad Hch) as (Hl & Hin & Hout).
      fold n in Hin, Hout. change (@f0 R exact_ops) with 0%R in Hin, Hout.
      split; [exact Hl|]. split.
      + intros q Hq. rewrite Nat.div_1_r, Hin by lia.
        cbn [fmul exact_ops]. ring.
      + intros q Hq. apply Hout. lia.
    - destruct (windowFunction_stereo_spec p ad Hch Hlen) as (Hl & Hin & Hout).
      fold n in Hin, Hout. change (@f0 R exact_ops) with 0%R in Hin, Hout.
      split; [exact Hl|]. split.
      + intros q Hq.
        pose proof (Nat.div_mod_eq q 2) as Eq.
        pose proof (Nat.mod_upper_bound q 2 ltac:(lia)) as Hm.
        destruct (Hin (q / 2)) as [Ee Eo]; [lia|].
        destruct (Nat.eq_dec (q mod 2) 0) as [E0|E1].
        * assert (Eq' : q = 2 * (q / 2)) by lia.
          rewrite Eq' at 1 3. exact Ee.
        * assert (Eq' : q = 2 * (q / 2) + 1) by lia.
          rewrite Eq' at 1 3. exact Eo.
      + exact Hout. }
  destruct Hspec as (Hl & Hin & Hout).
  split; [exact Hl|]. split; [exact Hin|]. split; [exact Hout|].
  split; [|repeat split].
  intros q. destruct (Nat.lt_ge_cases q (per * n)) as [Hlt|Hge].
  - rewrite Hin by exact Hlt. apply Rabs_scale_le, window_bounds.
  - rewrite Hout by exact Hge. apply Rle_refl.
Qed.

Lemma windowFunction_scales_frames_witness :
  let ad := AudioData.mk [1%R; 2%R; 3%R; 4%R; 5%R; 6%R; 7%R; 8%R] [] [] 0%R 0%R in
  nth 3 (AudioData.buffer (windowFunction impl_exact_mono ad)) 0%R
  = (window impl_exact_mono 3 * 4)%R.
Proof.
  intros ad.
  destruct (windowFunction_scales_frames impl_exact_mono ad) as (_ & Hin & _).
  - simpl. lia.
  - exact (Hin 3%nat ltac:(simpl; lia)).
Defined.

(** * The transform: round trips and linearity *)

Section ShuffleTwice.
Context {A : Type} (d : A).

Lemma bitReverseShuffle_twice (k : nat) (first : list A) :
  k < 16 -> 2 ^ k <= length first ->
  bitReverseShuffle d (bitReverseShuffle d first (2 ^ k)) (2 ^ k) = first.
Proof.
  intros Hk Hlen.
  destruct (bitReverseShuffle_nth d k first Hk Hlen) as (Hl1 & Hin1 & Hout1).
  set (once := bitReverseShuffle d first (2 ^ k)) in *.
  destruct (bitReverseShuffle_nth d k once Hk ltac:(lia)) as (Hl2 & Hin2 & Hout2).
  apply (nth_ext _ _ d d); [lia|].
  intros q _. destruct (Nat.lt_ge_cases q (2 ^ k)) as [Hlt|Hge].
  - rewrite Hin2 by exact Hlt. rewrite Hin1 by apply reverseBits_lt.
    rewrite reverseBits_involutive by exact Hlt. reflexivity.
  - rewrite Hout2, Hout1 by exact Hge. reflexivity.
Qed.

End ShuffleTwice.

Section Linearity.
Open Scope R_scope.

Lemma nth_signal_add (x y : list (complex R)) (t : nat) :
  (t < length x)%nat -> length x = length y ->
  nth t (signal_add x y) c0 = cadd (nth t x c0) (nth t y c0).
Proof.
  intros Ht Hlen. unfold signal_add.
  rewrite (nth_map_in_range _ _ _ _ (c0, c0))
    by (rewrite length_combine; lia).
  rewrite combine_nth by exact Hlen. reflexivity.
Qed.

Lemma nth_signal_scale (c : complex R) (x : list (complex R)) (t : nat) :
  (t < length x)%nat -> nth t (signal_scale c x) c0 = cmul c (nth t x c0).
Proof.
  intros Ht. unfold signal_scale. apply nth_map_in_range. exact Ht.
Qed.

Lemma dft_add (x y : list (complex R)) (N j : nat) :
  length x = N -> length y = N ->
  dft (signal_add x y) N j = cadd (dft x N j) (dft y N j).
Proof.
  intros Hx Hy. unfold dft. rewrite <- Csum_add. apply Csum_ext.
  intros t Ht. rewrite nth_signal_add by lia. ring.
Qed.

Lemma dft_scale (c : complex R) (x : list (complex R)) (N j : nat) :
  length x = N -> dft (signal_scale c x) N j = cmul c (dft x N j).
Proof.
  intros Hx. unfold dft. rewrite <- Csum_scale. apply Csum_ext.
  intros t Ht. rewrite nth_signal_scale by lia. ring.
Qed.

Lemma fft_add (x y : list (complex R)) (k : nat) :
  (k < 16)%nat -> length x = (2 ^ k)%nat -> length y = (2 ^ k)%nat ->
  fft (signal_add x y) (2 ^ k) = signal_add (fft x (2 ^ k)) (fft y (2 ^ k)).
Proof.
  intros Hk Hx Hy.
  assert (Hs : length (signal_add x y) = (2 ^ k)%nat).
  { unfold signal_add. rewrite length_map, length_combine. lia. }
  pose proof (fft_length x k Hk Hx) as Hfx. pose proof (fft_length y k Hk Hy) as Hfy.
  apply (nth_ext _ _ c0 c0).
  - rewrite (fft_length _ k Hk Hs). unfold signal_add.
    rewrite length_map, length_combine. lia.
  - intros j Hj. rewrite (fft_length _ k Hk Hs) in Hj.
    rewrite nth_signal_add by lia.
    rewrite !fft_nth by assumption. apply dft_add; assumption.
Qed.

Lemma fft_scale (c : complex R) (x : list (complex R)) (k : nat) :
  (k < 16)%nat -> length x = (2 ^ k)%nat ->
  fft (signal_scale c x) (2 ^ k) = signal_scale c (fft x (2 ^ k)).
Proof.
  intros Hk Hx.
  assert (Hs : length (signal_scale c x) = (2 ^ k)%nat).
  { unfold signal_scale. rewrite length_map. exact Hx. }
  pose proof (fft_length x k Hk Hx) as Hfx.
  apply (nth_ext _ _ c0 c0).
  - rewrite (fft_length _ k Hk Hs). unfold signal_scale. rewrite length_map. lia.
  - intros j Hj. rewrite (fft_length _ k Hk Hs) in Hj.
    rewrite nth_signal_scale by lia.
    rewrite !fft_nth by assumption. apply dft_scale; assumption.
Qed.

End Linearity.

Section Tones.
Open Scope R_scope.

Lemma length_tone (N q : nat) : length (tone N q) = N.
Proof. unfold tone. rewrite length_map, length_seq. reflexivity. Qed.

(** A sample of the tone is the conjugate of a power of the twiddle
    factor. *)
Lemma tone_nth (N q t : nat) :
  (t < N)%nat -> nth t (tone N q) c0 = conj (cpow (twiddle N) (q * t)).
Proof.
  intros Ht. unfold tone.
  rewrite (nth_map_in_range _ _ _ _ 0%nat) by (rewrite length_seq; exact Ht).
  rewrite seq_nth by exact Ht. cbn [Nat.add].
  rewrite cexp_imaginary, twiddle_pow, mult_INR. unfold conj.
  cbn [re im fneg exact_ops].
  replace (INR q * INR t * (- 2 * PI / INR N)) with (- (2 * PI * INR q * INR t / INR N))
    by (unfold Rdiv; ring).
  rewrite cos_neg, sin_neg. f_equal. ring.
Qed.

Lemma dft_tone (k q j : nat) :
  (q < 2 ^ k)%nat -> (j < 2 ^ k)%nat ->
  dft (tone (2 ^ k) q) (2 ^ k) j = if Nat.eqb j q then cof (INR (2 ^ k)) else c0.
Proof.
  intros Hq Hj. rewrite dft_powers, <- (twiddle_orthogonal k j q Hj Hq).
  apply Csum_ext. intros t Ht. rewrite tone_nth by exact Ht. ring.
Qed.

End Tones.

(** X12. For [size = 2^k] with [k < 16]: [reverseBits(., k)] applied twice
    gives back every index below [size], and [bitReverseShuffle] applied
    twice gives back every array of at least [size] elements. *)
Theorem bitReverseShuffle_involutive {A : Type} (d : A) (k : nat) (first : list A) :
  k < 16 -> 2 ^ k <= length first ->
  (forall i, i < 2 ^ k ->
     reverseBits i k < 2 ^ k /\ reverseBits (reverseBits i k) k = i) /\
  bitReverseShuffle d (bitReverseShuffle d first (2 ^ k)) (2 ^ k) = first.
Proof.
  intros Hk Hlen. split.
  - intros i Hi. split; [apply reverseBits_lt | apply reverseBits_involutive; exact Hi].
  - apply bitReverseShuffle_twice; assumption.
Qed.

Lemma bitReverseShuffle_involutive_witness :
  reverseBits (reverseBits 3 3) 3 = 3 /\
  bitReverseShuffle 0 (bitReverseShuffle 0 [10; 11; 12; 13; 14; 15; 16; 17; 18] 8) 8
  = [10; 11; 12; 13; 14; 15; 16; 17; 18].
Proof.
  destruct (bitReverseShuffle_involutive 0 3 [10; 11; 12; 13; 14; 15; 16; 17; 18])
    as [Hr Hs].
  - lia.
  - simpl. lia.
  - split; [apply Hr; simpl; lia | exact Hs].
Defined.

(** X13. In exact arithmetic, for [size = 2^k] with [k < 16]: [fft] is
    linear.  The transform of the entrywise sum of two arrays of [size]
    samples is the entrywise sum of their transforms, and the transform of an
    array multiplied by a complex constant is the transform multiplied by
    that constant. *)
Theorem fft_linear (c : complex R) (x y : list (complex R)) (k : nat) :
  k < 16 -> length x = 2 ^ k -> length y = 2 ^ k ->
  fft (signal_add x y) (2 ^ k) = signal_add (fft x (2 ^ k)) (fft y (2 ^ k)) /\
  fft (signal_scale c x) (2 ^ k) = signal_scale c (fft x (2 ^ k)).
Proof.
  intros Hk Hx Hy. split; [apply fft_add | apply fft_scale]; assumption.
Qed.

Lemma fft_linear_witness :
  fft (signal_add impulse4 impulse4) 4 = signal_add (fft impulse4 4) (fft impulse4 4).
Proof.
  destruct (fft_linear c1 impulse4 impulse4 2) as [Ha _].
  - lia.
  - reflexivity.
  - reflexivity.
  - exact Ha.
Defined.

(** X14. In exact arithmetic, for [size = 2^k] with [k < 16] and a
    frequency [q] below [size]: the transform of the complex exponential
    [exp(2 pi i q t / size)] is [size] at bin [q] and zero at every other
    bin. *)
Theorem fft_of_tone_is_one_bin (k q j : nat) :
  k < 16 -> q < 2 ^ k -> j < 2 ^ k ->
  nth j (fft (tone (2 ^ k) q) (2 ^ k)) c0
  = if Nat.eqb j q then cof (INR (2 ^ k)) else c0.
Proof.
  intros Hk Hq Hj.
  rewrite (fft_nth (tone (2 ^ k) q) k Hk (length_tone _ _) j Hj).
  apply dft_tone; assumption.
Qed.

Lemma fft_of_tone_is_one_bin_witness :
  nth 1 (fft (tone 8 1) 8) c0 = cof (INR 8) /\ nth 2 (fft (tone 8 1) 8) c0 = c0.
Proof.
  split.
  - exact (fft_of_tone_is_one_bin 3 1 1 ltac:(lia) ltac:(simpl; lia) ltac:(simpl; lia)).
  - exact (fft_of_tone_is_one_bin 3 1 2 ltac:(lia) ltac:(simpl; lia) ltac:(simpl; lia)).
Defined.

(** * What the demultiplexer computes *)

Section MagnitudesValues.
Context {F : Type} `{FloatOps F}.

Lemma magnitudes_stereo_values
  (p : ProccessImpl F) (input : list (complex F)) (l r : list F) (i : nat) :
  let half := Z.to_nat (inputSize p / 2) in
  let n := Z.to_nat (inputSize p) in
  let res := magnitudes_stereo p input (l, r) in
  half <= length l -> half <= length r -> 1 <= i < half ->
  nth i (fst res) f0
  = cabs (cscale (lit 1 2) (cadd (nth i input c0) (conj (nth (n - i) input c0)))) /\
  nth i (snd res) f0
  = cabs (cmul (Cplx f0 (lit 1 2)) (csub (conj (nth (n - i) input c0)) (nth i input c0))).
Proof.
  intros half n res Hl Hr Hi. subst res. unfold magnitudes_stereo. fold half n.
  pose proof (for_range_shift2
    (fun k =>
       cabs (cscale (lit 1 2) (cadd (nth (S k) input c0) (conj (nth (n - S k) input c0)))))
    (fun k _ =>
       cabs (cmul (Cplx f0 (lit 1 2))
                  (csub (conj (nth (n - S k) input c0)) (nth (S k) input c0))))
    (half - 1) l r) as Hloop.
  cbv zeta in Hloop.
  destruct (for_range (half - 1) _ (l, r)) as [l' r'].
  destruct Hloop as (_ & _ & Hvl & Hvr & _). cbn [fst snd] in *.
  destruct i as [|i]; [lia|].
  split; [apply Hvl; lia|].
  destruct (Hvr i ltac:(lia) ltac:(lia)) as (lk & _ & _ & Hrk). exact Hrk.
Qed.

Lemma magnitudes_mono_values
  (p : ProccessImpl F) (input : list (complex F)) (l r : list F) (i : nat) :
  let half := Z.to_nat (inputSize p / 2) in
  let res := magnitudes_mono p input (l, r) in
  half <= length l -> half <= length r -> 1 <= i < half ->
  let Fv := cscale (lit 1 2) (cadd (nth i input c0) (conj (nth (half - i) input c0))) in
  let G := cmul (Cplx f0 (lit 1 2))
                (csub (conj (nth (half - i) input c0)) (nth i input c0)) in
  let w := cexp (Cplx f0
             (fdiv (fmul (fmul (fneg (f_of_Z 2)) f_pi) (f_of_Z (Z.of_nat i)))
                   (f_of_Z (inputSize p)))) in
  nth i (fst res) f0 = cabs (cadd Fv (cmul w G)) /\
  nth i (snd res) f0 = cabs (cadd Fv (cmul w G)).
Proof.
  intros half res Hl Hr Hi. subst res. unfold magnitudes_mono. fold half.
  pose proof (for_range_shift2
    (fun k =>
       let r_ := S k in
       cabs (cadd (cscale (lit 1 2)
                     (cadd (nth r_ input c0) (conj (nth (half - r_) input c0))))
                  (cmul (cexp (Cplx f0
                           (fdiv (fmul (fmul (fneg (f_of_Z 2)) f_pi)
                                       (f_of_Z (Z.of_nat r_)))
                                 (f_of_Z (inputSize p)))))
                        (cmul (Cplx f0 (lit 1 2))
                              (csub (conj (nth (half - r_) input c0))
                                    (nth r_ input c0))))))
    (fun k l' => nth (S k) l' f0)
    (half - 1) l r) as Hloop.
  cbv zeta in Hloop.
  destruct (for_range (half - 1) _ (l, r)) as [l' r'].
  destruct Hloop as (_ & _ & Hvl & Hvr & _). cbn [fst snd] in *.
  destruct i as [|i]; [lia|]. cbv zeta.
  specialize (Hvl i ltac:(lia) ltac:(lia)).
  destruct (Hvr i ltac:(lia) ltac:(lia)) as (lk & _ & Hlk & Hrk).
  split; [exact Hvl|]. rewrite Hrk, Hlk by lia. reflexivity.
Qed.

(** The last two stores of [magnitudes] touch slot 0 only. *)
Lemma magnitudes_bins (p : ProccessImpl F) (ad : AudioData.t F) (i : nat) :
  1 <= i ->
  let input := as_complex (AudioData.buffer ad) in
  let lr := (AudioData.lBuffer ad, AudioData.rBuffer ad) in
  let res :=
    if (channels p =? 1)%Z
    then magnitudes_mono p (fft input (Z.to_nat (inputSize p / 2))) lr
    else magnitudes_stereo p (fft input (Z.to_nat (inputSize p))) lr in
  nth i (AudioData.lBuffer (magnitudes p ad)) f0 = nth i (fst res) f0 /\
  nth i (AudioData.rBuffer (magnitudes p ad)) f0 = nth i (snd res) f0.
Proof.
  intros Hi input lr res. subst res. unfold magnitudes. fold input lr.
  destruct (channels p =? 1)%Z.
  - destruct (magnitudes_mono p _ lr) as [l r].
    cbn [fst snd AudioData.lBuffer AudioData.rBuffer].
    rewrite !nth_upd_other by lia. split; reflexivity.
  - destruct (magnitudes_stereo p _ lr) as [l r].
    cbn [fst snd AudioData.lBuffer AudioData.rBuffer].
    rewrite !nth_upd_other by lia. split; reflexivity.
Qed.

End MagnitudesValues.

Section Demultiplex.
Open Scope R_scope.

Lemma cscale_cmul (k : R) (a : complex R) : cscale k a = cmul (cof k) a.
Proof.
  destruct a as [x y]. unfold cscale, cmul, cof, f0.
  cbn [re im fadd fsub fmul f_of_Z exact_ops]. f_equal; ring.
Qed.

(** The twiddle factor at the mirrored bin is the conjugate. *)
Lemma twiddle_conj_reflect (N i t : nat) :
  (0 < N)%nat -> (i <= N)%nat ->
  conj (cpow (twiddle N) ((N - i) * t)) = cpow (twiddle N) (i * t).
Proof.
  intros HN Hi.
  set (a := cpow (twiddle N) ((N - i) * t)). set (b := cpow (twiddle N) (i * t)).
  assert (E1 : cmul a b = c1).
  { unfold a, b. rewrite <- cpow_add.
    replace ((N - i) * t + i * t)%nat with (N * t)%nat by nia.
    rewrite cpow_mul, twiddle_full, cpow_c1 by exact HN. reflexivity. }
  assert (E2 : cmul a (conj a) = c1) by apply twiddle_pow_unit.
  transitivity (cmul (conj a) (cmul a b)).
  - rewrite E1. ring.
  - replace (cmul (conj a) (cmul a b)) with (cmul (cmul a (conj a)) b) by ring.
    rewrite E2. ring.
Qed.

Lemma dft_conj_reflect (z : list (complex R)) (N i : nat) :
  (0 < N)%nat -> (i <= N)%nat ->
  conj (dft z N (N - i))
  = Csum N (fun t => cmul (conj (nth t z c0)) (cpow (twiddle N) (i * t))).
Proof.
  intros HN Hi. rewrite dft_powers, Csum_conj. apply Csum_ext. intros t _.
  rewrite conj_cmul, twiddle_conj_reflect by assumption. reflexivity.
Qed.

(** Half the sum of a bin and the conjugate of its mirror is the transform
    of the real parts; the difference, turned by [i/2], that of the
    imaginary parts. *)
Lemma demux_real_parts (z : list (complex R)) (N i : nat) :
  (0 < N)%nat -> (i <= N)%nat -> length z = N ->
  cscale (1 / 2) (cadd (dft z N i) (conj (dft z N (N - i))))
  = dft (map (fun c => cof (re c)) z) N i.
Proof.
  intros HN Hi Hlen.
  rewrite dft_conj_reflect, !dft_powers, cscale_cmul, <- Csum_add, <- Csum_scale
    by assumption.
  apply Csum_ext. intros t Ht.
  rewrite (nth_map_in_range _ _ _ _ c0) by lia.
  destruct (nth t z c0) as [x y]. destruct (cpow (twiddle N) (i * t)) as [u v].
  unfold cmul, cadd, conj, cof, f0.
  cbn [re im fadd fsub fmul fneg f_of_Z exact_ops]. f_equal; field.
Qed.

Lemma demux_imaginary_parts (z : list (complex R)) (N i : nat) :
  (0 < N)%nat -> (i <= N)%nat -> length z = N ->
  cmul (Cplx 0 (1 / 2)) (csub (conj (dft z N (N - i))) (dft z N i))
  = dft (map (fun c => cof (im c)) z) N i.
Proof.
  intros HN Hi Hlen.
  rewrite dft_conj_reflect, !dft_powers by assumption.
  replace (csub (Csum N (fun t => cmul (conj (nth t z c0)) (cpow (twiddle N) (i * t))))
                (Csum N (fun t => cmul (nth t z c0) (cpow (twiddle N) (i * t)))))
    with (Csum N (fun t =>
            cadd (cmul (conj (nth t z c0)) (cpow (twiddle N) (i * t)))
                 (cmul (cneg c1) (cmul (nth t z c0) (cpow (twiddle N) (i * t)))))).
  2:{ rewrite Csum_add, Csum_scale. ring. }
  rewrite <- Csum_scale. apply Csum_ext. intros t Ht.
  rewrite (nth_map_in_range _ _ _ _ c0) by lia.
  destruct (nth t z c0) as [x y]. destruct (cpow (twiddle N) (i * t)) as [u v].
  unfold cmul, cadd, cneg, conj, c1, cof, f0.
  cbn [re im fadd fsub fmul fneg f_of_Z exact_ops]. f_equal; field.
Qed.

(** The packed transform of a real signal: the even samples travel as real
    parts, the odd ones as imaginary parts, and one more butterfly puts the
    two half-length transforms together. *)
Lemma real_signal_split (b : list R) (h r : nat) :
  (0 < h)%nat -> length b = (2 * h)%nat ->
  cadd (dft (left_channel b) h r)
       (cmul (cpow (twiddle (2 * h)) r) (dft (right_channel b) h r))
  = dft (real_signal b) (2 * h) r.
Proof.
  intros Hh Hlen. rewrite !dft_powers, Csum_even_odd, <- Csum_scale.
  assert (Hc : length (as_complex b) = h).
  { rewrite as_complex_length, Hlen, half_of_double. reflexivity. }
  f_equal; apply Csum_ext; intros u Hu.
  - unfold left_channel, real_signal.
    rewrite (nth_map_in_range _ _ _ _ c0) by lia.
    rewrite (nth_map_in_range _ _ _ _ 0) by lia.
    rewrite nth_as_complex by lia. cbn [re].
    replace (r * (2 * u))%nat with (2 * (r * u))%nat by lia.
    rewrite twiddle_even_power by exact Hh. reflexivity.
  - unfold right_channel, real_signal.
    rewrite (nth_map_in_range _ _ _ _ c0) by lia.
    rewrite (nth_map_in_range _ _ _ _ 0) by lia.
    rewrite nth_as_complex by lia. cbn [im].
    replace (r * (2 * u + 1))%nat with (2 * (r * u) + r)%nat by lia.
    rewrite cpow_add, twiddle_even_power by exact Hh.
    change (@f0 R exact_ops) with 0. ring.
Qed.

(** [exp(complex(0, -2 pi r / inputSize))] is a power of the twiddle factor
    of length [inputSize]. *)
Lemma mono_twiddle (p : ProccessImpl R) (N r : nat) :
  inputSize p = Z.of_nat N ->
  cexp (Cplx f0
          (fdiv (fmul (fmul (fneg (f_of_Z 2)) f_pi) (f_of_Z (Z.of_nat r)))
                (f_of_Z (inputSize p))))
  = cpow (twiddle N) r.
Proof.
  intros HN. rewrite HN. cbn [fdiv fmul fneg f_of_Z f_pi exact_ops].
  change (@f0 R exact_ops) with 0.
  rewrite cexp_imaginary, twiddle_pow, <- !INR_IZR_INZ.
  f_equal; f_equal; unfold Rdiv; ring.
Qed.

Lemma stereo_bins (p : ProccessImpl R) (ad : AudioData.t R) (k i : nat) :
  channels p <> 1%Z -> (k < 16)%nat ->
  inputSize p = Z.of_nat (2 ^ k) ->
  length (AudioData.buffer ad) = (2 * 2 ^ k)%nat ->
  (2 ^ k / 2 <= length (AudioData.lBuffer ad))%nat ->
  (2 ^ k / 2 <= length (AudioData.rBuffer ad))%nat ->
  (1 <= i < 2 ^ k / 2)%nat ->
  let out := magnitudes p ad in
  nth i (AudioData.lBuffer out) 0 = cabs (dft (left_channel (AudioData.buffer ad)) (2 ^ k) i) /\
  nth i (AudioData.rBuffer out) 0 = cabs (dft (right_channel (AudioData.buffer ad)) (2 ^ k) i).
Proof.
  intros Hch Hk HN Hlen Hl Hr Hi out.
  assert (Hpos : (0 < 2 ^ k)%nat) by (apply Nat.neq_0_lt_0, Nat.pow_nonzero; lia).
  assert (Hn : Z.to_nat (inputSize p) = (2 ^ k)%nat) by (rewrite HN; apply Nat2Z.id).
  assert (Hhalf : Z.to_nat (inputSize p / 2) = (2 ^ k / 2)%nat).
  { rewrite HN. change 2%Z with (Z.of_nat 2).
    rewrite <- Nat2Z.inj_div. apply Nat2Z.id. }
  assert (Hle : (2 ^ k / 2 <= 2 ^ k)%nat) by (apply Nat.Div0.div_le_upper_bound; lia).
  destruct (magnitudes_bins p ad i ltac:(lia)) as [El Er].
  apply Z.eqb_neq in Hch. rewrite Hch in El, Er.
  change (@f0 R exact_ops) with 0 in El, Er. fold out in El, Er. rewrite El, Er.
  set (z := as_complex (AudioData.buffer ad)).
  assert (Hz : length z = (2 ^ k)%nat).
  { unfold z. rewrite as_complex_length, Hlen, half_of_double. reflexivity. }
  destruct (magnitudes_stereo_values p (fft z (Z.to_nat (inputSize p)))
              (AudioData.lBuffer ad) (AudioData.rBuffer ad) i) as [Vl Vr];
    try (rewrite Hhalf; assumption).
  change (@f0 R exact_ops) with 0 in Vl, Vr. rewrite Vl, Vr, Hn.
  rewrite !(fft_nth z k Hk Hz) by lia.
  change (@lit R exact_ops 1 2) with (1 / 2).
  rewrite (demux_real_parts z (2 ^ k) i), (demux_imaginary_parts z (2 ^ k) i)
    by (try assumption; lia).
  split; reflexivity.
Qed.

Lemma mono_bins (p : ProccessImpl R) (ad : AudioData.t R) (k r : nat) :
  channels p = 1%Z -> (k < 16)%nat ->
  inputSize p = Z.of_nat (2 * 2 ^ k) ->
  length (AudioData.buffer ad) = (2 * 2 ^ k)%nat ->
  (2 ^ k <= length (AudioData.lBuffer ad))%nat ->
  (2 ^ k <= length (AudioData.rBuffer ad))%nat ->
  (1 <= r < 2 ^ k)%nat ->
  let out := magnitudes p ad in
  nth r (AudioData.lBuffer out) 0
  = cabs (dft (real_signal (AudioData.buffer ad)) (2 * 2 ^ k) r) /\
  nth r (AudioData.rBuffer out) 0
  = cabs (dft (real_signal (AudioData.buffer ad)) (2 * 2 ^ k) r).
Proof.
  intros Hch Hk HN Hlen Hl Hr Hi out.
  assert (Hpos : (0 < 2 ^ k)%nat) by (apply Nat.neq_0_lt_0, Nat.pow_nonzero; lia).
  assert (Hhalf : Z.to_nat (inputSize p / 2) = (2 ^ k)%nat).
  { rewrite HN. change 2%Z with (Z.of_nat 2).
    rewrite <- Nat2Z.inj_div, Nat2Z.id. apply half_of_double. }
  destruct (magnitudes_bins p ad r ltac:(lia)) as [El Er].
  rewrite Hch in El, Er. cbn [Z.eqb Pos.eqb] in El, Er.
  change (@f0 R exact_ops) with 0 in El, Er. fold out in El, Er. rewrite El, Er.
  set (z := as_complex (AudioData.buffer ad)).
  assert (Hz : length z = (2 ^ k)%nat).
  { unfold z. rewrite as_complex_length, Hlen, half_of_double. reflexivity. }
  destruct (magnitudes_mono_values p (fft z (Z.to_nat (inputSize p / 2)))
              (AudioData.lBuffer ad) (AudioData.rBuffer ad) r) as [Vl Vr];
    try (rewrite Hhalf; assumption).
  cbv zeta in Vl, Vr.
  change (@f0 R exact_ops) with 0 in Vl, Vr. rewrite Vl, Vr, Hhalf.
  rewrite !(fft_nth z k Hk Hz) by lia.
  change (Cplx 0
            (fdiv (fmul (fmul (fneg (f_of_Z 2)) f_pi) (f_of_Z (Z.of_nat r)))
                  (f_of_Z (inputSize p))))
    with (Cplx (@f0 R exact_ops)
            (fdiv (fmul (fmul (fneg (f_of_Z 2)) f_pi) (f_of_Z (Z.of_nat r)))
                  (f_of_Z (inputSize p)))).
  rewrite (mono_twiddle p (2 * 2 ^ k) r HN).
  change (@lit R exact_ops 1 2) with (1 / 2).
  rewrite (demux_real_parts z (2 ^ k) r), (demux_imaginary_parts z (2 ^ k) r)
    by (try assumption; lia).
  subst z.
  change (map (fun c => cof (re c)) (as_complex (AudioData.buffer ad)))
    with (left_channel (AudioData.buffer ad)).
  change (map (fun c => cof (im c)) (as_complex (AudioData.buffer ad)))
    with (right_channel (AudioData.buffer ad)).
  rewrite (real_signal_split (AudioData.buffer ad) (2 ^ k) r Hpos Hlen).
  split; reflexivity.
Qed.

End Demultiplex.

(** X15. The stereo branch of [magnitudes] in exact arithmetic, for
    [inputSize = 2^k] with [k < 16], a sample buffer of [inputSize]
    interleaved frames and spectrum arrays of at least [inputSize/2] entries:
    at every bin [i] of [1, inputSize/2) the left array holds the absolute
    value of the discrete Fourier transform of the left samples alone, and
    the right array that of the right samples alone. *)
Theorem magnitudes_stereo_separates_channels
  (p : ProccessImpl R) (ad : AudioData.t R) (k i : nat) :
  channels p <> 1%Z -> k < 16 ->
  inputSize p = Z.of_nat (2 ^ k) ->
  length (AudioData.buffer ad) = 2 * 2 ^ k ->
  2 ^ k / 2 <= length (AudioData.lBuffer ad) ->
  2 ^ k / 2 <= length (AudioData.rBuffer ad) ->
  1 <= i < 2 ^ k / 2 ->
  let out := magnitudes p ad in
  nth i (AudioData.lBuffer out) 0%R
  = cabs (dft (left_channel (AudioData.buffer ad)) (2 ^ k) i) /\
  nth i (AudioData.rBuffer out) 0%R
  = cabs (dft (right_channel (AudioData.buffer ad)) (2 ^ k) i).
Proof.
  intros Hch Hk HN Hlen Hl Hr Hi. apply stereo_bins; assumption.
Qed.

(** X16. The mono branch of [magnitudes] in exact arithmetic, for
    [inputSize = 2 * 2^k] with [k < 16], a sample buffer of [inputSize]
    floats and spectrum arrays of at least [inputSize/2] entries: at every
    bin [r] of [1, inputSize/2) both arrays hold the absolute value of the
    discrete Fourier transform of length [inputSize] of the samples, although
    the code runs a transform of half that length. *)
Theorem magnitudes_mono_full_spectrum
  (p : ProccessImpl R) (ad : AudioData.t R) (k r : nat) :
  channels p = 1%Z -> k < 16 ->
  inputSize p = Z.of_nat (2 * 2 ^ k) ->
  length (AudioData.buffer ad) = 2 * 2 ^ k ->
  2 ^ k <= length (AudioData.lBuffer ad) ->
  2 ^ k <= length (AudioData.rBuffer ad) ->
  1 <= r < 2 ^ k ->
  let out := magnitudes p ad in
  nth r (AudioData.lBuffer out) 0%R
  = cabs (dft (real_signal (AudioData.buffer ad)) (2 * 2 ^ k) r) /\
  nth r (AudioData.rBuffer out) 0%R
  = cabs (dft (real_signal (AudioData.buffer ad)) (2 * 2 ^ k) r).
Proof.
  intros Hch Hk HN Hlen Hl Hr Hi. apply mono_bins; assumption.
Qed.

Lemma magnitudes_stereo_separates_channels_witness :
  nth 1 (AudioData.lBuffer (magnitudes impl_exact_stereo frame_stereo)) 0%R
  = cabs (dft (left_channel (AudioData.buffer frame_stereo)) 4 1).
Proof.
  destruct (magnitudes_stereo_separates_channels impl_exact_stereo frame_stereo 2 1)
    as [Hl _].
  - simpl. lia.
  - lia.
  - reflexivity.
  - reflexivity.
  - simpl. lia.
  - simpl. lia.
  - simpl. lia.
  - exact Hl.
Defined.

Lemma magnitudes_mono_full_spectrum_witness :
  nth 3 (AudioData.lBuffer (magnitudes impl_exact_mono frame_mono)) 0%R
  = cabs (dft (real_signal (AudioData.buffer frame_mono)) 8 3).
Proof.
  destruct (magnitudes_mono_full_spectrum impl_exact_mono frame_mono 2 3) as [Hl _].
  - reflexivity.
  - lia.
  - reflexivity.
  - reflexivity.
  - simpl. lia.
  - simpl. lia.
  - simpl. lia.
  - exact Hl.
Defined.

(** * The transform: symmetry and energy *)

Section Symmetry.
Open Scope R_scope.

Lemma conj_cof (x : R) : conj (cof x) = cof x.
Proof.
  unfold conj, cof, f0. cbn [re im fneg f_of_Z exact_ops]. f_equal. ring.
Qed.

Lemma length_real_signal (b : list R) : length (real_signal b) = length b.
Proof. unfold real_signal. apply length_map. Qed.

Lemma dft_real_mirror (b : list R) (N j : nat) :
  (0 < N)%nat -> (j <= N)%nat -> length b = N ->
  dft (real_signal b) N (N - j) = conj (dft (real_signal b) N j).
Proof.
  intros HN Hj Hlen.
  rewrite <- (conj_conj (dft (real_signal b) N (N - j))). f_equal.
  rewrite dft_conj_reflect, dft_powers by assumption.
  apply Csum_ext. intros t Ht. unfold real_signal.
  rewrite (nth_map_in_range _ _ _ _ 0) by lia.
  rewrite conj_cof. reflexivity.
Qed.

End Symmetry.

Section Energy.
Open Scope R_scope.

Lemma Csum_product (n m : nat) (f g : nat -> complex R) :
  cmul (Csum n f) (Csum m g) = Csum n (fun t => Csum m (fun s => cmul (f t) (g s))).
Proof.
  transitivity (Csum n (fun t => cmul (Csum m g) (f t))).
  - rewrite Csum_scale. ring.
  - apply Csum_ext. intros t _. rewrite Csum_scale. ring.
Qed.

Lemma dft_energy (x : list (complex R)) (k : nat) :
  Csum (2 ^ k) (fun j => cmul (dft x (2 ^ k) j) (conj (dft x (2 ^ k) j)))
  = cmul (cof (INR (2 ^ k))) (energy x (2 ^ k)).
Proof.
  set (N := (2 ^ k)%nat). set (w := twiddle N).
  rewrite (Csum_ext _ _
    (fun j => Csum N (fun t => Csum N (fun s =>
       cmul (cmul (nth t x c0) (conj (nth s x c0)))
            (cmul (cpow w (t * j)) (conj (cpow w (s * j)))))))).
  2:{ intros j _. rewrite dft_powers, Csum_conj, Csum_product. fold w.
      apply Csum_ext. intros t _. apply Csum_ext. intros s _.
      rewrite conj_cmul, (Nat.mul_comm j t), (Nat.mul_comm j s). ring. }
  rewrite Csum_exchange.
  unfold energy. rewrite <- Csum_scale. apply Csum_ext. intros t Ht.
  rewrite Csum_exchange.
  rewrite (Csum_ext _ _
    (fun s => cmul (cmul (nth t x c0) (conj (nth s x c0)))
                   (if Nat.eqb t s then cof (INR N) else c0))).
  2:{ intros s Hs. rewrite Csum_scale. unfold w, N.
      rewrite twiddle_orthogonal by assumption. reflexivity. }
  rewrite (Csum_single N t).
  - rewrite Nat.eqb_refl. ring.
  - exact Ht.
  - intros s _ Hne. destruct (Nat.eqb_spec t s); [congruence | ring].
Qed.

Lemma fft_energy (x : list (complex R)) (k : nat) :
  (k < 16)%nat -> length x = (2 ^ k)%nat ->
  energy (fft x (2 ^ k)) (2 ^ k) = cmul (cof (INR (2 ^ k))) (energy x (2 ^ k)).
Proof.
  intros Hk Hlen. rewrite <- dft_energy. unfold energy at 1.
  apply Csum_ext. intros j Hj. rewrite (fft_nth x k Hk Hlen j Hj). reflexivity.
Qed.

End Energy.

(** X17. In exact arithmetic, for [size = 2^k] with [k < 16] and [size]
    real samples: the transform is conjugate-symmetric, bin [size - j] is the
    complex conjugate of bin [j] for every [j] of [1, size); the bins of the
    upper half carry nothing the lower half does not. *)
Theorem fft_of_real_signal_is_symmetric (b : list R) (k j : nat) :
  k < 16 -> length b = 2 ^ k -> 1 <= j < 2 ^ k ->
  nth (2 ^ k - j) (fft (real_signal b) (2 ^ k)) c0
  = conj (nth j (fft (real_signal b) (2 ^ k)) c0).
Proof.
  intros Hk Hlen Hj.
  assert (Hr : length (real_signal b) = 2 ^ k) by (rewrite length_real_signal; exact Hlen).
  rewrite !(fft_nth (real_signal b) k Hk Hr) by lia.
  apply dft_real_mirror; [lia | lia | exact Hlen].
Qed.

Lemma fft_of_real_signal_is_symmetric_witness :
  nth 3 (fft (real_signal [1; 2; 3; 4]%R) 4) c0
  = conj (nth 1 (fft (real_signal [1; 2; 3; 4]%R) 4) c0).
Proof.
  exact (fft_of_real_signal_is_symmetric [1; 2; 3; 4]%R 2 1
           ltac:(lia) ltac:(reflexivity) ltac:(simpl; lia)).
Defined.

(** X18. In exact arithmetic, for [size = 2^k] with [k < 16] and an array of
    [size] complex samples: the energy of the transform, the sum of
    [X[j] * conj(X[j])], is [size] times the energy of the samples
    (Parseval). *)
Theorem fft_scales_energy_by_size (x : list (complex R)) (k : nat) :
  k < 16 -> length x = 2 ^ k ->
  energy (fft x (2 ^ k)) (2 ^ k) = cmul (cof (INR (2 ^ k))) (energy x (2 ^ k)).
Proof. apply fft_energy. Qed.

Lemma fft_scales_energy_by_size_witness :
  energy (fft impulse4 4) 4 = cmul (cof (INR 4)) (energy impulse4 4).
Proof.
  exact (fft_scales_energy_by_size impulse4 2 ltac:(lia) ltac:(reflexivity)).
Defined.

Section TransformInPlace.
Open Scope R_scope.

(** The sample buffer after [magnitudes] is the transform, written back
    over the samples. *)
Lemma magnitudes_buffer {F : Type} `{FloatOps F}
  (p : ProccessImpl F) (ad : AudioData.t F) :
  AudioData.buffer (magnitudes p ad)
  = as_floats (fft (as_complex (AudioData.buffer ad)) (fft_size p)) (AudioData.buffer ad).
Proof.
  unfold magnitudes, fft_size. destruct (channels p =? 1)%Z.
  - destruct (magnitudes_mono p _ _) as [l r]. reflexivity.
  - destruct (magnitudes_stereo p _ _) as [l r]. reflexivity.
Qed.

Lemma magnitudes_buffer_exact (p : ProccessImpl R) (ad : AudioData.t R) (k j : nat) :
  (k < 16)%nat -> fft_size p = (2 ^ k)%nat ->
  length (AudioData.buffer ad) = (2 * 2 ^ k)%nat -> (j < 2 ^ k)%nat ->
  let X := dft (as_complex (AudioData.buffer ad)) (2 ^ k) j in
  nth (2 * j) (AudioData.buffer (magnitudes p ad)) 0 = re X /\
  nth (2 * j + 1) (AudioData.buffer (magnitudes p ad)) 0 = im X.
Proof.
  intros Hk Hsize Hlen Hj X.
  rewrite magnitudes_buffer, Hsize.
  set (z := as_complex (AudioData.buffer ad)).
  assert (Hz : length z = (2 ^ k)%nat).
  { unfold z. rewrite as_complex_length, Hlen, half_of_double. reflexivity. }
  destruct (nth_as_floats (fft z (2 ^ k)) (AudioData.buffer ad) j) as [Ere Eim].
  { rewrite (fft_length z k Hk Hz). exact Hj. }
  change (@f0 R exact_ops) with 0 in Ere, Eim.
  rewrite Ere, Eim, (fft_nth z k Hk Hz j Hj). split; reflexivity.
Qed.

End TransformInPlace.

(** X19. [magnitudes] in exact arithmetic, when the number of complex values
    handed to [fft] ([inputSize/2] in mono, [inputSize] otherwise) is
    [2^k] with [k < 16] and the sample buffer holds twice as many floats:
    the call overwrites the samples; afterwards floats [2j] and [2j + 1] of
    the buffer are the real and the imaginary part of bin [j] of the
    discrete Fourier transform of the buffer's complex values. *)
Theorem magnitudes_leaves_transform_in_buffer
  (p : ProccessImpl R) (ad : AudioData.t R) (k j : nat) :
  k < 16 -> fft_size p = 2 ^ k ->
  length (AudioData.buffer ad) = 2 * 2 ^ k -> j < 2 ^ k ->
  let X := dft (as_complex (AudioData.buffer ad)) (2 ^ k) j in
  nth (2 * j) (AudioData.buffer (magnitudes p ad)) 0%R = re X /\
  nth (2 * j + 1) (AudioData.buffer (magnitudes p ad)) 0%R = im X.
Proof.
  intros Hk Hsize Hlen Hj. apply magnitudes_buffer_exact; assumption.
Qed.

Lemma magnitudes_leaves_transform_in_buffer_witness :
  nth 2 (AudioData.buffer (magnitudes impl_exact_stereo frame_stereo)) 0%R
  = re (dft (as_complex (AudioData.buffer frame_stereo)) 4 1).
Proof.
  destruct (magnitudes_leaves_transform_in_buffer impl_exact_stereo frame_stereo 2 1)
    as [Hre _].
  - lia.
  - reflexivity.
  - reflexivity.
  - simpl. lia.
  - exact Hre.
Defined.

(** * A cosine in one channel *)

Section Cosine.
Open Scope R_scope.

Lemma as_complex_interleave {A} (f g : A -> R) (l : list A) :
  as_complex (flat_map (fun t => [f t; g t]) l) = map (fun t => Cplx (f t) (g t)) l.
Proof.
  induction l as [|t l IH]; [reflexivity|].
  cbn [flat_map app as_complex map]. rewrite IH. reflexivity.
Qed.

Lemma length_interleaved {A} (f g : A -> R) (l : list A) :
  length (flat_map (fun t => [f t; g t]) l) = (2 * length l)%nat.
Proof.
  induction l as [|t l IH]; [reflexivity|].
  cbn [flat_map app length]. rewrite IH. lia.
Qed.

Lemma length_stereo_cosine (N q : nat) : length (stereo_cosine N q) = (2 * N)%nat.
Proof.
  unfold stereo_cosine. rewrite length_interleaved, length_seq. reflexivity.
Qed.

(** The cosine is half the sum of a twiddle power and its conjugate. *)
Lemma cosine_as_twiddles (N q t : nat) :
  cof (cos (2 * PI * INR q * INR t / INR N))
  = cscale (1 / 2) (cadd (conj (cpow (twiddle N) (q * t))) (cpow (twiddle N) (q * t))).
Proof.
  rewrite twiddle_pow, mult_INR.
  replace (INR q * INR t * (- 2 * PI / INR N)) with (- (2 * PI * INR q * INR t / INR N))
    by (unfold Rdiv; ring).
  rewrite cos_neg, sin_neg.
  unfold cscale, cadd, conj, cof, f0. cbn [re im fadd fmul fneg f_of_Z exact_ops].
  f_equal; field.
Qed.

Lemma dft_left_cosine (k q j : nat) :
  (q + j < 2 ^ k)%nat -> (1 <= j)%nat ->
  dft (left_channel (stereo_cosine (2 ^ k) q)) (2 ^ k) j
  = if Nat.eqb j q then cof (INR (2 ^ k) / 2) else c0.
Proof.
  intros Hsum Hj. rewrite dft_powers.
  unfold left_channel, stereo_cosine. rewrite as_complex_interleave, map_map. cbn [re].
  rewrite (Csum_ext _ _
    (fun t => cmul (cof (1 / 2))
                (cadd (cmul (cpow (twiddle (2 ^ k)) (j * t))
                            (conj (cpow (twiddle (2 ^ k)) (q * t))))
                      (cpow (twiddle (2 ^ k)) ((q + j) * t))))).
  2:{ intros t Ht.
      rewrite (nth_map_in_range _ _ _ _ 0%nat) by (rewrite length_seq; exact Ht).
      rewrite seq_nth by exact Ht. cbn [Nat.add].
      rewrite cosine_as_twiddles, cscale_cmul.
      replace ((q + j) * t)%nat with (q * t + j * t)%nat by lia.
      rewrite cpow_add. ring. }
  rewrite Csum_scale, Csum_add.
  rewrite (twiddle_orthogonal k j q) by lia.
  rewrite (twiddle_geometric_sum k (q + j)) by lia.
  destruct (Nat.eqb j q).
  - unfold cmul, cadd, cof, c0, f0. cbn [re im fadd fsub fmul f_of_Z exact_ops].
    f_equal; field.
  - ring.
Qed.

Lemma dft_right_cosine (k q j : nat) :
  dft (right_channel (stereo_cosine (2 ^ k) q)) (2 ^ k) j = c0.
Proof.
  rewrite dft_powers.
  unfold right_channel, stereo_cosine. rewrite as_complex_interleave, map_map. cbn [im].
  rewrite (Csum_ext _ _ (fun _ => c0)); [apply Csum_zero|].
  intros t Ht.
  rewrite (nth_map_in_range _ _ _ _ 0%nat) by (rewrite length_seq; exact Ht).
  change (cof 0) with (@c0 R exact_ops). ring.
Qed.

Lemma cabs_cof_nonneg (x : R) : 0 <= x -> cabs (cof x) = x.
Proof.
  intros Hx. unfold cabs, cof, f0. cbn [re im fadd fmul fsqrt f_of_Z exact_ops].
  replace (x * x + 0 * 0) with (x * x) by ring. apply sqrt_square. exact Hx.
Qed.

Lemma cabs_c0 : cabs (@c0 R exact_ops) = 0.
Proof. change (@c0 R exact_ops) with (cof 0). apply cabs_cof_nonneg. lra. Qed.

End Cosine.

(** X20. The stereo branch of [magnitudes] in exact arithmetic, for
    [inputSize = 2^k] with [k < 16] and spectrum arrays of at least
    [inputSize/2] entries, on a frame whose left channel is the cosine
    [cos(2 pi q t / inputSize)] of a frequency [q] below [inputSize/2] and
    whose right channel is silent: at the bins of [1, inputSize/2) the left
    spectrum is [inputSize/2] at bin [q] and zero elsewhere, and the right
    spectrum is zero. *)
Theorem magnitudes_of_cosine_is_one_peak
  (p : ProccessImpl R) (l r : list R) (lv rv : R) (k q i : nat) :
  channels p <> 1%Z -> k < 16 ->
  inputSize p = Z.of_nat (2 ^ k) ->
  2 ^ k / 2 <= length l -> 2 ^ k / 2 <= length r ->
  q < 2 ^ k / 2 -> 1 <= i < 2 ^ k / 2 ->
  let out := magnitudes p (AudioData.mk (stereo_cosine (2 ^ k) q) l r lv rv) in
  nth i (AudioData.lBuffer out) 0%R = (if Nat.eqb i q then INR (2 ^ k) / 2 else 0)%R /\
  nth i (AudioData.rBuffer out) 0%R = 0%R.
Proof.
  intros Hch Hk HN Hl Hr Hq Hi out.
  assert (Hhalf : 2 * (2 ^ k / 2) <= 2 ^ k) by apply half_le.
  destruct (stereo_bins p (AudioData.mk (stereo_cosine (2 ^ k) q) l r lv rv) k i)
    as [El Er]; try assumption.
  { apply length_stereo_cosine. }
  fold out in El, Er. cbn [AudioData.buffer] in El, Er.
  rewrite El, Er, dft_left_cosine, dft_right_cosine by lia.
  split; [|apply cabs_c0].
  destruct (Nat.eqb i q); [|apply cabs_c0].
  apply cabs_cof_nonneg. pose proof (pos_INR (2 ^ k)). lra.
Qed.

Lemma magnitudes_of_cosine_is_one_peak_witness :
  let out :=
    magnitudes impl_exact_quarter
      (AudioData.mk (stereo_cosine 1024 5) (repeat 0%R 512) (repeat 0%R 512) 0%R 0%R) in
  nth 5 (AudioData.lBuffer out) 0%R = (INR 1024 / 2)%R /\
  nth 6 (AudioData.lBuffer out) 0%R = 0%R.
Proof.
  intros out. split.
  - refine (proj1 (magnitudes_of_cosine_is_one_peak impl_exact_quarter
                     (repeat 0%R 512) (repeat 0%R 512) 0%R 0%R 10 5 5 _ _ _ _ _ _ _)).
    + simpl. lia.
    + lia.
    + reflexivity.
    + rewrite repeat_length. vm_compute. lia.
    + rewrite repeat_length. vm_compute. lia.
    + vm_compute. lia.
    + vm_compute. lia.
  - refine (proj1 (magnitudes_of_cosine_is_one_peak impl_exact_quarter
                     (repeat 0%R 512) (repeat 0%R 512) 0%R 0%R 10 5 6 _ _ _ _ _ _ _)).
    + simpl. lia.
    + lia.
    + reflexivity.
    + rewrite repeat_length. vm_compute. lia.
    + rewrite repeat_length. vm_compute. lia.
    + vm_compute. lia.
    + vm_compute. lia.
Defined.

(** * Exact arithmetic: the size of the smoothing window *)

Section ExactRadius.
Open Scope R_scope.

Lemma neg_ln_005_pos : 0 < - ln (5 / 100).
Proof.
  assert (ln (5 / 100) < ln 1) by (apply ln_increasing; lra).
  rewrite ln_1 in *. lra.
Qed.

(** For an even [inputSize] the sizes cancel: the radius is a multiple of
    [smoothingLevel] alone. *)
Lemma radius_of_level (settings : ProccessSettings.t R) (h : Z) :
  (0 < h < 2 ^ 31)%Z ->
  ProccessSettings.inputSize settings = (2 * h)%Z ->
  (0 < ProccessSettings.outputSize settings)%Z ->
  0 < ProccessSettings.smoothingLevel settings ->
  radius (ProccessImpl_new settings)
  = radius_per_level * ProccessSettings.smoothingLevel settings.
Proof.
  intros Hh HN HS Hsl.
  unfold radius, oldSize, ProccessImpl_new, smoothingFactor_of, lit.
  cbn [smoothingFactor inputSize smoothedSize fdiv fmul fneg fsqrt fln f_of_Z exact_ops].
  rewrite HN.
  replace (2 * h / 2)%Z with h by (rewrite Z.mul_comm, Z.div_mul; lia).
  rewrite Z.mod_small.
  2:{ unfold size_t_mod. split; [nia|].
      apply Z.lt_le_trans with (2 ^ 32 * 2 ^ 32)%Z; [|simpl; lia].
      apply Z.mul_lt_mono_nonneg; lia. }
  rewrite !mult_IZR.
  set (H := IZR h). set (S := IZR (ProccessSettings.outputSize settings)).
  set (sl := ProccessSettings.smoothingLevel settings) in *.
  assert (HH : 0 < H) by (apply IZR_lt; lia).
  assert (HSp : 0 < S) by (apply IZR_lt; lia).
  set (L := ln (IZR 5 / IZR 100)).
  assert (HL : 0 < - L) by apply neg_ln_005_pos.
  replace (- L / (IZR 2 * H * (IZR 2 * H) * (IZR 1 / IZR 8) / (sl * S * sl * S)))
    with ((- 2 * L) * ((sl * S / H) * (sl * S / H)))
    by (field; repeat split; lra).
  assert (Hq : 0 < sl * S / H).
  { apply Rdiv_lt_0_compat; [apply Rmult_lt_0_compat|]; assumption. }
  rewrite sqrt_mult by nra.
  rewrite sqrt_square by lra.
  unfold radius_per_level. fold L.
  field. split; lra.
Qed.

End ExactRadius.

Section ExactWindows.
Open Scope R_scope.
Variable p : ProccessImpl R.
Hypothesis Hsizes : sizes_in_range p.

(** A radius below 1 leaves nothing in the window of output index 0. *)
Lemma window_0_empty :
  spec_radius p < 1 -> (kernel_max p 0 <= kernel_min p 0)%Z.
Proof.
  intros Hr. destruct Hsizes as [_ [HS _]].
  rewrite (kernel_min_exact p Hsizes), (kernel_max_exact p Hsizes) by (simpl; lia).
  pose proof (spec_radius_nonneg p Hsizes) as Hr0.
  pose proof (half_bounds p Hsizes) as [Hh _].
  unfold truncated_lo, truncated_hi. simpl INR. rewrite !Rmult_0_l.
  assert (Hhi : Rtrunc (0 + spec_radius p) = 0%Z).
  { apply Rtrunc_unique; simpl; lra. }
  assert (Hlo : (Rtrunc (0 - spec_radius p) <= 0)%Z).
  { apply Rtrunc_le; [lia | simpl; lra]. }
  rewrite Hhi. lia.
Qed.

(** A radius of 1 or more leaves at least one bin in every window. *)
Lemma windows_nonempty (i : nat) :
  (2 <= inputSize p)%Z ->
  1 <= spec_radius p ->
  (Z.of_nat i < smoothedSize p)%Z ->
  (kernel_min p i < kernel_max p i)%Z.
Proof.
  intros HN Hr Hi.
  rewrite (kernel_min_exact p Hsizes), (kernel_max_exact p Hsizes) by exact Hi.
  pose proof (half_bounds p Hsizes) as [_ Hh'].
  assert (Hh : (0 < inputSize p / 2)%Z) by (apply Z.div_str_pos; lia).
  pose proof (smoothedSize_pos p Hsizes) as HS.
  set (c := INR i * spec_scale p).
  assert (Hc : 0 <= c < IZR (inputSize p / 2)).
  { unfold c, spec_scale.
    apply IZR_lt in Hi. rewrite <- INR_IZR_INZ in Hi. pose proof (pos_INR i) as Hi0.
    apply IZR_lt in Hh.
    assert (Hinv : 0 < / IZR (smoothedSize p)) by (apply Rinv_0_lt_compat; exact HS).
    replace (INR i * (IZR (inputSize p / 2) / IZR (smoothedSize p)))
      with (IZR (inputSize p / 2) * (INR i * / IZR (smoothedSize p)))
      by (unfold Rdiv; ring).
    assert (Hq : 0 <= INR i * / IZR (smoothedSize p) < 1).
    { split; [apply Rmult_le_pos; lra|].
      apply Rmult_lt_reg_r with (IZR (smoothedSize p)); [exact HS|].
      rewrite Rmult_assoc, Rinv_l by lra. lra. }
    split; [apply Rmult_le_pos; lra | nra]. }
  unfold truncated_lo, truncated_hi. fold c.
  destruct (Rtrunc_nonneg (c + spec_radius p) ltac:(lra)) as (Hhi0 & Hhi1 & Hhi2).
  assert (Hhi : (1 <= Rtrunc (c + spec_radius p))%Z).
  { assert (0 < IZR (Rtrunc (c + spec_radius p))) by lra.
    apply lt_IZR in H. lia. }
  destruct (Rle_or_lt 0 (c - spec_radius p)) as [Hpos|Hneg].
  - destruct (Rtrunc_nonneg (c - spec_radius p) Hpos) as (Hlo0 & Hlo1 & Hlo2).
    assert (Hlt : (Rtrunc (c - spec_radius p) < Rtrunc (c + spec_radius p))%Z).
    { apply lt_IZR. lra. }
    assert (Hlh : (Rtrunc (c - spec_radius p) < inputSize p / 2)%Z).
    { apply lt_IZR. lra. }
    lia.
  - pose proof (Rtrunc_neg _ Hneg). lia.
Qed.

End ExactWindows.

Section ExactBounds.
Open Scope R_scope.

Lemma Rsum_from_to_le (lo hi : Z) (f g : Z -> R) :
  (forall j, (lo <= j < hi)%Z -> f j <= g j) ->
  Rsum_from_to lo hi f <= Rsum_from_to lo hi g.
Proof.
  intros Hle. unfold Rsum_from_to.
  assert (Hin : forall k, In k (seq 0 (Z.to_nat (hi - lo))) ->
                  (lo <= lo + Z.of_nat k < hi)%Z).
  { intros k Hk. apply in_seq in Hk. lia. }
  revert Hin. generalize (seq 0 (Z.to_nat (hi - lo))) as ks.
  induction ks as [|k ks IH]; intros Hin; simpl; [lra|].
  specialize (IH ltac:(intros; apply Hin; right; assumption)).
  specialize (Hle _ (Hin k ltac:(left; reflexivity))). unfold Rsum in *. lra.
Qed.

(** A weighted mean is at least any lower bound of its terms and at most
    any upper bound. *)
Lemma truncated_smooth_ge (p : ProccessImpl R) (src : list R) (a : R) (i : nat) :
  (truncated_lo p i < truncated_hi p i)%Z ->
  (forall j, (truncated_lo p i <= j < truncated_hi p i)%Z ->
     a <= nth (Z.to_nat j) src 0) ->
  a <= truncated_smooth p src i.
Proof.
  intros Hne Hsrc. unfold truncated_smooth.
  set (lo := truncated_lo p i) in *. set (hi := truncated_hi p i) in *.
  set (W := Rsum_from_to lo hi (spec_weight p i)).
  assert (HW : 0 < W) by (apply Rsum_from_to_pos; [exact Hne | apply spec_weight_pos]).
  assert (Ha : a * W <= Rsum_from_to lo hi (fun j => nth (Z.to_nat j) src 0 * spec_weight p i j)).
  { unfold W. rewrite <- Rsum_from_to_scale. apply Rsum_from_to_le.
    intros j Hj. pose proof (spec_weight_pos p i j). pose proof (Hsrc j Hj). nra. }
  set (T := Rsum_from_to lo hi _) in *.
  apply Rmult_le_reg_r with W; [exact HW|].
  unfold Rdiv. rewrite Rmult_assoc, Rinv_l by lra. lra.
Qed.

Lemma truncated_smooth_le (p : ProccessImpl R) (src : list R) (b : R) (i : nat) :
  (truncated_lo p i < truncated_hi p i)%Z ->
  (forall j, (truncated_lo p i <= j < truncated_hi p i)%Z ->
     nth (Z.to_nat j) src 0 <= b) ->
  truncated_smooth p src i <= b.
Proof.
  intros Hne Hsrc. unfold truncated_smooth.
  set (lo := truncated_lo p i) in *. set (hi := truncated_hi p i) in *.
  set (W := Rsum_from_to lo hi (spec_weight p i)).
  assert (HW : 0 < W) by (apply Rsum_from_to_pos; [exact Hne | apply spec_weight_pos]).
  assert (Hb : Rsum_from_to lo hi (fun j => nth (Z.to_nat j) src 0 * spec_weight p i j) <= b * W).
  { unfold W. rewrite <- Rsum_from_to_scale. apply Rsum_from_to_le.
    intros j Hj. pose proof (spec_weight_pos p i j). pose proof (Hsrc j Hj). nra. }
  set (T := Rsum_from_to lo hi _) in *.
  apply Rmult_le_reg_r with W; [exact HW|].
  unfold Rdiv. rewrite Rmult_assoc, Rinv_l by lra. lra.
Qed.

(** The smoothed values of a non-empty window, bounded from below and from
    above by bounds on the spectrum. *)
Lemma kernelSmooth_between
  (p : ProccessImpl R) (ad : AudioData.t R) (i : nat) :
  sizes_in_range p ->
  (i < Z.to_nat (smoothedSize p))%nat ->
  (i < length (lBuffer p))%nat -> (i < length (rBuffer p))%nat ->
  (kernel_min p i < kernel_max p i)%Z ->
  let out := snd (kernelSmooth p ad) in
  let half := Z.to_nat (inputSize p / 2) in
  (forall a, (forall j, (j < half)%nat -> a <= nth j (AudioData.lBuffer ad) 0) ->
             a <= nth i (AudioData.lBuffer out) 0) /\
  (forall b, (forall j, (j < half)%nat -> nth j (AudioData.lBuffer ad) 0 <= b) ->
             nth i (AudioData.lBuffer out) 0 <= b) /\
  (forall a, (forall j, (j < half)%nat -> a <= nth j (AudioData.rBuffer ad) 0) ->
             a <= nth i (AudioData.rBuffer out) 0) /\
  (forall b, (forall j, (j < half)%nat -> nth j (AudioData.rBuffer ad) 0 <= b) ->
             nth i (AudioData.rBuffer out) 0 <= b).
Proof.
  intros Hsizes Hi Hl Hr Hne out half.
  destruct (kernelSmooth_exact p Hsizes ad i Hi Hl Hr) as [El Er].
  fold out in El, Er. rewrite El, Er.
  rewrite (kernel_min_exact p Hsizes), (kernel_max_exact p Hsizes) in Hne by lia.
  pose proof (truncated_bounds p Hsizes i ltac:(lia)) as [Hlo Hhi].
  repeat split; intros c Hsrc;
    first [apply truncated_smooth_ge | apply truncated_smooth_le]; try exact Hne;
    intros j Hj; apply Hsrc; unfold half; lia.
Qed.

End ExactBounds.

(** X21. In exact arithmetic, for an object constructed with an even
    [inputSize] of [2, 2^32), a positive [outputSize] and a positive
    [smoothingLevel]: the radius of the smoothing window does not depend on
    the two sizes; it is [sqrt(-2 ln 0.05) * smoothingLevel], about
    [2.4477 * smoothingLevel]. *)
Theorem radius_depends_on_level_only (settings : ProccessSettings.t R) (h : Z) :
  (0 < h < 2 ^ 31)%Z ->
  ProccessSettings.inputSize settings = (2 * h)%Z ->
  (0 < ProccessSettings.outputSize settings)%Z ->
  (0 < ProccessSettings.smoothingLevel settings)%R ->
  radius (ProccessImpl_new settings)
  = (radius_per_level * ProccessSettings.smoothingLevel settings)%R.
Proof. apply radius_of_level. Qed.

Lemma radius_depends_on_level_only_witness :
  radius impl_exact_quarter = (radius_per_level * (1 / 4))%R.
Proof.
  apply (radius_depends_on_level_only (settings_exact 1024 64 2 1 (1 / 4)) 512).
  - lia.
  - reflexivity.
  - simpl. lia.
  - simpl. lra.
Defined.





(** * Exact arithmetic: the smoother at a radius of one bin or more *)

Section WideWindows.
Open Scope R_scope.

Lemma constructor_sizes (settings : ProccessSettings.t R) (h : Z) :
  (0 < h < 2 ^ 31)%Z ->
  ProccessSettings.inputSize settings = (2 * h)%Z ->
  (0 < ProccessSettings.outputSize settings < 2 ^ 32)%Z ->
  sizes_in_range (ProccessImpl_new settings) /\
  (2 <= inputSize (ProccessImpl_new settings))%Z /\
  (inputSize (ProccessImpl_new settings) / 2 = h)%Z.
Proof.
  intros Hh HN HS. unfold sizes_in_range. cbn [inputSize smoothedSize ProccessImpl_new].
  rewrite HN. replace (2 * h / 2)%Z with h by (rewrite Z.mul_comm, Z.div_mul; lia).
  repeat split; lia.
Qed.

Lemma constructor_capacity (settings : ProccessSettings.t R) (i : nat) :
  (i < Z.to_nat (ProccessSettings.outputSize settings))%nat ->
  (i < length (lBuffer (ProccessImpl_new settings)))%nat /\
  (i < length (rBuffer (ProccessImpl_new settings)))%nat.
Proof.
  intros Hi. cbn [lBuffer rBuffer ProccessImpl_new]. rewrite repeat_length. lia.
Qed.

Lemma flat_through_wide_windows
  (settings : ProccessSettings.t R) (h : Z) (ad : AudioData.t R) (c : R) (i : nat) :
  (0 < h < 2 ^ 31)%Z ->
  ProccessSettings.inputSize settings = (2 * h)%Z ->
  (0 < ProccessSettings.outputSize settings < 2 ^ 32)%Z ->
  0 < ProccessSettings.smoothingLevel settings ->
  1 <= radius_per_level * ProccessSettings.smoothingLevel settings ->
  (forall j, (j < Z.to_nat h)%nat ->
     nth j (AudioData.lBuffer ad) 0 = c /\ nth j (AudioData.rBuffer ad) 0 = c) ->
  (i < Z.to_nat (ProccessSettings.outputSize settings))%nat ->
  let out := snd (kernelSmooth (ProccessImpl_new settings) ad) in
  nth i (AudioData.lBuffer out) 0 = c /\ nth i (AudioData.rBuffer out) 0 = c.
Proof.
  intros Hh HN HS Hsl Hr Hflat Hi out.
  destruct (constructor_sizes settings h Hh HN HS) as (Hsizes & HN2 & Hhalf).
  destruct (constructor_capacity settings i Hi) as [Hl Hrr].
  set (p := ProccessImpl_new settings) in *.
  assert (Hne : (kernel_min p i < kernel_max p i)%Z).
  { apply (windows_nonempty p Hsizes); [exact HN2 | | cbn [smoothedSize p ProccessImpl_new]; lia].
    rewrite <- (radius_exact p). unfold p.
    rewrite (radius_of_level settings h) by (try assumption; lia). exact Hr. }
  destruct (kernelSmooth_between p ad i Hsizes Hi Hl Hrr Hne)
    as (Hlge & Hlle & Hrge & Hrle).
  fold out in Hlge, Hlle, Hrge, Hrle. rewrite Hhalf in Hlge, Hlle, Hrge, Hrle.
  split; apply Rle_antisym;
    first [apply Hlle | apply Hlge | apply Hrle | apply Hrge];
    intros j Hj; destruct (Hflat j Hj) as [El Er]; rewrite ?El, ?Er; apply Rle_refl.
Qed.

Lemma smoothed_output_nonneg
  (p : ProccessImpl R) (ad : AudioData.t R) (i : nat) :
  sizes_in_range p -> (4 <= inputSize p)%Z -> 0 <= amplitude p ->
  1 <= radius p ->
  (Z.to_nat (inputSize p / 2) <= length (AudioData.lBuffer ad))%nat ->
  (Z.to_nat (inputSize p / 2) <= length (AudioData.rBuffer ad))%nat ->
  (i < Z.to_nat (smoothedSize p))%nat ->
  (i < length (lBuffer p))%nat -> (i < length (rBuffer p))%nat ->
  let out := snd (proccessSignal p ad) in
  0 <= nth i (AudioData.lBuffer out) 0 /\ 0 <= nth i (AudioData.rBuffer out) 0.
Proof.
  intros Hsizes HN Ha Hrad Hl Hr Hi Hbl Hbr out. subst out.
  rewrite proccessSignal_unfold. cbv zeta. cbn [f_isnan exact_ops].
  set (half := Z.to_nat (inputSize p / 2)) in *.
  assert (Hhalf : (2 <= half)%nat).
  { unfold half. assert (2 <= inputSize p / 2)%Z by (apply Z.div_le_lower_bound; lia). lia. }
  destruct (magnitudes_nonneg p (windowFunction p ad) Hhalf Hl Hr) as (Hml & Hmr & Hnl & Hnr).
  destruct (equalise_nonneg p (magnitudes p (windowFunction p ad)) Ha ltac:(lia))
    as [Hel Her]; try assumption.
  { rewrite Hml. exact Hl. }
  { rewrite Hmr. exact Hr. }
  set (spectrum := equalise p (magnitudes p (windowFunction p ad))) in *.
  assert (Hne : (kernel_min p i < kernel_max p i)%Z).
  { apply (windows_nonempty p Hsizes); [lia | rewrite <- (radius_exact p); exact Hrad | lia]. }
  destruct (kernelSmooth_between p (calculateVolume p spectrum) i Hsizes Hi Hbl Hbr Hne)
    as (Hlge & _ & Hrge & _).
  split; [apply Hlge | apply Hrge]; intros j Hj.
  - apply Hel. exact Hj.
  - apply Her. exact Hj.
Qed.

End WideWindows.



Lemma radius_per_level_ge_1 : (1 <= radius_per_level)%R.
Proof.
  unfold radius_per_level.
  assert (Hln : (1 < - ln (5 / 100))%R).
  { replace (5 / 100)%R with (/ 20)%R by lra.
    rewrite ln_Rinv by lra. rewrite Ropp_involutive.
    rewrite <- (ln_exp 1) at 1. apply ln_increasing; [apply exp_pos|].
    pose proof exp_le_3. lra. }
  rewrite <- sqrt_1 at 1. apply sqrt_le_1_alt. lra.
Qed.



(** * IEEE-754 binary32: when the guard of [proccessSignal] fires *)

Section GuardFacts.

Lemma SFmul_nan_l (y : float32) : SFmul 24 128 S754_nan y = S754_nan.
Proof. reflexivity. Qed.

Lemma SFmul_nan_r (x : float32) : SFmul 24 128 x S754_nan = S754_nan.
Proof. destruct x; reflexivity. Qed.

Lemma SFdiv_nan_r (x : float32) : SFdiv 24 128 x S754_nan = S754_nan.
Proof. destruct x; reflexivity. Qed.

(** A product with a zero factor is a zero or NaN. *)
Lemma SFmul_zero_l (s : bool) (y : float32) :
  (exists s', SFmul 24 128 (S754_zero s) y = S754_zero s') \/
  SFmul 24 128 (S754_zero s) y = S754_nan.
Proof.
  destruct y as [s'|s'| |s' m e]; simpl; eauto.
Qed.

Lemma SFmul_zero_r (x : float32) (s : bool) :
  ((exists s', x = S754_zero s') \/ x = S754_nan) ->
  (exists s', SFmul 24 128 x (S754_zero s) = S754_zero s') \/
  SFmul 24 128 x (S754_zero s) = S754_nan.
Proof.
  intros [[s' ->]| ->]; simpl; eauto.
Qed.

Lemma SFdiv_zero_by_zero_or_nan (s : bool) (y : float32) :
  ((exists s', y = S754_zero s') \/ y = S754_nan) ->
  SFdiv 24 128 (S754_zero s) y = S754_nan.
Proof.
  intros [[s' ->]| ->]; reflexivity.
Qed.

Lemma smoothingFactor_nan_level
  (lm : Libm) (settings : ProccessSettings.t float32) :
  ProccessSettings.smoothingLevel settings = S754_nan ->
  @smoothingFactor_of _ (b32_ops lm) settings = S754_nan.
Proof.
  intros Hlvl. unfold smoothingFactor_of. cbv zeta. rewrite Hlvl.
  cbn [fdiv fmul b32_ops].
  rewrite ?SFmul_nan_l, ?SFmul_nan_r. apply SFdiv_nan_r.
Qed.

Lemma smoothingFactor_zero_over_zero
  (lm : Libm) (settings : ProccessSettings.t float32) (s : bool) :
  ((ProccessSettings.inputSize settings * ProccessSettings.inputSize settings)
     mod size_t_mod = 0)%Z ->
  ProccessSettings.smoothingLevel settings = S754_zero s ->
  @smoothingFactor_of _ (b32_ops lm) settings = S754_nan.
Proof.
  intros Hsq Hlvl. unfold smoothingFactor_of. cbv zeta. rewrite Hlvl, Hsq.
  cbn [fdiv fmul f_of_Z b32_ops].
  replace (SFmul 24 128 (b32_of_Z 0) (@lit _ (b32_ops lm) 1 8)) with (S754_zero false)
    by (vm_compute; reflexivity).
  apply SFdiv_zero_by_zero_or_nan.
  set (S := b32_of_Z (ProccessSettings.outputSize settings)).
  pose proof (SFmul_zero_l s S) as H1.
  pose proof (SFmul_zero_r _ s H1) as H2.
  destruct H2 as [[s2 E2]|E2]; rewrite E2.
  - apply SFmul_zero_l.
  - right. apply SFmul_nan_l.
Qed.

End GuardFacts.

(** X26. In binary32 arithmetic, whatever libm, sizes, channel count and
    frame: an object constructed with a NaN [smoothingLevel], or with a
    [smoothingLevel] of plus or minus zero and an [inputSize] whose square is
    zero modulo [2^64] (an [inputSize] of 0, say), has a NaN
    [smoothingFactor]; [proccessSignal] then skips the smoother, leaves the
    object as it was and returns the equalized spectrum with its volumes. *)
Theorem nan_smoothingFactor_skips_smooth
  (lm : Libm) (settings : ProccessSettings.t float32) (ad : AudioData.t float32) :
  (ProccessSettings.smoothingLevel settings = S754_nan \/
   (((ProccessSettings.inputSize settings * ProccessSettings.inputSize settings)
       mod size_t_mod = 0)%Z /\
    exists s, ProccessSettings.smoothingLevel settings = S754_zero s)) ->
  let ops := b32_ops lm in
  let p := @ProccessImpl_new _ ops settings in
  smoothingFactor p = S754_nan /\
  @proccessSignal _ ops p ad
  = (p, @calculateVolume _ ops p
          (@equalise _ ops p (@magnitudes _ ops p (@windowFunction _ ops p ad)))).
Proof.
  intros Hcause ops p.
  assert (Hsf : smoothingFactor p = S754_nan).
  { unfold p, ProccessImpl_new. cbn [smoothingFactor].
    destruct Hcause as [Hnan | [Hsq [s Hzero]]].
    - apply smoothingFactor_nan_level. exact Hnan.
    - apply (smoothingFactor_zero_over_zero lm settings s); assumption. }
  split; [exact Hsf|].
  rewrite (@proccessSignal_unfold _ ops). cbv zeta.
  replace (f_isnan (smoothingFactor p)) with true by (rewrite Hsf; reflexivity).
  reflexivity.
Qed.

Lemma nan_smoothingFactor_skips_smooth_witness :
  let p := @ProccessImpl_new _ (b32_ops libm_table)
             (settings_b32 0 64 2 b32_one b32_zero) in
  smoothingFactor p = S754_nan /\
  fst (@proccessSignal _ (b32_ops libm_table) p (flat_frame b32_one)) = p.
Proof.
  intros p.
  destruct (nan_smoothingFactor_skips_smooth libm_table
              (settings_b32 0 64 2 b32_one b32_zero) (flat_frame b32_one))
    as [Hsf Hrun].
  - right. split; [reflexivity | exists false; reflexivity].
  - cbv zeta in Hrun. fold p in Hrun. split; [exact Hsf|].
    rewrite Hrun. reflexivity.
Defined.

(** * Exact arithmetic: the amplitude is a gain *)

Section Gain.
Open Scope R_scope.

Lemma equalise_weight_gain (p : ProccessImpl R) (c : R) (n : nat) :
  equalise_weight (with_amplitude (c * amplitude p) p) n = c * equalise_weight p n.
Proof.
  rewrite !equalise_weight_exact. cbn [amplitude inputSize with_amplitude]. ring.
Qed.

Lemma Rsum_firstn_scale (c : R) (n : nat) (l l' : list R) :
  length l' = length l ->
  (forall k, (k < n)%nat -> nth k l' 0 = c * nth k l 0) ->
  Rsum (firstn n l') = c * Rsum (firstn n l).
Proof.
  revert l l'. induction n as [|n IH]; intros l l' Hlen Hk.
  - simpl. ring.
  - destruct l as [|x l]; destruct l' as [|x' l']; try discriminate Hlen.
    + simpl. ring.
    + cbn [firstn Rsum fold_right]. fold (Rsum (firstn n l')). fold (Rsum (firstn n l)).
      rewrite (IH l l').
      * specialize (Hk 0%nat ltac:(lia)). simpl in Hk. rewrite Hk. ring.
      * simpl in Hlen. lia.
      * intros k Hlt. apply (Hk (S k)). lia.
Qed.

Lemma truncated_smooth_scale (p : ProccessImpl R) (src src' : list R) (c : R) (i : nat) :
  (forall j, (truncated_lo p i <= j < truncated_hi p i)%Z ->
     nth (Z.to_nat j) src' 0 = c * nth (Z.to_nat j) src 0) ->
  truncated_smooth p src' i = c * truncated_smooth p src i.
Proof.
  intros Hsrc. unfold truncated_smooth.
  rewrite (Rsum_from_to_ext _ _ _
             (fun j => c * (nth (Z.to_nat j) src 0 * spec_weight p i j))).
  2:{ intros j Hj. rewrite (Hsrc j Hj). ring. }
  rewrite Rsum_from_to_scale. unfold Rdiv. ring.
Qed.

(** The equalized spectrum under the scaled amplitude. *)
Lemma equalise_gain (p : ProccessImpl R) (ad : AudioData.t R) (c : R) :
  let half := Z.to_nat (inputSize p / 2) in
  let out := equalise p ad in
  let out' := equalise (with_amplitude (c * amplitude p) p) ad in
  (half <= length (AudioData.lBuffer ad))%nat ->
  (half <= length (AudioData.rBuffer ad))%nat ->
  length (AudioData.lBuffer out') = length (AudioData.lBuffer out) /\
  length (AudioData.rBuffer out') = length (AudioData.rBuffer out) /\
  forall n, (n < half)%nat ->
    nth n (AudioData.lBuffer out') 0 = c * nth n (AudioData.lBuffer out) 0 /\
    nth n (AudioData.rBuffer out') 0 = c * nth n (AudioData.rBuffer out) 0.
Proof.
  intros half out out' Hl Hr.
  destruct (equalise_spec p ad) as (Ll & Lr & El & Er & _).
  destruct (equalise_spec (with_amplitude (c * amplitude p) p) ad)
    as (Ll' & Lr' & El' & Er' & _).
  cbn [inputSize with_amplitude] in El', Er'.
  fold half in El, Er, El', Er'. fold out in Ll, Lr, El, Er. fold out' in Ll', Lr', El', Er'.
  change (@f0 R exact_ops) with 0 in El, Er, El', Er'.
  split; [lia|]. split; [lia|].
  intros n Hn.
  rewrite El', El, Er', Er by lia. rewrite equalise_weight_gain.
  cbn [fmul exact_ops]. split; ring.
Qed.

Lemma proccessSignal_gain (p : ProccessImpl R) (ad : AudioData.t R) (c : R) (i : nat) :
  sizes_in_range p ->
  (Z.to_nat (inputSize p / 2) <= length (AudioData.lBuffer ad))%nat ->
  (Z.to_nat (inputSize p / 2) <= length (AudioData.rBuffer ad))%nat ->
  (i < Z.to_nat (smoothedSize p))%nat ->
  (i < length (lBuffer p))%nat -> (i < length (rBuffer p))%nat ->
  let out := snd (proccessSignal p ad) in
  let out' := snd (proccessSignal (with_amplitude (c * amplitude p) p) ad) in
  nth i (AudioData.lBuffer out') 0 = c * nth i (AudioData.lBuffer out) 0 /\
  nth i (AudioData.rBuffer out') 0 = c * nth i (AudioData.rBuffer out) 0 /\
  AudioData.lVolume out' = c * AudioData.lVolume out /\
  AudioData.rVolume out' = c * AudioData.rVolume out.
Proof.
  intros Hsizes Hl Hr Hi Hbl Hbr out out'. subst out out'.
  set (p' := with_amplitude (c * amplitude p) p).
  rewrite !proccessSignal_unfold. cbv zeta. cbn [f_isnan exact_ops].
  change (windowFunction p' ad) with (windowFunction p ad).
  change (magnitudes p' (windowFunction p ad)) with (magnitudes p (windowFunction p ad)).
  set (m := magnitudes p (windowFunction p ad)).
  destruct (magnitudes_lengths p (windowFunction p ad)) as (_ & Hml & Hmr).
  fold m in Hml, Hmr.
  destruct (equalise_gain p m c) as (Ll & Lr & Hgain); try (rewrite ?Hml, ?Hmr; assumption).
  fold p' in Ll, Lr, Hgain.
  set (e := equalise p m) in *. set (e' := equalise p' m) in *.
  assert (Hsizes' : sizes_in_range p') by exact Hsizes.
  destruct (kernelSmooth_exact p Hsizes (calculateVolume p e) i Hi Hbl Hbr) as [Sl Sr].
  destruct (kernelSmooth_exact p' Hsizes' (calculateVolume p' e') i Hi Hbl Hbr) as [Sl' Sr'].
  destruct (kernelSmooth_frame p (calculateVolume p e)) as (_ & Vl & Vr).
  destruct (kernelSmooth_frame p' (calculateVolume p' e')) as (_ & Vl' & Vr').
  cbv zeta in Sl, Sr, Sl', Sr', Vl, Vr, Vl', Vr'.
  rewrite Sl, Sr, Sl', Sr', Vl, Vr, Vl', Vr'.
  pose proof (truncated_bounds p Hsizes i ltac:(lia)) as [Hlo Hhi].
  change (AudioData.lBuffer (calculateVolume p' e')) with (AudioData.lBuffer e').
  change (AudioData.rBuffer (calculateVolume p' e')) with (AudioData.rBuffer e').
  change (AudioData.lBuffer (calculateVolume p e)) with (AudioData.lBuffer e).
  change (AudioData.rBuffer (calculateVolume p e)) with (AudioData.rBuffer e).
  change (truncated_smooth p' (AudioData.lBuffer e') i)
    with (truncated_smooth p (AudioData.lBuffer e') i).
  change (truncated_smooth p' (AudioData.rBuffer e') i)
    with (truncated_smooth p (AudioData.rBuffer e') i).
  split; [|split; [|split]].
  - apply truncated_smooth_scale. intros j Hj. apply Hgain. lia.
  - apply truncated_smooth_scale. intros j Hj. apply Hgain. lia.
  - rewrite (lVolume_exact p' e'), (lVolume_exact p e).
    cbn [inputSize p' with_amplitude].
    rewrite (Rsum_firstn_scale c _ (AudioData.lBuffer e) (AudioData.lBuffer e') Ll).
    + unfold Rdiv. ring.
    + intros k Hk. apply Hgain. exact Hk.
  - rewrite (rVolume_exact p' e'), (rVolume_exact p e).
    cbn [inputSize p' with_amplitude].
    rewrite (Rsum_firstn_scale c _ (AudioData.rBuffer e) (AudioData.rBuffer e') Lr).
    + unfold Rdiv. ring.
    + intros k Hk. apply Hgain. exact Hk.
Qed.

End Gain.


